(** * Camunda 8 SDK (ESM): codec, class factories, OAuth provider, job worker

    A shallow embedding of the parts of the SDK that carry its contracts:

    - [OAuth]   : [OAuthProvider] (token cache, in-flight request gate,
                  audience parameter of the token request);
    - [Worker]  : [CamundaJobWorker] (poll loop and job handling);
    - [Codec]   : the lossless JSON codec ([losslessParse],
                  [losslessStringify]), the decorator metadata it reads
                  ([getMetadata]) and the two memoized class factories;
    - [Lifecycle] : the worker's constructor, [start] and [stop], with the
                  timers they set;
    - [OAuthSetup], [OAuthTrace] : the constructor of [OAuthProvider] and
                  the flushing of its caches;
    - [Cli]     : the command line of c8cli ([parseArguments], [main]);
    - [Rest]    : the request hooks and the tenant defaults of the REST and
                  Operate clients;
    - [CodecUse], [CodecWire] : [parseSearchResults], and the values the
                  codec carries (plain data, instances of Dto classes,
                  responses read without a Dto);
    - [Deploy]  : [deployResources], from the response on.

    The properties follow the definitions, in [OAuthFacts], [OAuthExamples],
    [WorkerFacts] and [CodecFacts], then in [DispatchFacts],
    [LifecycleFacts], [OAuthSetupFacts], [OAuthTraceFacts], [CliFacts],
    [RestFacts], [CodecUseFacts], [PlainFacts], [MetadataFacts],
    [ArrayFacts], [DecimalFacts], [RoundTripFacts], [WireFacts] and
    [DeployFacts].

    JavaScript runs these on one event loop: a callback runs to completion
    before the next one starts.  Asynchronous code is therefore modelled as
    a transition function over an explicit state, one transition per
    callback (a call, a timer firing, a network response, a settlement). *)

From Stdlib Require Import ZArith String List Bool Lia Ascii.
From stdpp Require Import base option list gmap strings pretty.

Open Scope string_scope.

Set Warnings "-register-all".

(** Outcome of a computation that may throw. *)
Inductive result (E A : Type) : Type :=
| Ok (a : A)
| Err (e : E).
Arguments Ok {E A} a.
Arguments Err {E A} e.

Definition bind {E A B} (r : result E A) (k : A -> result E B) : result E B :=
  match r with
  | Ok a => k a
  | Err e => Err e
  end.

Notation "'try' x <- r ; k" := (bind r (fun x => k))
  (at level 10, x name, r at level 100, k at level 200).

Definition isOk {E A} (r : result E A) : bool :=
  match r with Ok _ => true | Err _ => false end.

(** JavaScript truthiness of an optional string ([undefined] and [""] are
    falsy). *)
Definition truthyString (o : option string) : bool :=
  match o with
  | Some s => negb (String.eqb s "")
  | None => false
  end.

(** The double quote character, as a string. *)
Definition quote : string := String (ascii_of_nat 34) EmptyString.

(** A template literal prints [undefined] for a missing value. *)
Definition interpolate (o : option string) : string :=
  match o with
  | Some s => s
  | None => "undefined"
  end.

(* ===================================================================== *)
(** * OAuth token provider *)
(* ===================================================================== *)

Module OAuth.

Inductive TokenGrantAudienceType :=
| OPERATE | ZEEBE | OPTIMIZE | TASKLIST | CONSOLE | MODELER.

Definition audienceName (a : TokenGrantAudienceType) : string :=
  match a with
  | OPERATE => "OPERATE"
  | ZEEBE => "ZEEBE"
  | OPTIMIZE => "OPTIMIZE"
  | TASKLIST => "TASKLIST"
  | CONSOLE => "CONSOLE"
  | MODELER => "MODELER"
  end.

Definition audience_eqb (a b : TokenGrantAudienceType) : bool :=
  match a, b with
  | OPERATE, OPERATE | ZEEBE, ZEEBE | OPTIMIZE, OPTIMIZE
  | TASKLIST, TASKLIST | CONSOLE, CONSOLE | MODELER, MODELER => true
  | _, _ => false
  end.

Record Token := {
  access_token : string;
  expiry : Z;                           (* seconds since the Unix epoch *)
  audience : TokenGrantAudienceType
}.

(** The read-only fields the constructor fills from the configuration. *)
Record Configuration := {
  authServerUrl : string;
  clientId : option string;
  clientSecret : option string;
  consoleClientId : option string;
  consoleClientSecret : option string;
  scope : option string;
  audienceMap : TokenGrantAudienceType -> option string;
  camundaModelerOauthAudience : option string;
  isCamundaSaaS : bool;
  refreshWindow : Z
}.

Inductive error :=
| MissingConfiguration (key : string)
| TokenEndpointError (message : string)
| NoAccessToken
| InvalidToken (access_token : string)
| HttpError (message : string).

Definition message (e : error) : string :=
  match e with
  | MissingConfiguration key =>
      "Missing required configuration " +:+ key +:+
      ". Please supply this value as an environment variable or configuration object field."
  | TokenEndpointError m => "Failed to get token: " +:+ m
  | NoAccessToken => "Failed to get token: no access_token in response"
  | InvalidToken _ => "Invalid token specified"
  | HttpError m => m
  end.

Definition requireConfiguration (config : option string) (key : string)
  : result error string :=
  match config with
  | Some s => if String.eqb s "" then Err (MissingConfiguration key) else Ok s
  | None => Err (MissingConfiguration key)
  end.

(** [isTokenExpired]: [now] is the current time in milliseconds. *)
Definition isTokenExpired (now : Z) (token : Token) (refreshWindow : Z) : bool :=
  let tokenExpiryMs := (expiry token * 1000)%Z in
  (tokenExpiryMs - refreshWindow <=? now)%Z.

Definition getCacheKey (cfg : Configuration) (a : TokenGrantAudienceType) : string :=
  interpolate (clientId cfg) +:+ "-" +:+ audienceName a.

Definition getAudience (cfg : Configuration) (a : TokenGrantAudienceType)
  : option string := audienceMap cfg a.

(** [addAudienceIfNeeded]: the audience part of the request body. *)
Definition addAudienceIfNeeded (cfg : Configuration) (audienceType : TokenGrantAudienceType)
  : string :=
  if audience_eqb audienceType MODELER
     && negb (isCamundaSaaS cfg)
     && negb (truthyString (camundaModelerOauthAudience cfg))
  then ""
  else if audience_eqb audienceType MODELER && isCamundaSaaS cfg
  then "audience=api.cloud.camunda.io&"
  else "audience=" +:+ interpolate (getAudience cfg audienceType) +:+ "&".

(** [encodeURIComponent] and [jwtDecode] come from the platform and from the
    jwt-decode package.  [jwtDecode tok] is [None] when decoding throws and
    [Some exp] (the optional [exp] claim) otherwise. *)
Class Platform := {
  encodeURIComponent : string -> string;
  jwtDecode : string -> option (option Z)
}.

Section Provider.

Context `{Platform}.

(** The body [makeDebouncedTokenRequest] posts to the token endpoint. *)
Definition requestBody (cfg : Configuration) (audienceType : TokenGrantAudienceType)
    (clientIdToUse clientSecretToUse : string) : string :=
  let body :=
    addAudienceIfNeeded cfg audienceType +:+ "client_id=" +:+
    encodeURIComponent clientIdToUse +:+ "&client_secret=" +:+
    encodeURIComponent clientSecretToUse +:+ "&grant_type=client_credentials" in
  if truthyString (scope cfg)
  then body +:+ "&scope=" +:+ interpolate (scope cfg)
  else body.

(** The mutable fields of a provider instance.  [persistentCache] is the
    content of the durable store when one was passed to the constructor. *)
Record Provider := {
  tokenCache : gmap string Token;
  failed : bool;
  failureCount : nat;
  inflightTokenRequest : option nat;     (* the pending promise, by identity *)
  persistentCache : option (gmap string Token)
}.

(** What the arrow function passed to [setTimeout] captured. *)
Record Request := {
  promise : nat;
  audienceType : TokenGrantAudienceType;
  clientIdToUse : string;
  clientSecretToUse : string
}.

(** What a [getToken] call hands back to its caller: the promise it returns
    is already settled, or it is the shared in-flight promise. *)
Inductive Returned :=
| Resolved (token : string)
| Rejected (e : error)
| Awaiting (promise : nat).

(** The provider together with the part of the event loop it has work in:
    scheduled timers, POSTs awaiting a response, settled promises, and two
    logs (every POST body sent, every [getToken] return in call order). *)
Record World := {
  provider : Provider;
  timers : list (Request * Z);
  network : list Request;
  posted : list string;
  settled : gmap nat (result error string);
  returned : list Returned;
  nextPromise : nat
}.

Definition newProvider (store : option (gmap string Token)) : World :=
  {| provider := {| tokenCache := ∅; failed := false; failureCount := 0;
                    inflightTokenRequest := None; persistentCache := store |};
     timers := []; network := []; posted := []; settled := ∅;
     returned := []; nextPromise := 0 |}.

Definition backoffTokenEndpointFailure : Z := 1000.

Definition setProvider (w : World) (p : Provider) : World :=
  {| provider := p; timers := timers w; network := network w;
     posted := posted w; settled := settled w; returned := returned w;
     nextPromise := nextPromise w |}.

Definition giveBack (w : World) (r : Returned) : World :=
  {| provider := provider w; timers := timers w; network := network w;
     posted := posted w; settled := settled w;
     returned := returned w ++ [r]; nextPromise := nextPromise w |}.

(** The memory-cache part of [getToken]: [inl] is the early return of a valid
    token, [inr] the cache after evicting an expired one. *)
Definition checkMemoryCache (cfg : Configuration) (now : Z) (a : TokenGrantAudienceType)
    (cache : gmap string Token) : string + gmap string Token :=
  let key := getCacheKey cfg a in
  match cache !! key with
  | Some token =>
      if isTokenExpired now token (refreshWindow cfg)
      then inr (delete key cache)
      else inl (access_token token)
  | None => inr cache
  end.

(** The persistent-cache part of [getToken], keyed by the selected client. *)
Definition checkPersistentCache (cfg : Configuration) (now : Z) (a : TokenGrantAudienceType)
    (clientIdToUse : string) (store : option (gmap string Token))
  : string + option (gmap string Token) :=
  match store with
  | Some m =>
      let key := clientIdToUse +:+ "-" +:+ audienceName a in
      match m !! key with
      | Some cachedToken =>
          if isTokenExpired now cachedToken (refreshWindow cfg)
          then inr (Some (delete key m))
          else inl (access_token cachedToken)
      | None => inr (Some m)
      end
  | None => inr None
  end.

(** The credential pair [getToken] selects ([clientIdToUse],
    [clientSecretToUse]); either [requireConfiguration] may throw. *)
Definition selectCredentials (cfg : Configuration) (a : TokenGrantAudienceType)
  : result error (string * string) :=
  let requestingFromSaasConsole :=
    isCamundaSaaS cfg && (audience_eqb a CONSOLE || audience_eqb a MODELER) in
  try clientIdToUse <-
    (if requestingFromSaasConsole
     then requireConfiguration (consoleClientId cfg) "CAMUNDA_CONSOLE_CLIENT_ID"
     else requireConfiguration (clientId cfg) "ZEEBE_CLIENT_ID");
  try clientSecretToUse <-
    (if requestingFromSaasConsole
     then requireConfiguration (consoleClientSecret cfg) "CAMUNDA_CONSOLE_CLIENT_SECRET"
     else requireConfiguration (clientSecret cfg) "ZEEBE_CLIENT_SECRET");
  Ok (clientIdToUse, clientSecretToUse).

Definition getToken (cfg : Configuration) (w : World)
    (a : TokenGrantAudienceType) (now : Z) : World :=
  match selectCredentials cfg a with
  | Err e => giveBack w (Rejected e)
  | Ok (clientIdToUse, clientSecretToUse) =>
      let p := provider w in
      match checkMemoryCache cfg now a (tokenCache p) with
      | inl tok => giveBack w (Resolved tok)
      | inr cache =>
          match checkPersistentCache cfg now a clientIdToUse (persistentCache p) with
          | inl tok =>
              giveBack
                (setProvider w
                   {| tokenCache := cache; failed := failed p;
                      failureCount := failureCount p;
                      inflightTokenRequest := inflightTokenRequest p;
                      persistentCache := persistentCache p |})
                (Resolved tok)
          | inr store =>
              match inflightTokenRequest p with
              | Some pending =>
                  (* [inflightTokenRequest ||= ...] keeps the pending promise *)
                  giveBack
                    (setProvider w
                       {| tokenCache := cache; failed := failed p;
                          failureCount := failureCount p;
                          inflightTokenRequest := Some pending;
                          persistentCache := store |})
                    (Awaiting pending)
              | None =>
                  let fresh := nextPromise w in
                  let delay :=
                    if failed p
                    then (backoffTokenEndpointFailure * Z.of_nat (failureCount p))%Z
                    else 0%Z in
                  {| provider :=
                       {| tokenCache := cache; failed := failed p;
                          failureCount := failureCount p;
                          inflightTokenRequest := Some fresh;
                          persistentCache := store |};
                     timers := timers w ++
                       [({| promise := fresh; audienceType := a;
                            clientIdToUse := clientIdToUse;
                            clientSecretToUse := clientSecretToUse |}, delay)];
                     network := network w;
                     posted := posted w;
                     settled := settled w;
                     returned := returned w ++ [Awaiting fresh];
                     nextPromise := S fresh |}
              end
          end
      end
  end.

(** The [setTimeout] callback of promise [p] runs: the POST leaves. *)
Definition timerFires (cfg : Configuration) (w : World) (p : nat) : World :=
  match List.find (fun t => Nat.eqb (promise (fst t)) p) (timers w) with
  | None => w
  | Some (rq, _) =>
      {| provider := provider w;
         timers := List.filter (fun t => negb (Nat.eqb (promise (fst t)) p)) (timers w);
         network := network w ++ [rq];
         posted := posted w ++
           [requestBody cfg (audienceType rq) (clientIdToUse rq) (clientSecretToUse rq)];
         settled := settled w;
         returned := returned w;
         nextPromise := nextPromise w |}
  end.

(** What the token endpoint answers: the POST fails, or a JSON body arrives
    (a [TokenError], a token, or neither). *)
Record Body := {
  t_error : option string;
  t_error_description : option string;
  t_access_token : option string
}.

Inductive Response :=
| Fails (message : string)
| Json (t : Body).

(** The [then] chain of [makeDebouncedTokenRequest] on a response: the token
    string it resolves to and the caches it leaves, or the error it throws. *)
Definition receive (cfg : Configuration) (p : Provider) (rq : Request) (r : Response)
  : result error (string * Provider) :=
  match r with
  | Fails m => Err (HttpError m)
  | Json t =>
      if truthyString (t_error t)
      then Err (TokenEndpointError
                  (interpolate (t_error t) +:+ " - " +:+
                   interpolate (t_error_description t)))
      else
        match t_access_token t with
        | None => Err NoAccessToken
        | Some tok =>
            match jwtDecode tok with
            | None => Err (InvalidToken tok)
            | Some exp =>
                let token :=
                  {| access_token := tok;
                     expiry := default 0%Z exp;
                     audience := audienceType rq |} in
                Ok (tok,
                    {| tokenCache :=
                         <[getCacheKey cfg (audienceType rq) := token]> (tokenCache p);
                       failed := failed p;
                       failureCount := failureCount p;
                       inflightTokenRequest := inflightTokenRequest p;
                       persistentCache :=
                         (fun m => <[clientIdToUse rq +:+ "-" +:+
                                     audienceName (audienceType rq) := token]> m)
                           <$> persistentCache p |})
            end
        end
  end.

(** The response to the POST of promise [p] arrives: the chain above, then
    the [then]/[catch] pair inside [getToken] settles the shared promise. *)
Definition responds (cfg : Configuration) (w : World) (p : nat) (r : Response) : World :=
  match List.find (fun rq => Nat.eqb (promise rq) p) (network w) with
  | None => w
  | Some rq =>
      let rest := List.filter (fun rq => negb (Nat.eqb (promise rq) p)) (network w) in
      match receive cfg (provider w) rq r with
      | Ok (tok, q) =>
          {| provider :=
               {| tokenCache := tokenCache q; failed := false; failureCount := 0;
                  inflightTokenRequest := None;
                  persistentCache := persistentCache q |};
             timers := timers w; network := rest; posted := posted w;
             settled := <[p := Ok tok]> (settled w);
             returned := returned w; nextPromise := nextPromise w |}
      | Err e =>
          let q := provider w in
          {| provider :=
               {| tokenCache := tokenCache q; failed := true;
                  failureCount := S (failureCount q);
                  inflightTokenRequest := None;
                  persistentCache := persistentCache q |};
             timers := timers w; network := rest; posted := posted w;
             settled := <[p := Err e]> (settled w);
             returned := returned w; nextPromise := nextPromise w |}
      end
  end.

Inductive event :=
| Call (a : TokenGrantAudienceType) (now : Z)
| TimerFires (p : nat)
| Responds (p : nat) (r : Response).

Definition step (cfg : Configuration) (w : World) (e : event) : World :=
  match e with
  | Call a now => getToken cfg w a now
  | TimerFires p => timerFires cfg w p
  | Responds p r => responds cfg w p r
  end.

Definition run (cfg : Configuration) (w : World) (es : list event) : World :=
  fold_left (step cfg) es w.

(** Token requests under way: scheduled or posted, not yet answered. *)
Definition outstanding (w : World) : list Request :=
  map fst (timers w) ++ network w.

(** What the caller of a [getToken] call ends up with. *)
Definition outcome (w : World) (r : Returned) : option (result error string) :=
  match r with
  | Resolved tok => Some (Ok tok)
  | Rejected e => Some (Err e)
  | Awaiting p => settled w !! p
  end.

(** ** Vocabulary of the properties *)

(** A [getToken] call for [a] at [now] gets past credential selection and
    finds no valid token, neither in memory nor in the durable store: it
    goes on to the in-flight request. *)
Definition needsRequest (cfg : Configuration) (p : Provider)
    (a : TokenGrantAudienceType) (now : Z) : bool :=
  match selectCredentials cfg a with
  | Err _ => false
  | Ok (clientIdToUse, _) =>
      match checkMemoryCache cfg now a (tokenCache p),
            checkPersistentCache cfg now a clientIdToUse (persistentCache p) with
      | inr _, inr _ => true
      | _, _ => false
      end
  end.

(** The token endpoint answers with a usable token [tok]. *)
Definition grants (r : Response) (tok : string) : Prop :=
  exists t exp,
    r = Json t /\ truthyString (t_error t) = false /\
    t_access_token t = Some tok /\ jwtDecode tok = Some exp.

(** The caches of [q] are those of [p] with some entries evicted. *)
Definition evicted (p q : Provider) : Prop :=
  tokenCache q ⊆ tokenCache p /\
  match persistentCache p, persistentCache q with
  | Some m, Some m' => m' ⊆ m
  | None, None => True
  | _, _ => False
  end.

(** The event of a caller asking for audience [fst c] at time [snd c]. *)
Definition call (c : TokenGrantAudienceType * Z) : event := Call (fst c) (snd c).

(** What holds of the gate between two callbacks: no request under way and
    the gate open, or one request under way (scheduled or posted) and the
    gate holding its promise. *)
Definition gateInvariant (w : World) : Prop :=
  match inflightTokenRequest (provider w) with
  | None => timers w = [] /\ network w = []
  | Some p =>
      (exists rq delay, timers w = [(rq, delay)] /\ network w = [] /\ promise rq = p)
      \/ (exists rq, timers w = [] /\ network w = [rq] /\ promise rq = p)
  end.

End Provider.

(** The audience policy of the token request, case by case: the parameter is
    left out, or it is the fixed cloud audience, or the configured one. *)
Inductive audiencePolicy (cfg : Configuration) : TokenGrantAudienceType -> string -> Prop :=
| policy_omitted :
    isCamundaSaaS cfg = false ->
    truthyString (camundaModelerOauthAudience cfg) = false ->
    audiencePolicy cfg MODELER ""
| policy_cloud_modeler :
    isCamundaSaaS cfg = true ->
    audiencePolicy cfg MODELER "audience=api.cloud.camunda.io&"
| policy_configured a :
    a <> MODELER
    \/ (isCamundaSaaS cfg = false /\ truthyString (camundaModelerOauthAudience cfg) = true) ->
    audiencePolicy cfg a ("audience=" +:+ interpolate (audienceMap cfg a) +:+ "&").

(** ** Sample configurations *)

(** The audiences the environment supplies when none is configured
    (get-environment: the modeler audience has no default). *)
Definition defaultAudience (a : TokenGrantAudienceType) : option string :=
  match a with
  | OPERATE => Some "operate.camunda.io"
  | ZEEBE => Some "zeebe.camunda.io"
  | OPTIMIZE => Some "optimize.camunda.io"
  | TASKLIST => Some "tasklist.camunda.io"
  | CONSOLE => Some "api.cloud.camunda.io"
  | MODELER => None
  end.

Definition selfManaged : Configuration :=
  {| authServerUrl := "http://localhost:18080/auth/realms/camunda-platform/protocol/openid-connect/token";
     clientId := Some "zeebe"; clientSecret := Some "zecret";
     consoleClientId := None; consoleClientSecret := None;
     scope := None; audienceMap := defaultAudience;
     camundaModelerOauthAudience := None;
     isCamundaSaaS := false; refreshWindow := 1000 |}.

(** A cloud deployment configured with the application credentials only. *)
Definition cloud : Configuration :=
  {| authServerUrl := "https://login.cloud.camunda.io/oauth/token";
     clientId := Some "zeebe"; clientSecret := Some "zecret";
     consoleClientId := None; consoleClientSecret := None;
     scope := None; audienceMap := defaultAudience;
     camundaModelerOauthAudience := None;
     isCamundaSaaS := true; refreshWindow := 1000 |}.

(** A self-managed deployment whose configuration object overrides every
    audience with [undefined]. *)
Definition noAudiences : Configuration :=
  {| authServerUrl := authServerUrl selfManaged;
     clientId := Some "zeebe"; clientSecret := Some "zecret";
     consoleClientId := None; consoleClientSecret := None;
     scope := None; audienceMap := fun _ => None;
     camundaModelerOauthAudience := None;
     isCamundaSaaS := false; refreshWindow := 1000 |}.

(** A platform whose tokens all decode, with an expiry in the year 2100. *)
Definition samplePlatform : Platform :=
  {| encodeURIComponent := fun s => s;
     jwtDecode := fun _ => Some (Some 4102444800%Z) |}.

Definition zeebeRequest : Request :=
  {| promise := 0; audienceType := ZEEBE;
     clientIdToUse := "zeebe"; clientSecretToUse := "zecret" |}.

Definition sampleGrant (tok : string) : Response :=
  Json {| t_error := None; t_error_description := None; t_access_token := Some tok |}.

(** A durable store holding a token for the Zeebe audience, valid until the
    year 2100. *)
Definition warmStore : gmap string Token :=
  {[ "zeebe-ZEEBE" := {| access_token := "stored"; expiry := 4102444800%Z; audience := ZEEBE |} ]}.

End OAuth.

(* ===================================================================== *)
(** * Job worker *)
(* ===================================================================== *)

Module Worker.

Record Job := {
  jobKey : string;
  retries : Z
}.

(** A value a job handler (or [job.fail]) throws or rejects with. *)
Inductive thrown :=
| AnError (message : string)          (* an [Error] instance *)
| ATypeError (message : string)       (* raised by the runtime *)
| AString (s : string)
| Undefined                           (* [throw undefined], [Promise.reject()] *)
| Null.

(** [(error as Error).toString()]: a property read on [undefined] or [null]
    raises a [TypeError]. *)
Definition toString (error : thrown) : result thrown string :=
  match error with
  | AnError m => Ok (if String.eqb m "" then "Error" else "Error: " +:+ m)
  | ATypeError m => Ok (if String.eqb m "" then "TypeError" else "TypeError: " +:+ m)
  | AString s => Ok s
  | Undefined =>
      Err (ATypeError "Cannot read properties of undefined (reading 'toString')")
  | Null =>
      Err (ATypeError "Cannot read properties of null (reading 'toString')")
  end.

Record Config := {
  maxJobsToActivate : Z;
  worker : string
}.

(** The argument of [job.fail]. *)
Record FailRequest := {
  errorMessage : string;
  newRetries : Z
}.

Inductive Notification :=
| Start
| Poll (currentlyActiveJobCount maxJobsToActivate : Z) (worker : string)
| PollError (error : thrown).

(** Where a [handleJob] invocation is suspended: at [await jobHandler(...)]
    or at [await job.fail(...)]. *)
Inductive Await := AtHandler | AtFail.

(** The worker and the asynchronous work it has in progress:
    [polling] holds, per [activateJobs] call not yet answered, the
    [maxJobsToActivate] it asked for; [handling] the [handleJob] invocations
    not yet finished; [failed] the [job.fail] calls made; [finished] how each
    [handleJob] promise settled. *)
Record State := {
  currentlyActiveJobCount : Z;
  polling : list Z;
  handling : list (Job * Await);
  failed : list (Job * FailRequest);
  finished : list (Job * option thrown);
  emitted : list Notification
}.

Definition created : State :=
  {| currentlyActiveJobCount := 0; polling := []; handling := [];
     failed := []; finished := []; emitted := [] |}.

Definition emit (st : State) (n : Notification) : State :=
  {| currentlyActiveJobCount := currentlyActiveJobCount st;
     polling := polling st; handling := handling st; failed := failed st;
     finished := finished st; emitted := emitted st ++ [n] |}.

(** [poll]: the synchronous part, up to the [activateJobs] call. *)
Definition poll (cfg : Config) (st : State) : State :=
  let st := emit st (Poll (currentlyActiveJobCount st) (maxJobsToActivate cfg) (worker cfg)) in
  if (maxJobsToActivate cfg <=? currentlyActiveJobCount st)%Z
  then st
  else
    let remainingJobCapacity :=
      (maxJobsToActivate cfg - currentlyActiveJobCount st)%Z in
    {| currentlyActiveJobCount := currentlyActiveJobCount st;
       polling := polling st ++ [remainingJobCapacity];
       handling := handling st; failed := failed st;
       finished := finished st; emitted := emitted st |}.

Definition start (cfg : Config) (st : State) : State :=
  poll cfg (emit st Start).

(** The [then] callback of [poll]: the [i]-th pending activation resolves. *)
Definition activated (st : State) (i : nat) (jobs : list Job) : State :=
  match polling st !! i with
  | None => st
  | Some _ =>
      let count := Z.of_nat (length jobs) in
      {| currentlyActiveJobCount := (currentlyActiveJobCount st + count)%Z;
         polling := delete i (polling st);
         handling := handling st ++ map (fun job => (job, AtHandler)) jobs;
         failed := failed st; finished := finished st; emitted := emitted st |}
  end.

(** The [catch] callback of [poll]. *)
Definition activationFailed (st : State) (i : nat) (error : thrown) : State :=
  match polling st !! i with
  | None => st
  | Some _ =>
      emit
        {| currentlyActiveJobCount := currentlyActiveJobCount st;
           polling := delete i (polling st);
           handling := handling st; failed := failed st;
           finished := finished st; emitted := emitted st |}
        (PollError error)
  end.

(** The [finally] block of [handleJob], after which its promise settles with
    [how] ([None]: fulfilled). *)
Definition finally (st : State) (i : nat) (job : Job) (how : option thrown) : State :=
  {| currentlyActiveJobCount := (currentlyActiveJobCount st - 1)%Z;
     polling := polling st;
     handling := delete i (handling st);
     failed := failed st;
     finished := finished st ++ [(job, how)];
     emitted := emitted st |}.

(** The [catch] block of [handleJob] up to [await job.fail(...)]: the
    request it builds, unless building it throws. *)
Definition failRequest (job : Job) (error : thrown) : result thrown FailRequest :=
  try errorMessage <- toString error;
  Ok {| errorMessage := errorMessage; newRetries := (retries job - 1)%Z |}.

(** [handleJob] resumes from [await jobHandler(...)]: the handler's promise
    fulfilled ([None]) or the handler threw or rejected ([Some error]). *)
Definition handlerSettles (st : State) (i : nat) (how : option thrown) : State :=
  match handling st !! i with
  | Some (job, AtHandler) =>
      match how with
      | None => finally st i job None
      | Some error =>
          match failRequest job error with
          | Ok request =>
              {| currentlyActiveJobCount := currentlyActiveJobCount st;
                 polling := polling st;
                 handling := <[i := (job, AtFail)]> (handling st);
                 failed := failed st ++ [(job, request)];
                 finished := finished st; emitted := emitted st |}
          | Err raised => finally st i job (Some raised)
          end
      end
  | _ => st
  end.

(** [handleJob] resumes from [await job.fail(...)]. *)
Definition failSettles (st : State) (i : nat) (how : option thrown) : State :=
  match handling st !! i with
  | Some (job, AtFail) => finally st i job how
  | _ => st
  end.

Inductive event :=
| Tick
| Activated (i : nat) (jobs : list Job)
| ActivationFailed (i : nat) (error : thrown)
| HandlerSettles (i : nat) (how : option thrown)
| FailSettles (i : nat) (how : option thrown).

Definition step (cfg : Config) (st : State) (e : event) : State :=
  match e with
  | Tick => poll cfg st
  | Activated i jobs => activated st i jobs
  | ActivationFailed i error => activationFailed st i error
  | HandlerSettles i how => handlerSettles st i how
  | FailSettles i how => failSettles st i how
  end.

Definition run (cfg : Config) (st : State) (es : list event) : State :=
  fold_left (step cfg) es st.

(** The server never returns more jobs than an activation asked for. *)
Fixpoint serverHonoursRequests (cfg : Config) (st : State) (es : list event) : bool :=
  match es with
  | [] => true
  | e :: es' =>
      match e with
      | Activated i jobs =>
          match polling st !! i with
          | Some asked => (Z.of_nat (length jobs) <=? asked)%Z
          | None => true
          end
      | _ => true
      end && serverHonoursRequests cfg (step cfg st e) es'
  end.

(** No poll tick fires while an activation is still awaiting its answer. *)
Fixpoint pollsDoNotOverlap (cfg : Config) (st : State) (es : list event) : bool :=
  match es with
  | [] => true
  | e :: es' =>
      match e with
      | Tick => match polling st with [] => true | _ => false end
      | _ => true
      end && pollsDoNotOverlap cfg (step cfg st e) es'
  end.

(** ** Vocabulary of the properties *)

(** The counter is the number of [handleJob] invocations under way. *)
Definition counted (st : State) : Prop :=
  currentlyActiveJobCount st = Z.of_nat (length (handling st)).

(** With at most one activation awaiting its answer, the counter and what
    that activation asked for stay within the capacity. *)
Definition withinCapacity (cfg : Config) (st : State) : Prop :=
  match polling st with
  | [] => (currentlyActiveJobCount st <= maxJobsToActivate cfg)%Z
  | [asked] =>
      (0 < asked)%Z /\
      (currentlyActiveJobCount st + asked <= maxJobsToActivate cfg)%Z
  | _ => False
  end.

(** ** Sample run *)

Definition oneAtATime : Config := {| maxJobsToActivate := 1; worker := "test" |}.

Definition firstJob : Job := {| jobKey := "2251799813737371"; retries := 3 |}.
Definition secondJob : Job := {| jobKey := "2251799813737372"; retries := 3 |}.

(** Two poll ticks before the first activation answers, one job each. *)
Definition overlappingPolls : list event :=
  [Tick; Tick; Activated 0 [firstJob]; Activated 0 [secondJob]].

(** A job is activated and its handler rejects with no reason. *)
Definition rejectedWithoutReason : list event :=
  [Tick; Activated 0 [firstJob]; HandlerSettles 0 (Some Undefined)].

End Worker.

(* ===================================================================== *)
(** * Lossless JSON codec, decorator metadata, class factories *)
(* ===================================================================== *)

Module Codec.

(** ** Classes and decorator metadata (tc39-metadata-utils.ts) *)

(** A class is known by its identity: its position in the table of the
    classes defined so far. *)
Definition classRef := nat.

Definition INT64_STRING : string := "type:int64".
Definition INT64_STRING_ARRAY : string := "type:int64[]".
Definition INT64_BIGINT : string := "type:bigint".
Definition INT64_BIGINT_ARRAY : string := "type:bigint[]".
Definition CHILD_DTO : string := "child:class".

(** The [losslessJson] entry a decorator stores for a field. *)
Record MetadataField := {
  type : option string;
  class : option classRef
}.

(** [{ losslessJson: {} }.losslessJson] *)
Definition noMetadata : MetadataField := {| type := None; class := None |}.

(** A class: its name, the class it extends, and the entries its own
    decorators wrote into its [Symbol.metadata] object. *)
Record ClassDef := {
  name : string;
  extends : option classRef;
  metadata : list (string * MetadataField)
}.

(** The two metadata channels of the running program: the classes with their
    [Symbol.metadata] objects, and the store behind [Reflect.defineMetadata],
    one entry [(metadataKey, metadataValue, target, propertyKey)] per call. *)
Record Runtime := {
  classes : list ClassDef;
  reflected : list (string * classRef * classRef * string)
}.

Fixpoint assoc {A} (key : string) (l : list (string * A)) : option A :=
  match l with
  | [] => None
  | (k, a) :: rest => if String.eqb k key then Some a else assoc key rest
  end.

(** [obj[key] = a] on an ordered property list. *)
Fixpoint assign {A} (key : string) (a : A) (l : list (string * A)) : list (string * A) :=
  match l with
  | [] => [(key, a)]
  | (k, b) :: rest =>
      if String.eqb k key then (k, a) :: rest else (k, b) :: assign key a rest
  end.

(** [setMetadata(context, value)]: run by a field decorator while the class
    is being defined. *)
Definition setMetadata (field : string) (value : MetadataField) (c : ClassDef) : ClassDef :=
  {| name := name c; extends := extends c;
     metadata := assign field value (metadata c) |}.

Definition Int64String (field : string) : ClassDef -> ClassDef :=
  setMetadata field {| type := Some INT64_STRING; class := None |}.

Definition Int64StringArray (field : string) : ClassDef -> ClassDef :=
  setMetadata field {| type := Some INT64_STRING_ARRAY; class := None |}.

Definition BigIntValue (field : string) : ClassDef -> ClassDef :=
  setMetadata field {| type := Some INT64_BIGINT; class := None |}.

Definition BigIntValueArray (field : string) : ClassDef -> ClassDef :=
  setMetadata field {| type := Some INT64_BIGINT_ARRAY; class := None |}.

Definition ChildDto (childClass : classRef) (field : string) : ClassDef -> ClassDef :=
  setMetadata field {| type := Some CHILD_DTO; class := Some childClass |}.

(** [_target[Symbol.metadata][key]]: a class without the entry inherits the
    one of the class it extends. *)
Fixpoint inherited (fuel : nat) (rt : Runtime) (c : classRef) (key : string)
  : option MetadataField :=
  match fuel with
  | O => None
  | S fuel =>
      match classes rt !! c with
      | None => None
      | Some def =>
          match assoc key (metadata def) with
          | Some m => Some m
          | None =>
              match extends def with
              | Some parent => inherited fuel rt parent key
              | None => None
              end
          end
      end
  end.

(** [getMetadata(target, key)], [target] a class or an instance: it is
    given here by the class or by the instance's constructor, [None] for
    values built by [Object] or [Array], which carry no metadata. *)
Definition getMetadata (rt : Runtime) (target : option classRef) (key : string)
  : MetadataField :=
  match target with
  | Some c => default noMetadata (inherited (length (classes rt)) rt c key)
  | None => noMetadata
  end.

(** ** JSON text and JavaScript values *)

(** A JSON text, by its syntax tree; a number keeps its literal. *)
Inductive json :=
| JNull
| JBool (b : bool)
| JNumber (literal : string)
| JString (s : string)
| JArray (items : list json)
| JObject (members : list (string * json)).

(** JavaScript values.  A native number is written as JavaScript prints it;
    [VLossless] is an instance of lossless-json's [LosslessNumber]. *)
Inductive Value :=
| VUndefined
| VNull
| VBool (b : bool)
| VNumber (n : string)
| VBigInt (n : Z)
| VString (s : string)
| VLossless (literal : string)
| VDate (iso : string)
| VMap
| VSet
| VArray (items : list Value)
| VObject (constructor : option classRef) (fields : list (string * Value)).

Inductive error :=
| SyntaxError (what : string)
| TypeError (what : string)
| KeyNotFound (keyToParse : string) (envelope : option json)
| UnexpectedType (received directive field expected : string)
| CannotSafelyConvert (literal : string)
| UnsafeNumber (currentKey : string) (cause : error)
| Unsupported (kind : string) (advice : string)
| OutOfFuel.

Definition truthy (v : Value) : bool :=
  match v with
  | VUndefined | VNull => false
  | VBool b => b
  | VNumber n => negb (String.eqb n "0" || String.eqb n "NaN")
  | VBigInt n => negb (n =? 0)%Z
  | VString s => negb (String.eqb s "")
  | _ => true
  end.

Definition typeof (v : Value) : string :=
  match v with
  | VUndefined => "undefined"
  | VBool _ => "boolean"
  | VNumber _ => "number"
  | VBigInt _ => "bigint"
  | VString _ => "string"
  | _ => "object"
  end.

(** [typeof v === "object" && v !== null] *)
Definition isObject (v : Value) : bool :=
  match v with
  | VLossless _ | VDate _ | VMap | VSet | VArray _ | VObject _ _ => true
  | _ => false
  end.

Definition isArray (v : Value) : bool :=
  match v with VArray _ => true | _ => false end.

Definition isLosslessNumber (v : Value) : bool :=
  match v with VLossless _ => true | _ => false end.

(** The key of the [i]-th element of an array. *)
Definition index (i : nat) : string := pretty i.

Fixpoint indexedFrom {A} (i : nat) (l : list A) : list (string * A) :=
  match l with
  | [] => []
  | a :: rest => (index i, a) :: indexedFrom (S i) rest
  end.

Fixpoint characters (s : string) : list Value :=
  match s with
  | EmptyString => []
  | String c rest => VString (String c EmptyString) :: characters rest
  end.

(** [Object.entries(v)] *)
Definition entries (v : Value) : result error (list (string * Value)) :=
  match v with
  | VUndefined | VNull => Err (TypeError "Cannot convert undefined or null to object")
  | VObject _ fields => Ok fields
  | VArray items => Ok (indexedFrom 0 items)
  | VString s => Ok (indexedFrom 0 (characters s))
  | VLossless literal =>
      Ok [("value", VString literal); ("isLosslessNumber", VBool true)]
  | _ => Ok []
  end.

(** [v[key]] *)
Definition get (v : Value) (key : string) : result error Value :=
  try fields <- entries v;
  Ok (default VUndefined (assoc key fields)).

(** The constructor [getMetadata] finds on a value. *)
Definition constructorOf (v : Value) : option classRef :=
  match v with
  | VObject c _ => c
  | _ => None
  end.

(** *** lossless-json: [parse], [stringify], [LosslessNumber] *)

(** [parse]: every number becomes a [LosslessNumber] holding its literal. *)
Fixpoint parse (j : json) : Value :=
  match j with
  | JNull => VNull
  | JBool b => VBool b
  | JNumber literal => VLossless literal
  | JString s => VString s
  | JArray items => VArray (map parse items)
  | JObject members =>
      VObject None
        ((fix each (l : list (string * json)) : list (string * Value) :=
            match l with
            | [] => []
            | (k, m) :: rest => (k, parse m) :: each rest
            end) members)
  end.

(** [stringify]; [None] is [undefined].  An array prints [undefined] as
    [null], an object leaves the property out. *)
Fixpoint stringify (v : Value) : option json :=
  match v with
  | VUndefined => None
  | VNull => Some JNull
  | VBool b => Some (JBool b)
  | VNumber n =>
      if String.eqb n "NaN" || String.eqb n "Infinity" || String.eqb n "-Infinity"
      then Some JNull
      else Some (JNumber n)
  | VBigInt n => Some (JNumber (pretty n))
  | VString s => Some (JString s)
  | VLossless literal => Some (JNumber literal)
  | VDate iso => Some (JString iso)
  | VMap | VSet => Some (JObject [])
  | VArray items =>
      Some (JArray (map (fun item => default JNull (stringify item)) items))
  | VObject _ fields =>
      Some (JObject
        ((fix each (l : list (string * Value)) : list (string * json) :=
            match l with
            | [] => []
            | (k, f) :: rest =>
                match stringify f with
                | Some j => (k, j) :: each rest
                | None => each rest
                end
            end) fields))
  end.

Definition isDigit (c : ascii) : bool :=
  (48 <=? nat_of_ascii c)%nat && (nat_of_ascii c <=? 57)%nat.

Fixpoint skipDigits (s : string) : string :=
  match s with
  | String c rest => if isDigit c then skipDigits rest else s
  | EmptyString => s
  end.

(** One or more digits, then the rest. *)
Definition digits1 (s : string) : option string :=
  match s with
  | String c rest => if isDigit c then Some (skipDigits rest) else None
  | EmptyString => None
  end.

(** [isNumber]: the JSON number grammar: an optional minus sign; zero, or
    digits not starting with zero; an optional fraction (a dot and digits);
    an optional exponent ([e] or [E], an optional sign, digits). *)
Definition isNumber (s : string) : bool :=
  let unsigned := match s with String "-" rest => rest | _ => s end in
  let afterInteger :=
    match unsigned with
    | String "0" rest => Some rest
    | _ => digits1 unsigned
    end in
  let afterFraction :=
    match afterInteger with
    | Some (String "." rest) => digits1 rest
    | other => other
    end in
  let afterExponent :=
    match afterFraction with
    | Some (String c rest) =>
        if Ascii.eqb c "e" || Ascii.eqb c "E"
        then match rest with
             | String s' rest' =>
                 if Ascii.eqb s' "+" || Ascii.eqb s' "-"
                 then digits1 rest' else digits1 rest
             | EmptyString => None
             end
        else afterFraction
    | other => other
    end in
  match afterExponent with
  | Some EmptyString => true
  | _ => false
  end.

Fixpoint digitsValue (acc : Z) (s : string) : option Z :=
  match s with
  | EmptyString => Some acc
  | String c rest =>
      if isDigit c
      then digitsValue (10 * acc + Z.of_nat (nat_of_ascii c - 48))%Z rest
      else None
  end.

(** [BigInt(text)] on the text of a number: an integer literal or a
    [SyntaxError]. *)
Definition BigInt (s : string) : result error Z :=
  let parsed :=
    match s with
    | String "-" (String c rest) => Z.opp <$> digitsValue 0 (String c rest)
    | String _ _ => digitsValue 0 s
    | EmptyString => None
    end in
  match parsed with
  | Some n => Ok n
  | None => Err (SyntaxError ("Cannot convert " +:+ s +:+ " to a BigInt"))
  end.

(** [String(v)] for a primitive. *)
Definition toText (v : Value) : string :=
  match v with
  | VUndefined => "undefined"
  | VNull => "null"
  | VBool true => "true"
  | VBool false => "false"
  | VNumber n => n
  | VBigInt n => pretty n
  | VString s => s
  | VLossless literal => literal
  | VDate iso => iso
  | VMap => "[object Map]"
  | VSet => "[object Set]"
  | VArray _ => "[object Array]"
  | VObject _ _ => "[object Object]"
  end.

(** [new LosslessNumber(v)]: throws unless [v] reads as a number. *)
Definition newLosslessNumber (v : Value) : result error Value :=
  if isNumber (toText v)
  then Ok (VLossless (toText v))
  else Err (SyntaxError ("Invalid number (value: " +:+ quote +:+ toText v +:+ quote +:+ ")")).

(** [v.toString()]: a [TypeError] on [undefined] and [null]. *)
Definition toString (v : Value) : result error string :=
  match v with
  | VUndefined | VNull =>
      Err (TypeError "Cannot read properties of undefined (reading 'toString')")
  | _ => Ok (toText v)
  end.

(** What lossless-json decides about a number literal, and the number it
    then reads ([parseFloat], written as JavaScript prints it). *)
Class LosslessJson := {
  isSafeNumber : string -> bool;
  parseFloat : string -> string
}.

(** [array.map(f)] and [array.forEach(f)] for an [f] that may throw: the
    first exception ends the loop. *)
Definition each {A B} (f : A -> result error B) : list A -> result error (list B) :=
  fix go (l : list A) : result error (list B) :=
    match l with
    | [] => Ok []
    | a :: rest =>
        try b <- f a;
        try rest' <- go rest;
        Ok (b :: rest')
    end.

(** The same with the position of each element, counted from [i]. *)
Definition eachIndexed {A B} (f : nat -> A -> result error B)
  : nat -> list A -> result error (list B) :=
  fix go (i : nat) (l : list A) : result error (list B) :=
    match l with
    | [] => Ok []
    | a :: rest =>
        try b <- f i a;
        try rest' <- go (S i) rest;
        Ok (b :: rest')
    end.

Section Parser.

Context `{LosslessJson}.

(** lossless-json's [toSafeNumberOrThrow]. *)
Definition toSafeNumberOrThrow (literal : string) : result error Value :=
  if isSafeNumber literal
  then Ok (VNumber (parseFloat literal))
  else Err (CannotSafelyConvert literal).

(** The [catch] of [convertLosslessNumbersToNumberOrThrow]: whatever was
    thrown under [currentKey] is thrown again with the key in front. *)
Definition rethrow {A} (currentKey : string) (r : result error A) : result error A :=
  match r with
  | Ok a => Ok a
  | Err e => Err (UnsafeNumber currentKey e)
  end.

(** The body of the [forEach] over [Object.keys(obj)], for [obj[key] = v];
    [convert] is the function itself. *)
Definition convertProperty (convert : Value -> result error Value) (v : Value)
  : result error Value :=
  match v with
  | VArray items =>
      try items' <- each convert items;
      Ok (VArray items')
  | VLossless literal => toSafeNumberOrThrow literal
  | VDate _ | VMap | VSet | VObject _ _ => convert v
  | _ => Ok v
  end.

Fixpoint convertLosslessNumbersToNumberOrThrow (obj : Value) : result error Value :=
  if negb (truthy obj) then Ok obj else
  match obj with
  | VLossless literal => toSafeNumberOrThrow literal
  | VObject c fields =>
      try fields' <-
        each (fun property =>
                try v' <-
                  rethrow (fst property)
                    (convertProperty convertLosslessNumbersToNumberOrThrow (snd property));
                Ok (fst property, v'))
             fields;
      Ok (VObject c fields')
  | VArray items =>
      try items' <-
        eachIndexed (fun i v =>
                       rethrow (index i)
                         (convertProperty convertLosslessNumbersToNumberOrThrow v))
                    0%nat items;
      Ok (VArray items')
  | _ => Ok obj
  end.

(** [LosslessDto], the class every Dto extends, is the first class of every
    runtime. *)
Definition LosslessDto : classRef := 0%nat.

Definition hasType (m : MetadataField) (t : string) : bool :=
  match type m with
  | Some s => String.eqb s t
  | None => false
  end.

(** [value instanceof LosslessNumber ? "number" : typeof value] *)
Definition received (v : Value) : string :=
  if isLosslessNumber v then "number" else typeof v.

(** [losslessParse(stringify(v)!, dto)] *)
Definition reparse (losslessParse : json -> option classRef -> result error Value)
    (v : Value) (dto : option classRef) : result error Value :=
  match stringify v with
  | Some j => losslessParse j dto
  | None => Err (SyntaxError "undefined is not valid JSON")
  end.

(** One turn of the loop of [parseWithAnnotations] over
    [Object.entries(obj)]: the value assigned to [instance[key]], or [None]
    when the turn assigns nothing. *)
Definition parseField (losslessParse : json -> option classRef -> result error Value)
    (rt : Runtime) (dto : classRef) (key : string) (value : Value)
  : result error (option Value) :=
  let fieldMetadata := getMetadata rt (Some dto) key in
  let childClass :=
    if hasType fieldMetadata CHILD_DTO then class fieldMetadata else None in
  match childClass with
  | Some childClass =>
      match value with
      | VArray items =>
          try items' <- each (fun item => reparse losslessParse item (Some childClass)) items;
          Ok (Some (VArray items'))
      | _ =>
          try value' <- reparse losslessParse value (Some childClass);
          Ok (Some value')
      end
  | None =>
      if hasType fieldMetadata INT64_STRING_ARRAY then
        match value with
        | VArray items =>
            try items' <-
              each (fun item =>
                      if isLosslessNumber item
                      then Ok (VString (toText item))
                      else Err (UnexpectedType (typeof item) "Int64String" key "number"))
                   items;
            Ok (Some (VArray items'))
        | _ => Err (UnexpectedType (received value) "Int64StringArray" key "Array")
        end
      else if hasType fieldMetadata INT64_STRING then
        if truthy value then
          if isLosslessNumber value then Ok (Some (VString (toText value)))
          else if isArray value then
            Err (UnexpectedType "array" "Int64String" key
                   "number. If you are expecting an array, use the @Int64StringArray decorator.")
          else Err (UnexpectedType (received value) "Int64String" key "number")
        else Ok None
      else if hasType fieldMetadata INT64_BIGINT_ARRAY then
        match value with
        | VArray items =>
            try items' <-
              each (fun item =>
                      if isLosslessNumber item
                      then try n <- BigInt (toText item); Ok (VBigInt n)
                      else Err (UnexpectedType (typeof item) "BigIntValue in"
                                  (key +:+ "[]") "number"))
                   items;
            Ok (Some (VArray items'))
        | _ => Err (UnexpectedType (received value) "BigIntValueArray" key "Array")
        end
      else if hasType (getMetadata rt (Some dto) key) INT64_BIGINT then
        if truthy value then
          if isLosslessNumber value
          then try n <- BigInt (toText value); Ok (Some (VBigInt n))
          else if isArray value then
            Err (UnexpectedType "array" "BigIntValue" key
                   "number. If you are expecting an array, use the @BigIntValueArray decorator.")
          else Err (UnexpectedType (typeof value) "BigIntValue" key "number")
        else Ok None
      else Ok (Some value)
  end.

Definition parseWithAnnotations
    (losslessParse : json -> option classRef -> result error Value)
    (rt : Runtime) (obj : Value) (dto : classRef) : result error Value :=
  try properties <- entries obj;
  try fields <-
    (fix loop (instance : list (string * Value)) (l : list (string * Value))
       : result error (list (string * Value)) :=
       match l with
       | [] => Ok instance
       | (key, value) :: rest =>
           try assigned <- parseField losslessParse rt dto key value;
           match assigned with
           | Some v => loop (assign key v instance) rest
           | None => loop instance rest
           end
       end) [] properties;
  Ok (VObject (Some dto) fields).

Definition parseArrayWithAnnotations
    (losslessParse : json -> option classRef -> result error Value)
    (json : json) (dto : classRef) : result error Value :=
  match parse json with
  | VArray array =>
      try items <- each (fun item => reparse losslessParse item (Some dto)) array;
      Ok (VArray items)
  | _ => Err (TypeError "array.map is not a function")
  end.

(** [losslessParse(json, dto, keyToParse)].  The recursion goes through
    [stringify] and back, so it is bounded by [fuel], the nesting depth it
    may descend. *)
Fixpoint losslessParse (fuel : nat) (rt : Runtime) (json : json)
    (dto : option classRef) (keyToParse : option string) : result error Value :=
  match fuel with
  | O => Err OutOfFuel
  | S fuel =>
      let again := fun j d => losslessParse fuel rt j d None in
      let parsedLossless := parse json in
      if truthyString keyToParse then
        let keyToParse := interpolate keyToParse in
        try located <- get parsedLossless keyToParse;
        if truthy located
        then reparse again located dto
        else Err (KeyNotFound keyToParse (stringify parsedLossless))
      else if isArray parsedLossless then
        parseArrayWithAnnotations again json (default LosslessDto dto)
      else
        match dto with
        | None => convertLosslessNumbersToNumberOrThrow parsedLossless
        | Some dto =>
            try parsed <- parseWithAnnotations again rt parsedLossless dto;
            convertLosslessNumbersToNumberOrThrow parsed
        end
  end.

End Parser.

(** ** [losslessStringify] *)

(** The body of the [forEach] over [Object.keys(obj)] for [obj[key] = value];
    [recur] is [losslessStringify(_, false)]. *)
Definition stringifyProperty (recur : Value -> result error Value) (rt : Runtime)
    (obj : Value) (key : string) (value : Value) : result error Value :=
  let metadata := getMetadata rt (constructorOf obj) key in
  if isObject value then recur value
  else if hasType metadata INT64_STRING then newLosslessNumber value
  else if hasType metadata INT64_BIGINT then
    try text <- toString value;
    newLosslessNumber (VString text)
  else Ok value.

(** [losslessStringify(obj, false)]: the object [newObj] it builds. *)
Fixpoint newObj (rt : Runtime) (obj : Value) : result error Value :=
  match obj with
  | VDate _ =>
      Err (Unsupported "Date" "Please serialize with .toISOString() before passing to Camunda")
  | VMap =>
      Err (Unsupported "Map" "Please serialize with Object.fromEntries() before passing to Camunda")
  | VSet =>
      Err (Unsupported "Set" "Please serialize with Array.from() before passing to Camunda")
  | VArray items =>
      try items' <-
        eachIndexed (fun i v => stringifyProperty (newObj rt) rt obj (index i) v)
                    0%nat items;
      Ok (VArray items')
  | VObject _ fields =>
      try fields' <-
        each (fun property =>
                try v' <-
                  stringifyProperty (newObj rt) rt obj (fst property) (snd property);
                Ok (fst property, v'))
             fields;
      Ok (VObject None fields')
  | _ =>
      (* a primitive or a [LosslessNumber]: its own properties are primitives
         and no class decorates them *)
      try properties <- entries obj;
      Ok (VObject None properties)
  end.

(** [losslessStringify(obj)], with [isTopLevel] at its default. *)
Definition losslessStringify (rt : Runtime) (obj : Value) : result error json :=
  try o <- newObj rt obj;
  match stringify o with
  | Some j => Ok j
  | None => Err (TypeError "stringify returned undefined")
  end.

(** ** The classes of the SDK (dto/c8-dto.ts) *)

Definition declare (name : string) (extends : option classRef) : ClassDef :=
  {| name := name; extends := extends; metadata := [] |}.

(** The field decorators of a class body, applied in source order. *)
Definition decorated (c : ClassDef) (decorators : list (ClassDef -> ClassDef)) : ClassDef :=
  fold_left (fun c decorator => decorator c) decorators c.

Definition RestApiJob : classRef := 1%nat.
Definition CreateProcessInstanceResponse : classRef := 2%nat.

Definition RestApiJobClass : ClassDef :=
  decorated (declare "RestApiJob" (Some LosslessDto))
    [Int64String "key"; Int64String "processInstanceKey";
     Int64String "processDefinitionKey"; Int64String "elementInstanceKey";
     Int64String "deadline"].

Definition CreateProcessInstanceResponseClass : ClassDef :=
  decorated (declare "CreateProcessInstanceResponse" None)
    [Int64String "processDefinitionKey"; Int64String "processInstanceKey"].

(** The runtime once the SDK's modules are loaded. *)
Definition sdk : Runtime :=
  {| classes := [declare "LosslessDto" None; RestApiJobClass;
                 CreateProcessInstanceResponseClass];
     reflected := [] |}.

(** A class definition is evaluated: the new class and the runtime with it. *)
Definition define (rt : Runtime) (c : ClassDef) : classRef * Runtime :=
  (length (classes rt),
   {| classes := classes rt ++ [c]; reflected := reflected rt |}).

(** [Reflect.defineMetadata(metadataKey, metadataValue, target, propertyKey)] *)
Definition defineMetadata (rt : Runtime) (metadataKey : string)
    (metadataValue target : classRef) (propertyKey : string) : Runtime :=
  {| classes := classes rt;
     reflected := reflected rt ++ [(metadataKey, metadataValue, target, propertyKey)] |}.

(** ** The memoized class factories *)

(** A property of the object literal a cache key is made of: a class
    constructor, or a text. *)
Inductive part :=
| AClass (c : classRef)
| AText (s : string).

(** [JSON.stringify] on one property: a function is not serialised, so a
    property holding a class is left out. *)
Definition serializeProperty (p : string * part) : option string :=
  match snd p with
  | AClass _ => None
  | AText s => Some (quote +:+ fst p +:+ quote +:+ ":" +:+ quote +:+ s +:+ quote)
  end.

Definition JSON_stringify (properties : list (string * part)) : string :=
  "{" +:+ String.concat "," (omap serializeProperty properties) +:+ "}".

(** The running program: the runtime and the [cache] map each factory
    closes over. *)
Record Program := {
  runtime : Runtime;
  jobClasses : gmap string classRef;
  responseClasses : gmap string classRef
}.

Definition loaded (rt : Runtime) : Program :=
  {| runtime := rt; jobClasses := ∅; responseClasses := ∅ |}.

Definition createSpecializedRestApiJobClass (pg : Program)
    (inputVariableDto customHeadersDto : classRef) : classRef * Program :=
  let cacheKey :=
    JSON_stringify [("inputVariableDto", AClass inputVariableDto);
                    ("customHeadersDto", AClass customHeadersDto)] in
  match jobClasses pg !! cacheKey with
  | Some cachedValue => (cachedValue, pg)
  | None =>
      let (NewRestApiJobClass, rt) :=
        define (runtime pg) (declare "NewRestApiJobClass" (Some RestApiJob)) in
      let rt := defineMetadata rt "child:class" inputVariableDto NewRestApiJobClass "variables" in
      let rt := defineMetadata rt "child:class" customHeadersDto NewRestApiJobClass "customHeaders" in
      (NewRestApiJobClass,
       {| runtime := rt;
          jobClasses := <[cacheKey := NewRestApiJobClass]> (jobClasses pg);
          responseClasses := responseClasses pg |})
  end.

Definition createSpecializedCreateProcessInstanceResponseClass (pg : Program)
    (outputVariableDto : classRef) : classRef * Program :=
  let cacheKey := JSON_stringify [("outputVariableDto", AClass outputVariableDto)] in
  match responseClasses pg !! cacheKey with
  | Some cached => (cached, pg)
  | None =>
      let (CustomCreateProcessInstanceResponseClass, rt) :=
        define (runtime pg)
          (declare "CustomCreateProcessInstanceResponseClass"
             (Some CreateProcessInstanceResponse)) in
      let rt :=
        defineMetadata rt "child:class" outputVariableDto
          CustomCreateProcessInstanceResponseClass "variables" in
      (CustomCreateProcessInstanceResponseClass,
       {| runtime := rt;
          jobClasses := jobClasses pg;
          responseClasses :=
            <[cacheKey := CustomCreateProcessInstanceResponseClass]> (responseClasses pg) |})
  end.

(** ** Vocabulary of the properties *)

(** Induction over values, through arrays and objects. *)
Fixpoint Value_induction (P : Value -> Prop)
    (Hundefined : P VUndefined) (Hnull : P VNull)
    (Hbool : forall b, P (VBool b)) (Hnumber : forall n, P (VNumber n))
    (Hbigint : forall n, P (VBigInt n)) (Hstring : forall s, P (VString s))
    (Hlossless : forall literal, P (VLossless literal))
    (Hdate : forall iso, P (VDate iso)) (Hmap : P VMap) (Hset : P VSet)
    (Harray : forall items, Forall P items -> P (VArray items))
    (Hobject : forall c fields,
        Forall (fun property => P (snd property)) fields -> P (VObject c fields))
    (v : Value) : P v :=
  let recur :=
    Value_induction P Hundefined Hnull Hbool Hnumber Hbigint Hstring Hlossless
      Hdate Hmap Hset Harray Hobject in
  match v with
  | VUndefined => Hundefined
  | VNull => Hnull
  | VBool b => Hbool b
  | VNumber n => Hnumber n
  | VBigInt n => Hbigint n
  | VString s => Hstring s
  | VLossless literal => Hlossless literal
  | VDate iso => Hdate iso
  | VMap => Hmap
  | VSet => Hset
  | VArray items =>
      Harray items
        ((fix all (l : list Value) : Forall P l :=
            match l with
            | [] => @List.Forall_nil _ P
            | x :: rest => @List.Forall_cons _ P x rest (recur x) (all rest)
            end) items)
  | VObject c fields =>
      Hobject c fields
        ((fix all (l : list (string * Value))
            : Forall (fun property => P (snd property)) l :=
            match l with
            | [] => @List.Forall_nil _ (fun property => P (snd property))
            | property :: rest =>
                @List.Forall_cons _ (fun property => P (snd property)) property rest
                  (recur (snd property)) (all rest)
            end) fields)
  end.

(** [occurs v path literal]: a [LosslessNumber] holding [literal] sits in [v]
    at [path], the keys and array positions leading to it. *)
Inductive occurs : Value -> list string -> string -> Prop :=
| occurs_here literal : occurs (VLossless literal) [] literal
| occurs_field c fields key v path literal :
    In (key, v) fields -> occurs v path literal ->
    occurs (VObject c fields) (key :: path) literal
| occurs_item items i v path literal :
    items !! i = Some v -> occurs v path literal ->
    occurs (VArray items) (index i :: path) literal.

(** The keys an "unsafe number" error names, outermost first, and the
    literal it quotes. *)
Fixpoint keysOf (e : error) : list string :=
  match e with
  | UnsafeNumber currentKey cause => currentKey :: keysOf cause
  | _ => []
  end.

Fixpoint literalOf (e : error) : option string :=
  match e with
  | UnsafeNumber _ cause => literalOf cause
  | CannotSafelyConvert literal => Some literal
  | _ => None
  end.

(** No [LosslessNumber] is left anywhere in the value. *)
Fixpoint resolved (v : Value) : bool :=
  match v with
  | VLossless _ => false
  | VArray items => forallb resolved items
  | VObject _ fields => forallb (fun property => resolved (snd property)) fields
  | _ => true
  end.

Section Coercion.

Context `{LosslessJson}.

(** The value with every [LosslessNumber] replaced by the native number it
    reads as. *)
Fixpoint coerce (v : Value) : Value :=
  match v with
  | VLossless literal => VNumber (parseFloat literal)
  | VArray items => VArray (map coerce items)
  | VObject c fields =>
      VObject c (map (fun property => (fst property, coerce (snd property))) fields)
  | _ => v
  end.

(** Every number of [v] is safe; some number of [v] is not. *)
Definition allSafe (v : Value) : Prop :=
  forall path literal, occurs v path literal -> isSafeNumber literal = true.

Definition someUnsafe (v : Value) : Prop :=
  exists path literal, occurs v path literal /\ isSafeNumber literal = false.

(** An error that names a number that cannot be read safely: it quotes the
    literal of an unsafe [LosslessNumber] of [v] and names keys on the way
    to it, in order. *)
Definition namesUnsafeNumber (v : Value) (e : error) : Prop :=
  exists path literal,
    occurs v path literal /\ isSafeNumber literal = false /\
    literalOf e = Some literal /\ sublist (keysOf e) path.

End Coercion.

(** ** Sample data *)

Definition MAX_SAFE_INTEGER : Z := 9007199254740991.

(** lossless-json on canonical integer literals of at most 53 bits and on
    the 64-bit maximum: the first are read exactly, the second is not safe. *)
Definition integers : LosslessJson :=
  {| isSafeNumber := fun literal =>
       match BigInt literal with
       | Ok n => (Z.abs n <=? MAX_SAFE_INTEGER)%Z
       | Err _ => false
       end;
     parseFloat := fun literal =>
       match BigInt literal with
       | Ok n => pretty n
       | Err _ => literal
       end |}.

Definition max64 : string := "9223372036854775807".

(** The classes and the response of test/c8rest/parse-jobs.ts. *)
Definition Variables : ClassDef :=
  decorated (declare "Variables" (Some LosslessDto)) [Int64String "bigValue"].

Definition CustomHeaders : ClassDef :=
  decorated (declare "CustomHeaders" (Some LosslessDto)) [Int64String "bigHeader"].

Definition parseJobsTest : Program :=
  loaded (snd (define (snd (define sdk Variables)) CustomHeaders)).

Definition VariablesRef : classRef := 3%nat.
Definition CustomHeadersRef : classRef := 4%nat.

Definition jsonString : json :=
  JObject
    [("jobs",
      JArray
        [JObject
           [("key", JNumber "2251799813737371");
            ("type", JString "console-log-complete");
            ("processInstanceKey", JNumber "2251799813737366");
            ("bpmnProcessId", JString "hello-world-complete");
            ("processDefinitionVersion", JNumber "1");
            ("processDefinitionKey", JNumber "2251799813736299");
            ("elementId", JString "ServiceTask_0g6tf5f");
            ("elementInstanceKey", JNumber "2251799813737370");
            ("customHeaders",
             JObject [("message", JString "Hello World");
                      ("bigHeader", JNumber "1");
                      ("smallHeader", JNumber "2")]);
            ("worker", JString "test");
            ("retries", JNumber "100");
            ("deadline", JNumber "1725501895792");
            ("variables", JObject [("bigValue", JNumber "3")]);
            ("tenantId", JString "<default>")]])].

(** [response[0].variables.bigValue] and the like. *)
Definition at0 (response : result error Value) (field inner : string) : option Value :=
  match response with
  | Ok (VArray (VObject _ fields :: _)) =>
      match assoc field fields with
      | Some (VObject _ nested) => assoc inner nested
      | _ => None
      end
  | _ => None
  end.

(** The classes of the decorators' examples in lossless-json.ts, with one
    field per directive other than [Int64StringArray], and an instance. *)
Definition MyChildDto : ClassDef := declare "MyChildDto" (Some LosslessDto).

Definition MyChildDtoRef : classRef := 3%nat.
Definition MyDtoRef : classRef := 4%nat.

Definition MyDto : ClassDef :=
  decorated (declare "MyDto" (Some LosslessDto))
    [Int64String "int64NumberField"; BigIntValue "bigintField";
     BigIntValueArray "bigintArrayField"; ChildDto MyChildDtoRef "childDtoField";
     ChildDto MyChildDtoRef "childDtoArrayField"].

Definition examples : Runtime := snd (define (snd (define sdk MyChildDto)) MyDto).

Definition anInstance : Value :=
  VObject (Some MyDtoRef)
    [("int64NumberField", VString max64);
     ("bigintField", VBigInt 9223372036854775807);
     ("bigintArrayField", VArray [VBigInt 9223372036854775806; VBigInt (-5)]);
     ("childDtoField", VObject (Some MyChildDtoRef) [("someField", VString "a")]);
     ("childDtoArrayField",
      VArray [VObject (Some MyChildDtoRef) [("someField", VString "b")];
              VObject (Some MyChildDtoRef) [("someField", VString "c")]]);
     ("normalField", VString "text");
     ("normalNumberField", VNumber "42")].

(** The class of the [Int64StringArray] example in lossless-json.ts, and an
    instance of it. *)
Definition Dto : ClassDef :=
  decorated (declare "Dto" (Some LosslessDto)) [Int64StringArray "sendTo"].

Definition messaging : Runtime := snd (define sdk Dto).

Definition DtoRef : classRef := 3%nat.

Definition aMessage : Value :=
  VObject (Some DtoRef)
    [("message", VString "hello"); ("userId", VNumber "7");
     ("sendTo", VArray [VString "2251799813737371"; VString "2251799813737372"])].

End Codec.

(* ===================================================================== *)
(** * Job worker: start and stop *)
(* ===================================================================== *)

Module Lifecycle.
Import Worker.

(** How the promise of a [stop()] call settled. *)
Inductive Settlement :=
| Drained                               (* [resolve(null)] *)
| DrainFailed (message : string).       (* [reject(new Error(message))] *)

(** The worker with its timers.  [intervals] are the poll loops set by
    [start()] and not cleared; [draining] the [stop()] calls not yet settled,
    each with its deadline: its [timeout] and [wait] timers are both armed,
    and both are cleared when either settles the promise. *)
Record Machine := {
  state : State;
  intervals : list nat;
  loopHandle : option nat;
  nextHandle : nat;
  draining : list (nat * Z);
  stops : list (nat * Settlement);
  stopEmitted : nat;
  nextStop : nat
}.

Definition withState (m : Machine) (st : State) : Machine :=
  {| state := st; intervals := intervals m; loopHandle := loopHandle m;
     nextHandle := nextHandle m; draining := draining m; stops := stops m;
     stopEmitted := stopEmitted m; nextStop := nextStop m |}.

Definition start (cfg : Config) (m : Machine) : Machine :=
  let handle := nextHandle m in
  {| state := Worker.start cfg (state m);
     intervals := intervals m ++ [handle];
     loopHandle := Some handle;
     nextHandle := S handle;
     draining := draining m; stops := stops m;
     stopEmitted := stopEmitted m; nextStop := nextStop m |}.

(** [new CamundaJobWorker(config, restClient)] *)
Definition constructor (cfg : Config) (autoStart : option bool) : Machine :=
  let m :=
    {| state := created; intervals := []; loopHandle := None; nextHandle := 0;
       draining := []; stops := []; stopEmitted := 0; nextStop := 0 |} in
  if default true autoStart then start cfg m else m.

(** The callback of the poll interval [handle]. *)
Definition pollInterval (cfg : Config) (m : Machine) (handle : nat) : Machine :=
  if bool_decide (handle ∈ intervals m)
  then withState m (poll cfg (state m))
  else m.

Definition clearInterval (handle : option nat) (active : list nat) : list nat :=
  match handle with
  | Some h => List.filter (fun h' => negb (Nat.eqb h' h)) active
  | None => active
  end.

(** A [stop()] promise settles: its timers are gone. *)
Definition settle (m : Machine) (k : nat) (how : Settlement) : Machine :=
  {| state := state m; intervals := intervals m; loopHandle := loopHandle m;
     nextHandle := nextHandle m;
     draining := List.filter (fun d => negb (Nat.eqb (fst d) k)) (draining m);
     stops := stops m ++ [(k, how)];
     stopEmitted := match how with Drained => S (stopEmitted m) | _ => stopEmitted m end;
     nextStop := nextStop m |}.

Definition stop (m : Machine) (deadlineMs : Z) : Machine :=
  let k := nextStop m in
  let m :=
    {| state := state m;
       intervals := clearInterval (loopHandle m) (intervals m);
       loopHandle := loopHandle m; nextHandle := nextHandle m;
       draining := draining m; stops := stops m;
       stopEmitted := stopEmitted m; nextStop := S k |} in
  if (currentlyActiveJobCount (state m) =? 0)%Z
  then settle m k Drained
  else
    {| state := state m; intervals := intervals m; loopHandle := loopHandle m;
       nextHandle := nextHandle m;
       draining := draining m ++ [(k, deadlineMs)];
       stops := stops m; stopEmitted := stopEmitted m; nextStop := nextStop m |}.

Definition deadlineOf (m : Machine) (k : nat) : option Z :=
  snd <$> List.find (fun d => Nat.eqb (fst d) k) (draining m).

(** The callback of the [timeout] of stop call [k]. *)
Definition deadline (m : Machine) (k : nat) : Machine :=
  match deadlineOf m k with
  | Some deadlineMs =>
      settle m k (DrainFailed ("Failed to drain all jobs in " +:+ pretty deadlineMs +:+ "ms"))
  | None => m
  end.

(** The callback of the [wait] interval of stop call [k]. *)
Definition wait (m : Machine) (k : nat) : Machine :=
  match deadlineOf m k with
  | Some _ =>
      if (currentlyActiveJobCount (state m) =? 0)%Z then settle m k Drained else m
  | None => m
  end.

Inductive event :=
| Start
| PollInterval (handle : nat)
| Stop (deadlineMs : Z)
| Wait (k : nat)
| Deadline (k : nat)
| Settles (e : Worker.event).

(** [Settles e]: an activation is answered or a handler or [job.fail]
    settles; a poll happens only through [start] and the intervals. *)
Definition step (cfg : Config) (m : Machine) (e : event) : Machine :=
  match e with
  | Start => start cfg m
  | PollInterval handle => pollInterval cfg m handle
  | Stop deadlineMs => stop m deadlineMs
  | Wait k => wait m k
  | Deadline k => deadline m k
  | Settles Tick => m
  | Settles e => withState m (Worker.step cfg (state m) e)
  end.

Definition run (cfg : Config) (m : Machine) (es : list event) : Machine :=
  fold_left (step cfg) es m.

Definition isStart (e : event) : bool :=
  match e with Start => true | _ => false end.

Definition isStop (e : event) : bool :=
  match e with Stop _ => true | _ => false end.

(** The jobs the worker received from its activations, in order. *)
Fixpoint dispatched (cfg : Config) (st : State) (es : list Worker.event) : list Job :=
  match es with
  | [] => []
  | e :: es' =>
      match e with
      | Activated i jobs =>
          match polling st !! i with Some _ => jobs | None => [] end
      | _ => []
      end ++ dispatched cfg (Worker.step cfg st e) es'
  end.

Definition atFail (h : Job * Await) : bool :=
  match snd h with AtFail => true | AtHandler => false end.

(** The jobs whose [handleJob] invocation is suspended at [job.fail]. *)
Definition failing (st : State) : list Job :=
  map fst (List.filter atFail (handling st)).

(** ** Vocabulary of the properties *)

Local Open Scope list_scope.

(** The calls of [start()], the constructor's included, and of [stop()]. *)
Definition starts (autoStart : option bool) (es : list event) : nat :=
  (if default true autoStart then 1 else 0) + length (List.filter isStart es).

Definition stopCalls (es : list event) : nat := length (List.filter isStop es).

(** The handles in use are distinct and were all handed out. *)
Definition handlesFresh (m : Machine) : Prop :=
  NoDup (intervals m) /\ Forall (fun h => h < nextHandle m) (intervals m).

(** At most the loop [loopHandle] points at is running. *)
Definition oneLoop (m : Machine) : Prop :=
  intervals m = [] \/ exists h, intervals m = [h] /\ loopHandle m = Some h.

(** Without a poll loop and without an activation under way nothing polls
    any more and no job arrives. *)
Definition quiet (m : Machine) (notifications : list Notification) (load : Z) : Prop :=
  intervals m = [] /\ polling (state m) = [] /\
  emitted (state m) = notifications /\ (currentlyActiveJobCount (state m) <= load)%Z.

(** The [stop()] call resolved. *)
Definition isDrained (s : nat * Settlement) : bool :=
  match snd s with Drained => true | DrainFailed _ => false end.

(** Every [stop()] call made so far is pending or settled, never both and
    never twice, and [stop] was emitted once per resolved call. *)
Definition accounted (m : Machine) : Prop :=
  NoDup (map fst (draining m) ++ map fst (stops m)) /\
  (forall k, k < nextStop m <-> In k (map fst (draining m) ++ map fst (stops m))) /\
  stopEmitted m = length (List.filter isDrained (stops m)).

(** What a run keeps true: the jobs under way and the jobs done are the jobs
    received so far, and every [job.fail] call is for a job that is waiting
    for its answer or is done. *)
Definition conserved (st : State) (received : list Job) : Prop :=
  map fst (handling st) ++ map fst (finished st) ≡ₚ received /\
  map fst (failed st) ⊆+ failing st ++ map fst (finished st).

#[export] Instance Settlement_eq_dec : EqDecision Settlement.
Proof. solve_decision. Defined.

End Lifecycle.

(* ===================================================================== *)
(** * OAuth provider: construction, cache flushing *)
(* ===================================================================== *)

Module OAuthSetup.
Import OAuth.

(** The configuration [mergeConfigWithEnvironment] hands to the constructor:
    the environment, its defaults and the configuration object, merged. *)
Record Settings := {
  CAMUNDA_OAUTH_URL : option string;
  ZEEBE_CLIENT_ID : option string;
  ZEEBE_CLIENT_SECRET : option string;
  CAMUNDA_CONSOLE_CLIENT_ID : option string;
  CAMUNDA_CONSOLE_CLIENT_SECRET : option string;
  CAMUNDA_OAUTH_TOKEN_REFRESH_THRESHOLD_MS : Z;
  CAMUNDA_TOKEN_SCOPE : option string;
  CAMUNDA_OPERATE_OAUTH_AUDIENCE : option string;
  CAMUNDA_ZEEBE_OAUTH_AUDIENCE : option string;
  CAMUNDA_OPTIMIZE_OAUTH_AUDIENCE : option string;
  CAMUNDA_TASKLIST_OAUTH_AUDIENCE : option string;
  CAMUNDA_CONSOLE_OAUTH_AUDIENCE : option string;
  CAMUNDA_MODELER_OAUTH_AUDIENCE : option string
}.

(** [s.includes(sub)] *)
Fixpoint includes (s sub : string) : bool :=
  String.prefix sub s ||
  match s with
  | String _ rest => includes rest sub
  | EmptyString => false
  end.

(** What the constructor throws. *)
Inductive refusal :=
| Required (e : error)                   (* thrown by [requireConfiguration] *)
| Incomplete (message : string).         (* [new Error(message)] *)

(** The constructor of [OAuthProvider], up to the read-only fields. *)
Definition constructor (config : Settings) : result refusal Configuration :=
  match requireConfiguration (CAMUNDA_OAUTH_URL config) "CAMUNDA_OAUTH_URL" with
  | Err e => Err (Required e)
  | Ok authServerUrl =>
      let clientId := ZEEBE_CLIENT_ID config in
      let clientSecret := ZEEBE_CLIENT_SECRET config in
      let consoleClientId := CAMUNDA_CONSOLE_CLIENT_ID config in
      let consoleClientSecret := CAMUNDA_CONSOLE_CLIENT_SECRET config in
      if negb (truthyString clientId) && negb (truthyString consoleClientId) then
        Err (Incomplete "You need to supply a value for at at least one of ZEEBE_CLIENT_ID or CAMUNDA_CONSOLE_CLIENT_ID")
      else if negb (truthyString clientSecret) && negb (truthyString consoleClientSecret) then
        Err (Incomplete "You need to supply a value for at least one of ZEEBE_CLIENT_SECRET or CAMUNDA_CONSOLE_CLIENT_SECRET")
      else if negb ((truthyString clientId && truthyString clientSecret)
                    || (truthyString consoleClientId && truthyString consoleClientSecret)) then
        Err (Incomplete "You need to supply both a client ID and a client secret")
      else
        Ok {| authServerUrl := authServerUrl;
              clientId := clientId;
              clientSecret := clientSecret;
              consoleClientId := consoleClientId;
              consoleClientSecret := consoleClientSecret;
              scope := CAMUNDA_TOKEN_SCOPE config;
              audienceMap := fun a =>
                match a with
                | OPERATE => CAMUNDA_OPERATE_OAUTH_AUDIENCE config
                | ZEEBE => CAMUNDA_ZEEBE_OAUTH_AUDIENCE config
                | OPTIMIZE => CAMUNDA_OPTIMIZE_OAUTH_AUDIENCE config
                | TASKLIST => CAMUNDA_TASKLIST_OAUTH_AUDIENCE config
                | CONSOLE => CAMUNDA_CONSOLE_OAUTH_AUDIENCE config
                | MODELER => CAMUNDA_MODELER_OAUTH_AUDIENCE config
                end;
              camundaModelerOauthAudience := CAMUNDA_MODELER_OAUTH_AUDIENCE config;
              isCamundaSaaS := includes authServerUrl "https://login.cloud.camunda.io/oauth/token";
              refreshWindow := CAMUNDA_OAUTH_TOKEN_REFRESH_THRESHOLD_MS config |}
  end.

(** The application credentials, the Console credentials: both halves set. *)
Definition applicationPair (config : Settings) : bool :=
  truthyString (ZEEBE_CLIENT_ID config) && truthyString (ZEEBE_CLIENT_SECRET config).

Definition consolePair (config : Settings) : bool :=
  truthyString (CAMUNDA_CONSOLE_CLIENT_ID config) &&
  truthyString (CAMUNDA_CONSOLE_CLIENT_SECRET config).

(** A self-managed deployment configured with the Console credentials only. *)
Definition consoleOnly : Settings :=
  {| CAMUNDA_OAUTH_URL := Some "http://localhost:18080/auth/realms/camunda-platform/protocol/openid-connect/token";
     ZEEBE_CLIENT_ID := None; ZEEBE_CLIENT_SECRET := None;
     CAMUNDA_CONSOLE_CLIENT_ID := Some "console"; CAMUNDA_CONSOLE_CLIENT_SECRET := Some "secret";
     CAMUNDA_OAUTH_TOKEN_REFRESH_THRESHOLD_MS := 1000;
     CAMUNDA_TOKEN_SCOPE := None;
     CAMUNDA_OPERATE_OAUTH_AUDIENCE := Some "operate.camunda.io";
     CAMUNDA_ZEEBE_OAUTH_AUDIENCE := Some "zeebe.camunda.io";
     CAMUNDA_OPTIMIZE_OAUTH_AUDIENCE := Some "optimize.camunda.io";
     CAMUNDA_TASKLIST_OAUTH_AUDIENCE := Some "tasklist.camunda.io";
     CAMUNDA_CONSOLE_OAUTH_AUDIENCE := Some "api.cloud.camunda.io";
     CAMUNDA_MODELER_OAUTH_AUDIENCE := None |}.

End OAuthSetup.

Module OAuthTrace.
Import OAuth.

Section Trace.
Context `{Platform}.

(** The tokens the endpoint granted in the course of a run, each with the
    audience of the request it answered. *)
Fixpoint granted (cfg : Configuration) (w : World) (es : list event)
  : list (TokenGrantAudienceType * string) :=
  match es with
  | [] => []
  | e :: es' =>
      match e with
      | Responds p r =>
          match List.find (fun rq => Nat.eqb (promise rq) p) (network w) with
          | Some rq =>
              match receive cfg (provider w) rq r with
              | Ok (tok, _) => [(audienceType rq, tok)]
              | Err _ => []
              end
          | None => []
          end
      | _ => []
      end ++ granted cfg (step cfg w e) es'
  end.

(** [flushMemoryCache()] *)
Definition flushMemoryCache (p : Provider) : Provider :=
  {| tokenCache := ∅; failed := failed p; failureCount := failureCount p;
     inflightTokenRequest := inflightTokenRequest p;
     persistentCache := persistentCache p |}.

(** [flushFileCache()]: [flush] empties the durable store. *)
Definition flushFileCache (p : Provider) : Provider :=
  {| tokenCache := tokenCache p; failed := failed p; failureCount := failureCount p;
     inflightTokenRequest := inflightTokenRequest p;
     persistentCache := (fun _ => ∅) <$> persistentCache p |}.

(** The events of a provider whose caches are also flushed from outside. *)
Inductive action :=
| Does (e : event)
| FlushMemoryCache
| FlushFileCache.

Definition act (cfg : Configuration) (w : World) (a : action) : World :=
  match a with
  | Does e => step cfg w e
  | FlushMemoryCache => setProvider w (flushMemoryCache (provider w))
  | FlushFileCache => setProvider w (flushFileCache (provider w))
  end.

Definition perform (cfg : Configuration) (w : World) (actions : list action) : World :=
  fold_left (act cfg) actions w.

(** How many token requests failed in a row at the end of a run that
    started after [n] failures in a row. *)
Fixpoint failuresInARow (cfg : Configuration) (w : World) (es : list event) (n : nat) : nat :=
  match es with
  | [] => n
  | e :: es' =>
      failuresInARow cfg (step cfg w e) es'
        match e with
        | Responds p r =>
            match List.find (fun rq => Nat.eqb (promise rq) p) (network w) with
            | Some rq => if isOk (receive cfg (provider w) rq r) then 0 else S n
            | None => n
            end
        | _ => n
        end
  end.

End Trace.

(** A cache entry is a token the endpoint granted for the audience it is
    filed under, with the expiry its text decodes to. *)
Definition entryGranted `{Platform} (seen : list (TokenGrantAudienceType * string))
    (a : TokenGrantAudienceType) (t : Token) : Prop :=
  audience t = a /\ In (a, access_token t) seen /\
  exists exp, jwtDecode (access_token t) = Some exp /\ expiry t = default 0%Z exp.

Definition cachesGranted `{Platform} (cfg : Configuration) (p : Provider)
    (seen : list (TokenGrantAudienceType * string)) : Prop :=
  (forall key t, tokenCache p !! key = Some t ->
     exists a, key = getCacheKey cfg a /\ entryGranted seen a t) /\
  (forall m key t, persistentCache p = Some m -> m !! key = Some t ->
     exists a id, key = id +:+ "-" +:+ audienceName a /\ entryGranted seen a t).

Definition noDash (s : string) : bool :=
  forallb (fun c => negb (Ascii.eqb c "-")) (list_ascii_of_string s).

(** What a run keeps true of the failure bookkeeping after [n] failures in a
    row: the counter is [n], the flag is set exactly when [n] is not zero,
    and a request waiting for its timer waits [n] times the backoff. *)
Definition backedOff (w : World) (n : nat) : Prop :=
  failureCount (provider w) = n /\
  failed (provider w) = negb (Nat.eqb n 0) /\
  Forall (fun t => snd t = (backoffTokenEndpointFailure * Z.of_nat n)%Z) (timers w) /\
  gateInvariant w.

End OAuthTrace.

(* ===================================================================== *)
(** * Command line *)
(* ===================================================================== *)

Module Cli.

(** A parsed argument: [true] or a string. *)
Inductive ArgValue :=
| Flag
| Text (s : string).

(** [s.startsWith(prefix)] *)
Definition startsWith (s prefix : string) : bool := String.prefix prefix s.

(** [s.replace(pattern, replacement)], for a string pattern: the first
    occurrence is replaced. *)
Fixpoint replace (s pattern replacement : string) : string :=
  if String.prefix pattern s
  then replacement +:+
       String.substring (String.length pattern) (String.length s - String.length pattern) s
  else
    match s with
    | String c rest => String c (replace rest pattern replacement)
    | EmptyString => EmptyString
    end.

(** The properties every object inherits from [Object.prototype]. *)
Definition inheritedProperty (key : string) : bool :=
  existsb (String.eqb key)
    ["constructor"; "__defineGetter__"; "__defineSetter__"; "hasOwnProperty";
     "__lookupGetter__"; "__lookupSetter__"; "isPrototypeOf"; "propertyIsEnumerable";
     "toString"; "valueOf"; "__proto__"; "toLocaleString"].

Definition ParsedArguments := gmap string ArgValue.

(** [parsedArgs[key] = value]: assigning a string or a boolean to
    [__proto__] creates no property. *)
Definition set (key : string) (value : ArgValue) (parsedArgs : ParsedArguments)
  : ParsedArguments :=
  if String.eqb key "__proto__" then parsedArgs else <[key := value]> parsedArgs.

(** [key in args] *)
Definition has (key : string) (args : ParsedArguments) : bool :=
  bool_decide (is_Some (args !! key)) || inheritedProperty key.

(** The loop of [parseArguments], with [args] the arguments from the current
    position on: the position moves on by one, or by two where the loop body
    steps over the value it has just read. *)
Fixpoint scan (args : list string) (parsedArgs : ParsedArguments) : ParsedArguments :=
  match args with
  | [] => parsedArgs
  | arg :: rest =>
      if startsWith arg "--" then
        let key := replace arg "--" "" in
        match rest with
        | nextArg :: after =>
            if startsWith nextArg "--"
            then scan rest (set key Flag parsedArgs)
            else scan after (set key (Text nextArg) parsedArgs)
        | [] => scan rest (set key (Text "") parsedArgs)
        end
      else scan rest parsedArgs
  end.

(** [parseArguments()], on the arguments of the process; the module-level
    [parsedArgs] starts out empty.  The loop starts after the command. *)
Definition parseArguments (args : list string) : ParsedArguments :=
  scan (drop 1 args) ∅.

Record CliCommand := {
  description : string;
  usage : string;
  required : list string;
  optional : list string
}.

(** What [main.ts] ends in. *)
Inductive Outcome :=
| Usage                                           (* the command list, exit 0 *)
| Help (command : string)                         (* the command's help, exit 0 *)
| MissingArguments (command : string) (missing : list string)   (* exit 1 *)
| Run (command : string) (args : ParsedArguments).

Definition main (commands : list (string * CliCommand)) (args : list string) : Outcome :=
  let command := args !! 0%nat in
  let noCommand := negb (truthyString command) in
  let unknownCommand :=
    negb (existsb (fun known => bool_decide (Some (fst known) = command)) commands) in
  let helpCommand := bool_decide (command = Some "--help") in
  if noCommand || unknownCommand || helpCommand then Usage else
  match command ≫= (fun command => (fun c => (command, c)) <$> Codec.assoc command commands) with
  | None => Usage
  | Some (command, commandToRun) =>
      let firstArg := args !! 1%nat in
      let helpRequested := bool_decide (firstArg = Some "--help") in
      if helpRequested then Help command else
      let parsed := parseArguments args in
      let missingRequiredArgs :=
        List.filter (fun key => negb (has key parsed)) (required commandToRun) in
      if (0 <? length missingRequiredArgs)%nat
      then MissingArguments command missingRequiredArgs
      else Run command parsed
  end.

(** ** Vocabulary of the properties *)

(** What an option reads as, given the arguments that follow it. *)
Definition valueOf (following : list string) : ArgValue :=
  match following with
  | nextArg :: _ => if startsWith nextArg "--" then Flag else Text nextArg
  | [] => Text ""
  end.

(** The options of a command line, in order: every argument that starts
    with two dashes, with what it reads as. *)
Fixpoint options (args : list string) : list (string * ArgValue) :=
  match args with
  | [] => []
  | arg :: rest =>
      (if startsWith arg "--"
       then [(String.substring 2 (String.length arg - 2) arg, valueOf rest)]
       else [])
      ++ options rest
  end.

(** The option [key] is given on the command line. *)
Definition given (key : string) (args : list string) : bool :=
  existsb (fun option => String.eqb (fst option) key) (options (drop 1 args)).

(** The commands of [commands.ts]. *)
Definition commands : list (string * CliCommand) :=
  [("topology",
    {| description := "Get the Camunda 8 cluster topology";
       usage := "c8cli topology"; required := []; optional := [] |});
   ("license",
    {| description := "Get the Camunda 8 cluster license status";
       usage := "c8cli license"; required := []; optional := [] |});
   ("deploy-resource",
    {| description := "Deploy a resource (BPMN | DMN | Form) from a file to a Camunda 8 cluster";
       usage := "c8cli deploy-resource --file <filename> --tenantId <tenantId>";
       required := ["file"]; optional := ["tenantId"] |})].

End Cli.

(* ===================================================================== *)
(** * REST and Operate clients *)
(* ===================================================================== *)

Module Rest.
Import Codec.

(** The headers of a request.  A [Headers] object keeps one value per name
    and compares names without regard to case: names are in lower case
    here, as the clients write them. *)
Definition Headers := gmap string string.

(** [CamundaRestClient.getHeaders()], given the token the provider returned;
    the entries in the order [Object.entries] lists them. *)
Definition getHeaders (userAgentString token : string) : list (string * string) :=
  [("authorization", "Bearer " +:+ token); ("user-agent", userAgentString)].

(** The first [beforeRequest] hook of [CamundaRestClient]. *)
Definition beforeRequest (userAgentString token : string) (headers : Headers) : Headers :=
  let headers :=
    fold_left (fun (headers : Headers) entry =>
                 if bool_decide (is_Some (headers !! fst entry))
                 then headers
                 else <[fst entry := snd entry]> headers)
              (getHeaders userAgentString token) headers in
  match headers !! "content-type" with
  | Some contentType =>
      if String.prefix "multipart/form-data" contentType
      then headers
      else <["content-type" := "application/json"]> headers
  | None => <["content-type" := "application/json"]> headers
  end.

(** [OperateApiClient.getHeaders()] and its [beforeRequest] hook. *)
Definition operateHeaders (userAgentString token : string) : list (string * string) :=
  [("content-type", "application/json"); ("authorization", "Bearer " +:+ token);
   ("user-agent", userAgentString); ("accept", "*/*")].

Definition operateBeforeRequest (userAgentString token : string) (headers : Headers)
  : Headers :=
  fold_left (fun (headers : Headers) entry => <[fst entry := snd entry]> headers)
            (operateHeaders userAgentString token) headers.

(** The [authorization] entry the logging hook of [CamundaRestClient] hands
    to the logger: [None] when it logs none. *)
Definition safeAuthHeader (authHeader : option string) : option string :=
  match authHeader with
  | Some authHeader =>
      if String.eqb authHeader "" then None
      else Some (String.substring 0 15 authHeader +:+
                 (if (8 <? String.length authHeader)%nat then "..." else ""))
  | None => None
  end.

(** [createUserAgentString(config)] *)
Definition createUserAgentString (packageVersion : string)
    (CAMUNDA_CUSTOM_USER_AGENT_STRING : option string) : string :=
  let userAgent := "camunda8-sdk-nodejs/" +:+ packageVersion in
  if truthyString CAMUNDA_CUSTOM_USER_AGENT_STRING
  then userAgent +:+ " " +:+ interpolate CAMUNDA_CUSTOM_USER_AGENT_STRING
  else userAgent.

(** An optional string as a value: [undefined] when absent. *)
Definition ofOption (o : option string) : Value :=
  match o with
  | Some s => VString s
  | None => VUndefined
  end.

(** [request.tenantId ?? this.tenantId] *)
Definition tenantOf (tenantId : option string) (request : list (string * Value)) : Value :=
  match default VUndefined (assoc "tenantId" request) with
  | VUndefined | VNull => ofOption tenantId
  | given => given
  end.

(** [CamundaRestClient.addDefaultTenantId(request)], [request] by its
    properties. *)
Definition addDefaultTenantId (tenantId : option string) (request : list (string * Value))
  : list (string * Value) :=
  let tenantId := tenantOf tenantId request in
  assign "tenantId" tenantId request.

(** A query of the Operate API: its [filter], when it has one, and its
    other properties. *)
Record Query := {
  filter : option (list (string * Value));
  others : list (string * Value)
}.

(** [key in object], for an object literal or a parsed JSON object. *)
Definition hasProperty (key : string) (object : list (string * Value)) : bool :=
  bool_decide (is_Some (assoc key object)) || Cli.inheritedProperty key.

(** [OperateApiClient.addTenantIdToFilter(query, tenantId)], [tenantId]
    already defaulted to the client's. *)
Definition addTenantIdToFilter (query : Query) (tenantId : option string) : Query :=
  let hasTenantIdInFilter :=
    match filter query with
    | Some filter => hasProperty "tenantId" filter
    | None => false
    end in
  if hasTenantIdInFilter then query
  else
    {| filter := Some (assign "tenantId" (ofOption tenantId) (default [] (filter query)));
       others := others query |}.

End Rest.

(* ===================================================================== *)
(** * Codec: plain data, class instances, search results *)
(* ===================================================================== *)

Module CodecUse.
Import Codec.

(** A [Date], a [Map] or a [Set] sits somewhere in the value, under arrays
    and objects. *)
Inductive unsupported : Value -> Prop :=
| unsupported_date iso : unsupported (VDate iso)
| unsupported_map : unsupported VMap
| unsupported_set : unsupported VSet
| unsupported_item items item :
    In item items -> unsupported item -> unsupported (VArray items)
| unsupported_field c fields key v :
    In (key, v) fields -> unsupported v -> unsupported (VObject c fields).

(** Every class extends a class defined before it. *)
Definition wellFormed (rt : Runtime) : Prop :=
  forall c def parent,
    classes rt !! c = Some def -> extends def = Some parent -> (parent < c)%nat.

Section Operate.

Context `{LosslessJson}.

(** [parseSearchResults(json, dto)] of the Operate client, with the codec of
    this repository for the package it imports the codec from. *)
Definition parseSearchResults (fuel : nat) (rt : Runtime) (json : json) (dto : classRef)
  : result error Value :=
  try parsedResult <- losslessParse fuel rt json None None;
  try found <- get parsedResult "items";
  match found with
  | VArray items =>
      try items' <-
        each (fun item =>
                try text <- losslessStringify rt item;
                losslessParse fuel rt text (Some dto) None)
             items;
      try total <- get parsedResult "total";
      try sortValues <- get parsedResult "sortValues";
      Ok (VObject None
            [("items", VArray items'); ("sortValues", sortValues); ("total", total)])
  | _ => Err (TypeError "parsedResult.items.map is not a function")
  end.

End Operate.

(** A property name the codec carries as data: not the name of a property
    every object inherits, which [getMetadata] would find in place of a
    directive, and not [isLosslessNumber], by which lossless-json tells its
    numbers. *)
Definition carried (key : string) : bool :=
  negb (Cli.inheritedProperty key) && negb (String.eqb key "isLosslessNumber").

(** Data as JSON has it, with native numbers: no class instance, no
    [undefined], and every property name carried.  A number is written as
    JavaScript prints it, which lossless-json reads back as the same
    number. *)
Fixpoint plainData `{LosslessJson} (v : Value) : bool :=
  match v with
  | VNull | VBool _ | VString _ => true
  | VNumber n =>
      negb (String.eqb n "NaN" || String.eqb n "Infinity" || String.eqb n "-Infinity")
      && isSafeNumber n && String.eqb (parseFloat n) n
  | VArray items => forallb plainData items
  | VObject None fields =>
      forallb (fun property =>
                 carried (fst property) && plainData (snd property))
              fields
  | _ => false
  end.

(** An Operate search response with a key beyond 2^53. *)
Definition searchResponse : json :=
  JObject [("items", JArray [JObject [("key", JNumber max64)]]);
           ("total", JNumber "1")].

(** The members [parse] reads and the members [stringify] prints. *)
Definition parseMembers (members : list (string * json)) : list (string * Value) :=
  map (fun member => (fst member, parse (snd member))) members.

(** All characters are decimal digits. *)
Fixpoint allDigits (s : string) : bool :=
  match s with
  | EmptyString => true
  | String c rest => isDigit c && allDigits rest
  end.

(** The class a [ChildDto] directive names. *)
Definition childOf (m : MetadataField) : option classRef :=
  if hasType m CHILD_DTO then class m else None.

Section Instances.

Context `{LosslessJson}.

(** A field holds what its directive declares: under [ChildDto] an instance
    of the child class or an array of them; under [Int64String] a string
    that reads as a number; under [BigIntValue] a bigint; under
    [BigIntValueArray] an array of bigints; under [Int64StringArray] the
    empty array; without a directive plain data. *)
Definition holds (instance : classRef -> Value -> Prop) (m : MetadataField) (v : Value)
  : Prop :=
  match childOf m with
  | Some child =>
      instance child v \/ exists items, v = VArray items /\ Forall (instance child) items
  | None =>
      if hasType m INT64_STRING_ARRAY then v = VArray []
      else if hasType m INT64_STRING then exists s, v = VString s /\ isNumber s = true
      else if hasType m INT64_BIGINT_ARRAY then exists ns, v = VArray (map VBigInt ns)
      else if hasType m INT64_BIGINT then exists n, v = VBigInt n
      else plainData v = true
  end.

(** An instance of class [c], nested at most [depth] classes deep: an object
    built by [c], its properties named apart, each name carried and each
    value what the directive declares. *)
Fixpoint instanceOf (depth : nat) (rt : Runtime) (c : classRef) (v : Value) : Prop :=
  match depth with
  | O => False
  | S depth =>
      exists fields,
        v = VObject (Some c) fields /\ NoDup (map fst fields) /\
        Forall (fun property =>
                  carried (fst property) = true /\
                  holds (instanceOf depth rt) (getMetadata rt (Some c) (fst property))
                        (snd property))
               fields
  end.

(** What printing and reading back does to plain data. *)
Definition printed (rt : Runtime) (v : Value) : Prop :=
  exists text,
    stringify v = Some text /\ allSafe (parse text) /\ coerce (parse text) = v /\
    (isObject v = true -> newObj rt v = Ok v).

(** What printing a value and reading the text back with class [c] does:
    [v] is printed, and read back as [v']. *)
Definition reread (depth : nat) (rt : Runtime) (c : classRef) (v v' : Value) : Prop :=
  exists o text,
    newObj rt v = Ok o /\ stringify o = Some text /\ isArray (parse text) = false /\
    resolved v' = true /\
    forall fuel, (depth <= fuel)%nat -> losslessParse fuel rt text (Some c) None = Ok v'.

(** The same for one property, [key], of an object built by [target]: its
    value [v] is printed, and read back as the value [v'] of the property
    [key] of an instance of [c]. *)
Definition rereadField (depth : nat) (rt : Runtime) (target : option classRef)
    (c : classRef) (key : string) (v v' : Value) : Prop :=
  exists o text,
    (forall obj, constructorOf obj = target ->
       stringifyProperty (newObj rt) rt obj key v = Ok o) /\
    stringify o = Some text /\ resolved v' = true /\
    forall fuel, (depth <= fuel)%nat ->
      exists w,
        parseField (fun j d => losslessParse fuel rt j d None) rt c key (parse text)
          = Ok (Some w) /\
        allSafe w /\ coerce w = v'.

End Instances.

End CodecUse.

Module CodecWire.
Import Codec CodecUse.

(** The field carries no directive. *)
Definition undirected (m : MetadataField) : bool :=
  match childOf m with
  | Some _ => false
  | None =>
      negb (hasType m INT64_STRING_ARRAY || hasType m INT64_STRING
            || hasType m INT64_BIGINT_ARRAY || hasType m INT64_BIGINT)
  end.

Section Wire.

Context `{LosslessJson}.

(** A property as a response has it for class [dto], once read without a
    Dto: a number where the class declares [Int64String], plain data where
    it declares nothing. *)
Definition wireField (rt : Runtime) (dto : classRef) (property : string * Value) : bool :=
  let m := getMetadata rt (Some dto) (fst property) in
  carried (fst property) && plainData (snd property) &&
  (if hasType m INT64_STRING
   then match snd property with VNumber _ => true | _ => false end
   else undirected m).

Definition wire (rt : Runtime) (dto : classRef) (v : Value) : Prop :=
  exists fields,
    v = VObject None fields /\ NoDup (map fst fields) /\
    Forall (fun property => wireField rt dto property = true) fields.

(** The instance of [dto] it is read as: what [Int64String] marks is the
    text of the number, the rest is as it was. *)
Definition typedField (rt : Runtime) (dto : classRef) (property : string * Value)
  : string * Value :=
  (fst property,
   if hasType (getMetadata rt (Some dto) (fst property)) INT64_STRING
   then VString (toText (snd property))
   else snd property).

Definition typed (rt : Runtime) (dto : classRef) (v : Value) : Value :=
  match v with
  | VObject _ fields => VObject (Some dto) (map (typedField rt dto) fields)
  | _ => v
  end.

End Wire.

(** A search response, once read without a Dto. *)
Definition aSearchResponse : Value :=
  VObject None
    [("items",
      VArray [VObject None [("processInstanceKey", VNumber "2251799813685249");
                            ("processDefinitionVersion", VNumber "1");
                            ("bpmnProcessId", VString "hello-world")]]);
     ("total", VNumber "1")].

End CodecWire.

(* ===================================================================== *)
(** * REST client: deployments *)
(* ===================================================================== *)

Module Deploy.
Import Codec CodecUse CodecWire.
Local Open Scope list_scope.

(** The Dto classes of the deployments (dto/c8-dto.ts), defined after the
    classes of [sdk]. *)
Definition ProcessDeploymentClass : ClassDef :=
  decorated (declare "ProcessDeployment" (Some LosslessDto))
    [Int64String "processDefinitionKey"].

Definition DecisionDeploymentClass : ClassDef :=
  decorated (declare "DecisionDeployment" (Some LosslessDto))
    [Int64String "decisionKey"; Int64String "dmnDecisionRequirementsKey"].

Definition DecisionRequirementsDeploymentClass : ClassDef :=
  decorated (declare "DecisionRequirementsDeployment" (Some LosslessDto))
    [Int64String "dmnDecisionRequirementsKey"].

Definition FormDeploymentClass : ClassDef :=
  decorated (declare "FormDeployment" None) [Int64String "formKey"].

Definition ProcessDeployment : classRef := 3%nat.
Definition DecisionDeployment : classRef := 4%nat.
Definition DecisionRequirementsDeployment : classRef := 5%nat.
Definition FormDeployment : classRef := 6%nat.

Definition dtos : Runtime :=
  fold_left (fun rt c => snd (define rt c))
    [ProcessDeploymentClass; DecisionDeploymentClass;
     DecisionRequirementsDeploymentClass; FormDeploymentClass]
    sdk.

(** [String(v)] and [v.toString()] for a value read from a JSON text: an
    array prints its items with commas between, [null] as nothing; an
    object prints as [[object Object]], unless the text gave it a property
    [toString], which is no function. *)
Fixpoint String_ (v : Value) : result error string :=
  match v with
  | VArray items =>
      try texts <-
        (fix each (l : list Value) : result error (list string) :=
           match l with
           | [] => Ok []
           | item :: rest =>
               try text <-
                 match item with
                 | VUndefined | VNull => Ok ""
                 | _ => String_ item
                 end;
               try texts <- each rest;
               Ok (text :: texts)
           end) items;
      Ok (String.concat "," texts)
  | VObject _ fields =>
      match assoc "toString" fields with
      | Some _ => Err (TypeError "toString is not a function")
      | None => Ok "[object Object]"
      end
  | _ => Ok (toText v)
  end.

Definition toString (v : Value) : result error string :=
  match v with
  | VUndefined | VNull =>
      Err (TypeError "Cannot read properties of undefined (reading 'toString')")
  | _ => String_ v
  end.

(** [for (const deployment of v)]: what the loop runs over. *)
Definition iterate (v : Value) : result error (list Value) :=
  match v with
  | VArray items => Ok items
  | VString s => Ok (characters s)
  | _ => Err (TypeError "response.deployments is not iterable")
  end.

(** The response [deployResources] builds. *)
Record DeployResourceResponse := {
  deploymentKey : string;
  tenantId : Value;
  deployments : list Value;
  processDefinitions : list Value;
  decisions : list Value;
  decisionRequirements : list Value;
  forms : list Value
}.

(** [{ [kind]: value }] *)
Definition only (kind : string) (value : Value) : Value := VObject None [(kind, value)].

Section Client.

Context `{LosslessJson}.

(** [losslessParse(losslessStringify(v), dto)] *)
Definition reparsed (fuel : nat) (rt : Runtime) (v : Value) (dto : classRef)
  : result error Value :=
  try text <- losslessStringify rt v;
  losslessParse fuel rt text (Some dto) None.

(** The body of the loop over [response.deployments]. *)
Definition examine (fuel : nat) (rt : Runtime) (r : DeployResourceResponse)
    (deployment : Value) : result error DeployResourceResponse :=
  try processDefinition <- get deployment "processDefinition";
  try r <-
    (if truthy processDefinition then
       try processDeployment <- reparsed fuel rt processDefinition ProcessDeployment;
       Ok {| deploymentKey := deploymentKey r; tenantId := tenantId r;
             deployments := deployments r ++ [only "processDefinition" processDeployment];
             processDefinitions := processDefinitions r ++ [processDeployment];
             decisions := decisions r;
             decisionRequirements := decisionRequirements r;
             forms := forms r |}
     else Ok r);
  try decision <- get deployment "decision";
  try r <-
    (if truthy decision then
       try decisionDeployment <- reparsed fuel rt deployment DecisionDeployment;
       Ok {| deploymentKey := deploymentKey r; tenantId := tenantId r;
             deployments := deployments r ++ [only "decision" decisionDeployment];
             processDefinitions := processDefinitions r;
             decisions := decisions r ++ [decisionDeployment];
             decisionRequirements := decisionRequirements r;
             forms := forms r |}
     else Ok r);
  try requirements <- get deployment "decisionRequirements";
  try r <-
    (if truthy requirements then
       try decisionRequirementsDeployment <-
         reparsed fuel rt deployment DecisionRequirementsDeployment;
       Ok {| deploymentKey := deploymentKey r; tenantId := tenantId r;
             deployments :=
               deployments r ++ [only "decisionRequirements" decisionRequirementsDeployment];
             processDefinitions := processDefinitions r;
             decisions := decisions r;
             decisionRequirements :=
               decisionRequirements r ++ [decisionRequirementsDeployment];
             forms := forms r |}
     else Ok r);
  try form <- get deployment "form";
  if truthy form then
    try formDeployment <- reparsed fuel rt deployment FormDeployment;
    Ok {| deploymentKey := deploymentKey r; tenantId := tenantId r;
          deployments := deployments r ++ [only "form" formDeployment];
          processDefinitions := processDefinitions r;
          decisions := decisions r;
          decisionRequirements := decisionRequirements r;
          forms := forms r ++ [formDeployment] |}
  else Ok r.

(** [deployResources], from the text of the server's response on: the
    response is read without a Dto, then each deployment is read again with
    the Dto of its kind. *)
Definition deployResources (fuel : nat) (rt : Runtime) (text : json)
  : result error DeployResourceResponse :=
  try response <- losslessParse fuel rt text None None;
  try key <- get response "deploymentKey";
  try deploymentKey <- toString key;
  try tenantId <- get response "tenantId";
  try found <- get response "deployments";
  try listed <- iterate found;
  (fix loop (r : DeployResourceResponse) (l : list Value)
     : result error DeployResourceResponse :=
     match l with
     | [] => Ok r
     | deployment :: rest =>
         try r <- examine fuel rt r deployment;
         loop r rest
     end)
    {| deploymentKey := deploymentKey; tenantId := tenantId;
       deployments := []; processDefinitions := []; decisions := [];
       decisionRequirements := []; forms := [] |}
    listed.

End Client.

(** ** Vocabulary of the properties *)

Inductive Kind := Process | Decision | Requirements | Form.

(** The property a deployment of the kind is listed under. *)
Definition nameOf (kind : Kind) : string :=
  match kind with
  | Process => "processDefinition"
  | Decision => "decision"
  | Requirements => "decisionRequirements"
  | Form => "form"
  end.

Definition classOf (kind : Kind) : classRef :=
  match kind with
  | Process => ProcessDeployment
  | Decision => DecisionDeployment
  | Requirements => DecisionRequirementsDeployment
  | Form => FormDeployment
  end.

(** A deployment as the server lists it: [{ [kind]: body }]. *)
Definition listed (deployment : Kind * Value) : Value :=
  only (nameOf (fst deployment)) (snd deployment).

(** What [deployResources] makes of it: a process definition is its body
    read with [ProcessDeployment]; a deployment of another kind is the
    listed object itself, [{ [kind]: body }], read with the class of the
    kind, which declares nothing for the property [kind]. *)
Definition made (deployment : Kind * Value) : Value :=
  match fst deployment with
  | Process => typed dtos ProcessDeployment (snd deployment)
  | kind => VObject (Some (classOf kind)) [(nameOf kind, snd deployment)]
  end.

Definition isKind (kind : Kind) (deployment : Kind * Value) : bool :=
  match kind, fst deployment with
  | Process, Process | Decision, Decision | Requirements, Requirements | Form, Form => true
  | _, _ => false
  end.

Definition ofKind (kind : Kind) (l : list (Kind * Value)) : list Value :=
  map made (List.filter (isKind kind) l).

(** The body of a listed deployment: a plain object, and for a process
    definition one with a number wherever [ProcessDeployment] declares
    [Int64String]. *)
Definition body `{LosslessJson} (deployment : Kind * Value) : Prop :=
  plainData (snd deployment) = true /\
  (exists fields, snd deployment = VObject None fields) /\
  (fst deployment = Process -> wire dtos ProcessDeployment (snd deployment)).

(** A response to a deployment of one process and one decision. *)
Definition aDeployment : list (string * Value) :=
  [("deploymentKey", VNumber "2251799813685249");
   ("tenantId", VString "<default>");
   ("deployments",
    VArray
      [VObject None
         [("processDefinition",
           VObject None
             [("processDefinitionId", VString "hello-world");
              ("processDefinitionVersion", VNumber "1");
              ("processDefinitionKey", VNumber "2251799813685250")])];
       VObject None
         [("decision",
           VObject None
             [("dmnDecisionId", VString "approve");
              ("decisionKey", VNumber "2251799813685251")])]])].

End Deploy.

(* ===================================================================== *)
(** * Properties *)
(* ===================================================================== *)

Module OAuthFacts.
Import OAuth.
Local Open Scope list_scope.

Lemma audience_eqb_eq a b : audience_eqb a b = true <-> a = b.
Proof. destruct a, b; simpl; split; congruence. Qed.

Lemma audience_eqb_neq a b : audience_eqb a b = false <-> a <> b.
Proof. destruct a, b; simpl; split; congruence. Qed.

Lemma audienceName_inj a b : audienceName a = audienceName b -> a = b.
Proof. destruct a, b; simpl; intros E; try reflexivity; discriminate E. Qed.

Lemma getCacheKey_inj cfg a b : getCacheKey cfg a = getCacheKey cfg b -> a = b.
Proof.
  unfold getCacheKey. intros E.
  apply audienceName_inj.
  apply (String.app_inj (interpolate (clientId cfg))) in E.
  apply (String.app_inj "-") in E. exact E.
Qed.

Section Gate.

Context `{Platform}.

Lemma policy_of_addAudienceIfNeeded cfg a :
  audiencePolicy cfg a (addAudienceIfNeeded cfg a).
Proof.
  unfold addAudienceIfNeeded.
  destruct (audience_eqb a MODELER) eqn:Ea; simpl.
  - apply audience_eqb_eq in Ea. subst a.
    destruct (isCamundaSaaS cfg) eqn:Es; simpl.
    + now apply policy_cloud_modeler.
    + destruct (truthyString (camundaModelerOauthAudience cfg)) eqn:Et; simpl.
      * apply policy_configured. right. now split.
      * now apply policy_omitted.
  - apply audience_eqb_neq in Ea. apply policy_configured. now left.
Qed.

Lemma audiencePolicy_functional cfg a s :
  audiencePolicy cfg a s -> s = addAudienceIfNeeded cfg a.
Proof.
  unfold addAudienceIfNeeded.
  intros P. destruct P as [Es Et | Es | a [Ne | [Es Et]]]; simpl.
  - now rewrite Es, Et.
  - now rewrite Es.
  - apply audience_eqb_neq in Ne. now rewrite Ne.
  - rewrite Es, Et. simpl. rewrite andb_false_r. now destruct (audience_eqb a MODELER).
Qed.

Lemma append_assoc (a b c : string) : (a +:+ b) +:+ c = a +:+ b +:+ c.
Proof.
  induction a as [ | x a IH]; [ reflexivity | ].
  change (String x ((a +:+ b) +:+ c) = String x (a +:+ b +:+ c)). now f_equal.
Qed.

(** C9 (as amended).  The audience part of the token request follows the
    three-case policy [audiencePolicy], and nothing else: it is left out
    exactly for a Modeler audience on a self-managed deployment with no
    Modeler audience configured; it is the fixed [api.cloud.camunda.io] for a
    Modeler audience on the cloud deployment; in every other case, the
    Console audience included, it is the string configured for the audience.
    The request body starts with that part, followed by [client_id]. *)
Theorem audience_parameter_policy cfg a id secret :
  audiencePolicy cfg a (addAudienceIfNeeded cfg a) /\
  (forall s, audiencePolicy cfg a s -> s = addAudienceIfNeeded cfg a) /\
  exists rest,
    requestBody cfg a id secret = addAudienceIfNeeded cfg a +:+ "client_id=" +:+ rest.
Proof.
  split; [ apply policy_of_addAudienceIfNeeded | ].
  split; [ apply audiencePolicy_functional | ].
  unfold requestBody. cbv zeta. destruct (truthyString (scope cfg)).
  - exists (encodeURIComponent id +:+ "&client_secret=" +:+
            encodeURIComponent secret +:+ "&grant_type=client_credentials" +:+
            "&scope=" +:+ interpolate (scope cfg)).
    now rewrite !append_assoc.
  - now eexists.
Qed.

Lemma outstanding_of_gate w :
  gateInvariant w -> (length (outstanding w) <= 1)%nat.
Proof.
  unfold gateInvariant, outstanding.
  destruct (inflightTokenRequest (provider w)).
  - intros [(rq & d & -> & -> & _) | (rq & -> & -> & _)]; simpl; lia.
  - intros [-> ->]. simpl. lia.
Qed.

Lemma gate_newProvider store : gateInvariant (newProvider store).
Proof. unfold gateInvariant. simpl. now split. Qed.

Lemma gate_giveBack w r : gateInvariant w -> gateInvariant (giveBack w r).
Proof. unfold gateInvariant. now destruct w. Qed.

Lemma gate_getToken cfg w a now : gateInvariant w -> gateInvariant (getToken cfg w a now).
Proof.
  intros G. unfold getToken.
  destruct (selectCredentials cfg a) as [[cid sec] | e]; [ | now apply gate_giveBack ].
  destruct (checkMemoryCache cfg now a (tokenCache (provider w))) as [tok | cache];
    [ now apply gate_giveBack | ].
  destruct (checkPersistentCache cfg now a cid (persistentCache (provider w)))
    as [tok | store'].
  - unfold gateInvariant in *. simpl. exact G.
  - unfold gateInvariant in *.
    destruct (inflightTokenRequest (provider w)) as [pending | ]; simpl.
    + exact G.
    + destruct G as [-> ->]. left. eexists _, _. now repeat split.
Qed.

Lemma gate_timerFires cfg w p : gateInvariant w -> gateInvariant (timerFires cfg w p).
Proof.
  intros G. unfold timerFires.
  destruct (List.find _ (timers w)) as [[rq d] | ] eqn:F; [ | exact G ].
  unfold gateInvariant in *. simpl.
  destruct (inflightTokenRequest (provider w)) as [pending | ].
  - destruct G as [(rq0 & d0 & Et & En & Ep) | (rq0 & Et & En & Ep)].
    + rewrite Et in F |- *. simpl in F |- *.
      destruct (Nat.eqb (promise rq0) p) eqn:E; [ | discriminate F ].
      injection F as <- <-. simpl. rewrite En. right. now exists rq0.
    + rewrite Et in F. discriminate F.
  - destruct G as [Et En]. rewrite Et in F. discriminate F.
Qed.

Lemma gate_responds cfg w p r : gateInvariant w -> gateInvariant (responds cfg w p r).
Proof.
  intros G. unfold responds.
  destruct (List.find _ (network w)) as [rq | ] eqn:F; [ | exact G ].
  assert (Hrest : timers w = [] /\
                  List.filter (fun rq => negb (Nat.eqb (promise rq) p)) (network w) = []).
  { unfold gateInvariant in G.
    destruct (inflightTokenRequest (provider w)) as [pending | ].
    - destruct G as [(rq0 & d0 & Et & En & Ep) | (rq0 & Et & En & Ep)].
      + rewrite En in F. discriminate F.
      + rewrite En in F |- *. simpl in F |- *.
        destruct (Nat.eqb (promise rq0) p); [ now split | discriminate F ].
    - destruct G as [Et En]. rewrite En in F. discriminate F. }
  destruct Hrest as [Et Er].
  destruct (receive cfg (provider w) rq r) as [[tok q] | e];
    unfold gateInvariant; simpl; now rewrite Er.
Qed.

Lemma gate_step cfg w e : gateInvariant w -> gateInvariant (step cfg w e).
Proof.
  destruct e; simpl;
    [ apply gate_getToken | apply gate_timerFires | apply gate_responds ].
Qed.

Lemma gate_run cfg es : forall w, gateInvariant w -> gateInvariant (run cfg w es).
Proof.
  unfold run. induction es as [ | e es IH]; intros w G; simpl; [ exact G | ].
  apply IH. now apply gate_step.
Qed.

Lemma evicted_refl p : evicted p p.
Proof. unfold evicted. split; [ done | ]. now destruct (persistentCache p). Qed.

Lemma evicted_trans p q r : evicted p q -> evicted q r -> evicted p r.
Proof.
  unfold evicted. intros [M1 P1] [M2 P2]. split; [ now transitivity (tokenCache q) | ].
  destruct (persistentCache p), (persistentCache q), (persistentCache r);
    try done. now transitivity g0.
Qed.

Lemma checkMemoryCache_miss cfg now a (m c : gmap string Token) :
  checkMemoryCache cfg now a m = inr c ->
  c ⊆ m /\ c !! getCacheKey cfg a = None.
Proof.
  unfold checkMemoryCache.
  destruct (m !! getCacheKey cfg a) as [t | ] eqn:L.
  - destruct (isTokenExpired now t (refreshWindow cfg)); [ | discriminate ].
    intros [= <-]. split; [ apply delete_subseteq | apply lookup_delete_eq ].
  - intros [= <-]. now split.
Qed.

Lemma checkMemoryCache_weaken cfg now a (m m' c : gmap string Token) :
  checkMemoryCache cfg now a m = inr c -> m' ⊆ m ->
  exists c', checkMemoryCache cfg now a m' = inr c'.
Proof.
  unfold checkMemoryCache. intros E S.
  destruct (m' !! getCacheKey cfg a) as [t | ] eqn:L; [ | now eexists ].
  rewrite (lookup_weaken _ _ _ _ L S) in E.
  destruct (isTokenExpired now t (refreshWindow cfg)); [ now eexists | discriminate E ].
Qed.

Lemma checkPersistentCache_miss cfg now a cid store store' :
  checkPersistentCache cfg now a cid store = inr store' ->
  match store, store' with
  | Some m, Some m' => m' ⊆ m
  | None, None => True
  | _, _ => False
  end.
Proof.
  unfold checkPersistentCache. destruct store as [m | ]; [ | now intros [= <-] ].
  destruct (m !! _) as [t | ] eqn:L.
  - destruct (isTokenExpired now t (refreshWindow cfg)); [ | discriminate ].
    intros [= <-]. apply delete_subseteq.
  - now intros [= <-].
Qed.

Lemma checkPersistentCache_weaken cfg now a cid store store' c :
  checkPersistentCache cfg now a cid store = inr c ->
  match store, store' with
  | Some m, Some m' => m' ⊆ m
  | None, None => True
  | _, _ => False
  end ->
  exists c', checkPersistentCache cfg now a cid store' = inr c'.
Proof.
  unfold checkPersistentCache. intros E S.
  destruct store as [m | ], store' as [m' | ]; try done; [ | now eexists ].
  destruct (m' !! _) as [t | ] eqn:L; [ | now eexists ].
  rewrite (lookup_weaken _ _ _ _ L S) in E.
  destruct (isTokenExpired now t (refreshWindow cfg)); [ now eexists | discriminate E ].
Qed.

Lemma needsRequest_evicted cfg p q a now :
  needsRequest cfg p a now = true -> evicted p q -> needsRequest cfg q a now = true.
Proof.
  unfold needsRequest, evicted. intros N [M P].
  destruct (selectCredentials cfg a) as [[cid sec] | e]; [ | discriminate N ].
  destruct (checkMemoryCache cfg now a (tokenCache p)) as [tok | c] eqn:Em;
    [ discriminate N | ].
  destruct (checkPersistentCache cfg now a cid (persistentCache p)) as [tok | c'] eqn:Ep;
    [ discriminate N | ].
  destruct (checkMemoryCache_weaken _ _ _ _ _ _ Em M) as [c1 ->].
  destruct (checkPersistentCache_weaken _ _ _ _ _ (persistentCache q) _ Ep P) as [c2 ->].
  reflexivity.
Qed.

(** A call that needs a request while one is in flight joins it. *)
Lemma getToken_joins cfg w a now pending :
  inflightTokenRequest (provider w) = Some pending ->
  needsRequest cfg (provider w) a now = true ->
  let w' := getToken cfg w a now in
  returned w' = returned w ++ [Awaiting pending] /\
  timers w' = timers w /\ network w' = network w /\ posted w' = posted w /\
  settled w' = settled w /\ nextPromise w' = nextPromise w /\
  inflightTokenRequest (provider w') = Some pending /\
  evicted (provider w) (provider w') /\
  tokenCache (provider w') !! getCacheKey cfg a = None.
Proof.
  unfold needsRequest, getToken. intros G N.
  destruct (selectCredentials cfg a) as [[cid sec] | e]; [ | discriminate N ].
  destruct (checkMemoryCache cfg now a (tokenCache (provider w))) as [tok | c] eqn:Em;
    [ discriminate N | ].
  destruct (checkPersistentCache cfg now a cid (persistentCache (provider w)))
    as [tok | c'] eqn:Ep; [ discriminate N | ].
  rewrite G. simpl.
  destruct (checkMemoryCache_miss _ _ _ _ _ Em) as [S L].
  pose proof (checkPersistentCache_miss _ _ _ _ _ _ Ep) as S'.
  repeat split; try done.
Qed.

(** A call that needs a request while none is in flight schedules one. *)
Lemma getToken_schedules cfg w a now :
  inflightTokenRequest (provider w) = None ->
  needsRequest cfg (provider w) a now = true ->
  let w' := getToken cfg w a now in
  exists rq delay,
    promise rq = nextPromise w /\ audienceType rq = a /\
    selectCredentials cfg a = Ok (clientIdToUse rq, clientSecretToUse rq) /\
    returned w' = returned w ++ [Awaiting (nextPromise w)] /\
    timers w' = timers w ++ [(rq, delay)] /\
    network w' = network w /\ posted w' = posted w /\
    settled w' = settled w /\
    inflightTokenRequest (provider w') = Some (nextPromise w) /\
    evicted (provider w) (provider w').
Proof.
  unfold needsRequest, getToken. intros G N.
  destruct (selectCredentials cfg a) as [[cid sec] | e]; [ | discriminate N ].
  destruct (checkMemoryCache cfg now a (tokenCache (provider w))) as [tok | c] eqn:Em;
    [ discriminate N | ].
  destruct (checkPersistentCache cfg now a cid (persistentCache (provider w)))
    as [tok | c'] eqn:Ep; [ discriminate N | ].
  rewrite G. simpl.
  destruct (checkMemoryCache_miss _ _ _ _ _ Em) as [S L].
  pose proof (checkPersistentCache_miss _ _ _ _ _ _ Ep) as S'.
  eexists _, _. simpl. repeat split; try done.
Qed.

Lemma callers_join cfg calls : forall w pending,
  inflightTokenRequest (provider w) = Some pending ->
  Forall (fun c => needsRequest cfg (provider w) (fst c) (snd c) = true) calls ->
  let w' := run cfg w (map call calls) in
  returned w' = returned w ++ map (fun _ => Awaiting pending) calls /\
  timers w' = timers w /\ network w' = network w /\ posted w' = posted w /\
  settled w' = settled w /\
  inflightTokenRequest (provider w') = Some pending.
Proof.
  unfold run.
  induction calls as [ | [a now] calls IH]; intros w pending G N; simpl.
  - rewrite app_nil_r. now repeat split.
  - inversion N as [ | ? ? N1 N2]; subst. simpl in N1.
    destruct (getToken_joins cfg w a now pending G N1)
      as (R & T & Nw & P & S & _ & G' & E & _).
    specialize (IH (getToken cfg w a now) pending G').
    destruct IH as (R' & T' & Nw' & P' & S' & G'').
    { eapply Forall_impl; [ exact N2 | ].
      intros c Hc. simpl in Hc. now apply (needsRequest_evicted _ _ _ _ _ Hc). }
    rewrite R', R, T', T, Nw', Nw, P', P, S', S, <- app_assoc. now repeat split.
Qed.

Lemma receive_grants cfg p rq r tok :
  (exists q, receive cfg p rq r = Ok (tok, q)) <-> grants r tok.
Proof.
  unfold receive, grants. split.
  - intros [q E]. destruct r as [m | t]; [ discriminate E | ].
    destruct (truthyString (t_error t)) eqn:Et; [ discriminate E | ].
    destruct (t_access_token t) as [tok' | ] eqn:Ea; [ | discriminate E ].
    destruct (jwtDecode tok') as [exp | ] eqn:Ej; [ | discriminate E ].
    injection E as <- _. now exists t, exp.
  - intros (t & exp & -> & Et & Ea & Ej). rewrite Et, Ea, Ej. now eexists.
Qed.

Lemma receive_caches cfg p rq r tok q :
  receive cfg p rq r = Ok (tok, q) ->
  exists exp,
    tokenCache q =
      <[getCacheKey cfg (audienceType rq) :=
          {| access_token := tok; expiry := exp; audience := audienceType rq |}]>
        (tokenCache p).
Proof.
  unfold receive. intros E. destruct r as [m | t]; [ discriminate E | ].
  destruct (truthyString (t_error t)); [ discriminate E | ].
  destruct (t_access_token t) as [tok' | ]; [ | discriminate E ].
  destruct (jwtDecode tok') as [exp | ]; [ | discriminate E ].
  injection E as <- <-. simpl. now eexists.
Qed.

(** The response to the one posted request settles its promise and opens
    the gate, whatever the response. *)
Lemma responds_settles cfg w rq r :
  timers w = [] -> network w = [rq] ->
  let w' := responds cfg w (promise rq) r in
  exists result,
    settled w' = <[promise rq := result]> (settled w) /\
    (forall tok, result = Ok tok <-> grants r tok) /\
    (forall tok, result = Ok tok ->
       exists q, receive cfg (provider w) rq r = Ok (tok, q) /\
                 tokenCache (provider w') = tokenCache q) /\
    ((forall tok, result <> Ok tok) ->
       tokenCache (provider w') = tokenCache (provider w)) /\
    inflightTokenRequest (provider w') = None /\
    timers w' = [] /\ network w' = [] /\
    posted w' = posted w /\ returned w' = returned w.
Proof.
  intros Et En. unfold responds. rewrite En. simpl. rewrite Nat.eqb_refl. simpl.
  destruct (receive cfg (provider w) rq r) as [[tok q] | e] eqn:E; simpl.
  - exists (Ok tok). repeat split; try done.
    + intros [= <-]. apply (receive_grants cfg (provider w) rq). now exists q.
    + intros G. apply (receive_grants cfg (provider w) rq) in G as [q' E'].
      rewrite E in E'. now injection E' as <- _.
    + intros tok' [= <-]. now exists q.
    + intros N. now destruct (N tok).
  - exists (Err e). repeat split; try done.
    intros G. apply (receive_grants cfg (provider w) rq) in G as [q' E'].
    rewrite E in E'. discriminate E'.
Qed.

Lemma timerFires_posts cfg w rq delay :
  timers w = [(rq, delay)] ->
  let w' := timerFires cfg w (promise rq) in
  timers w' = [] /\ network w' = network w ++ [rq] /\
  posted w' = posted w ++
    [requestBody cfg (audienceType rq) (clientIdToUse rq) (clientSecretToUse rq)] /\
  provider w' = provider w /\ settled w' = settled w /\ returned w' = returned w.
Proof.
  intros Et. unfold timerFires. rewrite Et. simpl. rewrite Nat.eqb_refl. simpl.
  now repeat split.
Qed.

Lemma timerFires_idle cfg w p : timers w = [] -> timerFires cfg w p = w.
Proof. intros Et. unfold timerFires. now rewrite Et. Qed.

(** C7 (as amended).  From a new provider, whatever happens, at most one
    token request is under way (scheduled or posted) at any time.  When N
    callers, each passing credential selection and finding no valid cached
    token, call [getToken] before any response arrives, they all get the same
    promise and nothing is posted yet; once the timer has fired and the
    endpoint has answered, exactly one request was posted, every caller has
    the same outcome (the granted token string exactly when the endpoint
    granted one, the same error otherwise), and the gate is open again,
    whatever the answer was. *)
Theorem inflight_request_gate cfg store (calls : list (TokenGrantAudienceType * Z)) r :
  calls <> [] ->
  Forall (fun c => needsRequest cfg (provider (newProvider store)) (fst c) (snd c) = true)
    calls ->
  let w1 := run cfg (newProvider store) (map call calls) in
  let w3 := run cfg w1 [TimerFires 0; Responds 0 r] in
  (forall es, (length (outstanding (run cfg (newProvider store) es)) <= 1)%nat) /\
  returned w1 = map (fun _ => Awaiting 0) calls /\
  posted w1 = [] /\
  (exists body, posted w3 = [body]) /\
  returned w3 = returned w1 /\
  (exists result,
     Forall (fun caller => outcome w3 caller = Some result) (returned w3) /\
     forall tok, result = Ok tok <-> grants r tok) /\
  inflightTokenRequest (provider w3) = None /\
  outstanding w3 = [].
Proof.
  intros Hne N. split.
  { intros es. apply outstanding_of_gate, gate_run, gate_newProvider. }
  destruct calls as [ | [a now] calls]; [ now destruct Hne | ].
  inversion N as [ | ? ? N1 N2]; subst. simpl in N1.
  destruct (getToken_schedules cfg (newProvider store) a now eq_refl N1)
    as (rq & delay & Hp & Ha & _ & R0 & T0 & Nw0 & P0 & S0 & G0 & E0).
  set (w0 := getToken cfg (newProvider store) a now) in *.
  destruct (callers_join cfg calls w0 0%nat G0) as (R1 & T1 & Nw1 & P1 & S1 & G1).
  { eapply Forall_impl; [ exact N2 | ].
    intros c Hc. simpl in Hc. now apply (needsRequest_evicted _ _ _ _ _ Hc). }
  simpl in Hp. unfold run in *. simpl fold_left.
  fold w0. set (w1 := fold_left (step cfg) (map call calls) w0) in *.
  rewrite T0 in T1. rewrite Nw0 in Nw1. rewrite P0 in P1. rewrite R0 in R1.
  simpl in T1, Nw1, P1, R1.
  rewrite <- Hp.
  destruct (timerFires_posts cfg w1 rq delay T1) as (T2 & Nw2 & P2 & Pr2 & S2 & R2).
  set (w2 := timerFires cfg w1 (promise rq)) in *.
  rewrite Nw1 in Nw2. simpl in Nw2.
  destruct (responds_settles cfg w2 rq r T2 Nw2)
    as (result & S3 & Hg & _ & _ & G3 & T3 & Nw3 & P3 & R3).
  set (w3 := responds cfg w2 (promise rq) r) in *.
  rewrite Hp in *.
  repeat split.
  - exact R1.
  - exact P1.
  - exists (requestBody cfg (audienceType rq) (clientIdToUse rq) (clientSecretToUse rq)).
    now rewrite P3, P2, P1.
  - now rewrite R3, R2.
  - exists result. split; [ | exact Hg ].
    rewrite R3, R2, R1. simpl. constructor.
    + simpl. rewrite S3. apply lookup_insert_eq.
    + apply Forall_forall. intros caller Hin.
      apply list_elem_of_In, in_map_iff in Hin as (c & <- & _). simpl.
      rewrite S3. apply lookup_insert_eq.
  - exact G3.
  - unfold outstanding. now rewrite T3, Nw3.
Qed.

(** C10 (as amended).  While the request started for audience [A] is under
    way, a [getToken] call for another audience [B] that passes credential
    selection and finds no valid cached token returns the promise of that
    request: nothing is scheduled or posted for [B], and no token is cached
    under the key of [B], neither by the call nor by the settlement.  The
    caller gets the token granted for [A], then cached under the key of [A],
    or it is rejected with the error of that request. *)
Theorem cross_audience_coupling cfg store es A B now rq r :
  let w := run cfg (newProvider store) es in
  outstanding w = [rq] -> audienceType rq = A -> A <> B ->
  needsRequest cfg (provider w) B now = true ->
  let w1 := getToken cfg w B now in
  let w2 := run cfg w1 [TimerFires (promise rq); Responds (promise rq) r] in
  returned w1 = returned w ++ [Awaiting (promise rq)] /\
  outstanding w1 = [rq] /\ posted w1 = posted w /\
  tokenCache (provider w1) !! getCacheKey cfg B = None /\
  (exists bodies,
     posted w2 = posted w ++ bodies /\
     Forall (eq (requestBody cfg A (clientIdToUse rq) (clientSecretToUse rq))) bodies) /\
  tokenCache (provider w2) !! getCacheKey cfg B = None /\
  exists result,
    outcome w2 (Awaiting (promise rq)) = Some result /\
    (forall tok, result = Ok tok <-> grants r tok) /\
    (forall tok, result = Ok tok ->
       exists t, tokenCache (provider w2) !! getCacheKey cfg A = Some t /\
                 access_token t = tok /\ audience t = A).
Proof.
  intros w O HA Hne N.
  assert (G : gateInvariant w) by apply gate_run, gate_newProvider.
  assert (Gp : inflightTokenRequest (provider w) = Some (promise rq)).
  { unfold gateInvariant, outstanding in *.
    destruct (inflightTokenRequest (provider w)) as [p | ].
    - destruct G as [(rq0 & d & Et & En & Ep) | (rq0 & Et & En & Ep)];
        rewrite Et, En in O; simpl in O; injection O as ->; now rewrite Ep.
    - destruct G as [Et En]. rewrite Et, En in O. discriminate O. }
  destruct (getToken_joins cfg w B now (promise rq) Gp N)
    as (R1 & T1 & Nw1 & P1 & S1 & _ & G1 & E1 & L1).
  intros w1. fold w1 in R1, T1, Nw1, P1, S1, G1, E1, L1.
  assert (Hshape : (exists d, timers w1 = [(rq, d)] /\ network w1 = [])
                   \/ (timers w1 = [] /\ network w1 = [rq])).
  { rewrite T1, Nw1. unfold gateInvariant, outstanding in *. rewrite Gp in G.
    destruct G as [(rq0 & d & Et & En & Ep) | (rq0 & Et & En & Ep)];
      rewrite Et, En in O |- *; simpl in O; injection O as ->.
    - left. now exists d.
    - now right. }
  assert (Hfired : exists w', w' = timerFires cfg w1 (promise rq) /\
            timers w' = [] /\ network w' = [rq] /\ provider w' = provider w1 /\
            settled w' = settled w1 /\
            exists bodies, posted w' = posted w ++ bodies /\
              Forall (eq (requestBody cfg A (clientIdToUse rq) (clientSecretToUse rq)))
                bodies).
  { destruct Hshape as [(d & Et & En) | (Et & En)].
    - destruct (timerFires_posts cfg w1 rq d Et) as (T2 & Nw2 & P2 & Pr2 & S2 & _).
      eexists. split; [ reflexivity | ]. rewrite En in Nw2.
      repeat split; try done.
      eexists. rewrite P2, P1. split; [ reflexivity | ]. rewrite HA. now constructor.
    - rewrite (timerFires_idle cfg w1 _ Et).
      eexists. split; [ reflexivity | ]. repeat split; try done.
      exists []. rewrite app_nil_r. now split. }
  destruct Hfired as (w' & Ew' & T2 & Nw2 & Pr2 & S2 & bodies & P2 & Hb).
  destruct (responds_settles cfg w' rq r T2 Nw2)
    as (result & S3 & Hg & Hok & Herr & G3 & T3 & Nw3 & P3 & R3).
  intros w2. assert (Ew2 : w2 = responds cfg w' (promise rq) r) by now subst w'.
  rewrite Ew2.
  repeat split; try done.
  - unfold outstanding. rewrite T1, Nw1. exact O.
  - exists bodies. now rewrite P3.
  - destruct result as [tok | e].
    + destruct (Hok tok eq_refl) as (q & Eq & ->).
      destruct (receive_caches _ _ _ _ _ _ Eq) as (exp & ->).
      rewrite lookup_insert_ne; [ now rewrite Pr2 | ].
      rewrite HA. intros K. now apply getCacheKey_inj in K.
    + rewrite Herr; [ now rewrite Pr2 | discriminate ].
  - exists result. split; [ | split ].
    + simpl. rewrite S3. apply lookup_insert_eq.
    + exact Hg.
    + intros tok ->. destruct (Hok tok eq_refl) as (q & Eq & ->).
      destruct (receive_caches _ _ _ _ _ _ Eq) as (exp & ->).
      rewrite HA. eexists. split; [ apply lookup_insert_eq | ]. now split.
Qed.

End Gate.
End OAuthFacts.

Module OAuthExamples.
Import OAuth OAuthFacts.
Local Open Scope list_scope.
#[local] Existing Instance samplePlatform.

(** C9, counterexample.  A Console audience with no audience configured:
    the environment default, or no value at all, is sent as the audience
    parameter; the parameter is not left out. *)
Lemma console_audience_is_sent :
  audienceMap selfManaged CONSOLE = defaultAudience CONSOLE /\
  requestBody selfManaged CONSOLE "zeebe" "zecret"
    = "audience=api.cloud.camunda.io&client_id=zeebe&client_secret=zecret&grant_type=client_credentials" /\
  audienceMap noAudiences CONSOLE = None /\
  requestBody noAudiences CONSOLE "zeebe" "zecret"
    = "audience=undefined&client_id=zeebe&client_secret=zecret&grant_type=client_credentials".
Proof. repeat split; reflexivity. Qed.

(** C7, witness: three callers on a new self-managed provider. *)
Lemma gate_witness :
  let calls := [(ZEEBE, 0%Z); (OPERATE, 0%Z); (ZEEBE, 5%Z)] in
  let w1 := run selfManaged (newProvider None) (map call calls) in
  let w3 := run selfManaged w1 [TimerFires 0; Responds 0 (sampleGrant "token")] in
  returned w1 = map (fun _ => Awaiting 0) calls /\
  posted w1 = [] /\
  exists body, posted w3 = [body].
Proof.
  destruct (inflight_request_gate selfManaged None
              [(ZEEBE, 0%Z); (OPERATE, 0%Z); (ZEEBE, 5%Z)] (sampleGrant "token"))
    as (_ & R & P & B & _).
  - discriminate.
  - repeat constructor.
  - cbv zeta. split; [ exact R | ]. split; [ exact P | exact B ].
Defined.

(** C7, counterexample.  The durable store holds a valid token for Zeebe.
    Two callers, for Operate and for Zeebe, call before any response: one
    request is posted, and the callers resolve to two different strings. *)
Lemma warm_store_callers_differ :
  let w := run selfManaged (newProvider (Some warmStore))
             [Call OPERATE 0; Call ZEEBE 0; TimerFires 0; Responds 0 (sampleGrant "fresh")] in
  map (outcome w) (returned w) = [Some (Ok "fresh"); Some (Ok "stored")]
  /\ length (posted w) = 1%nat.
Proof. vm_compute. split; reflexivity. Qed.

(** C10, witness: a call for Operate while the request for Zeebe is
    scheduled. *)
Lemma coupling_witness :
  let w := run selfManaged (newProvider None) [Call ZEEBE 0] in
  let w1 := getToken selfManaged w OPERATE 0 in
  returned w1 = returned w ++ [Awaiting 0] /\
  outstanding w1 = [zeebeRequest] /\ posted w1 = posted w.
Proof.
  destruct (cross_audience_coupling selfManaged None [Call ZEEBE 0]
              ZEEBE OPERATE 0 zeebeRequest (sampleGrant "token"))
    as (R & O & P & _).
  - reflexivity.
  - reflexivity.
  - discriminate.
  - reflexivity.
  - cbv zeta. split; [ exact R | ]. split; [ exact O | exact P ].
Defined.

(** C10, counterexample.  A cloud deployment with the application
    credentials only.  While the request for Zeebe is under way and no token
    is cached, a call for the Console audience is rejected for the missing
    Console client id: it gets neither the Zeebe token nor the error of the
    Zeebe request. *)
Lemma missing_console_credentials_reject :
  let w := run cloud (newProvider None) [Call ZEEBE 0] in
  let w1 := getToken cloud w CONSOLE 0 in
  outstanding w = [zeebeRequest]
  /\ tokenCache (provider w) = ∅ /\ persistentCache (provider w) = None
  /\ returned w1 = returned w ++ [Rejected (MissingConfiguration "CAMUNDA_CONSOLE_CLIENT_ID")].
Proof. vm_compute. repeat split; reflexivity. Qed.

End OAuthExamples.

Module WorkerFacts.
Import Worker.
Local Open Scope list_scope.
Local Open Scope Z_scope.

Lemma counted_finally st i job await how :
  handling st !! i = Some (job, await) -> counted st -> counted (finally st i job how).
Proof.
  unfold counted, finally. simpl. intros L ->.
  rewrite length_delete by (rewrite L; eauto).
  apply lookup_lt_Some in L. lia.
Qed.

Lemma counted_step cfg st e : counted st -> counted (step cfg st e).
Proof.
  intros C. destruct e as [ | i jobs | i error | i how | i how ]; simpl.
  - unfold poll. simpl. now destruct (_ <=? _).
  - unfold activated. destruct (polling st !! i); [ | exact C ].
    unfold counted in *. simpl. rewrite length_app, length_map, C. lia.
  - unfold activationFailed. now destruct (polling st !! i).
  - unfold handlerSettles.
    destruct (handling st !! i) as [[job [ | ]] | ] eqn:L; try exact C.
    destruct how as [error | ]; [ | now apply (counted_finally _ _ _ AtHandler) ].
    destruct (failRequest job error); [ | now apply (counted_finally _ _ _ AtHandler) ].
    unfold counted in *. simpl. now rewrite length_insert.
  - unfold failSettles.
    destruct (handling st !! i) as [[job [ | ]] | ] eqn:L; try exact C.
    now apply (counted_finally _ _ _ AtFail).
Qed.

Lemma counted_run cfg es : forall st, counted st -> counted (run cfg st es).
Proof.
  unfold run. induction es as [ | e es IH]; intros st C; simpl; [ exact C | ].
  apply IH. now apply counted_step.
Qed.

(** X1.  The counter never drops below zero, and it is back at zero exactly when
    every activated job has been handled. *)
Lemma active_count_is_unsettled_jobs cfg es :
  let st := run cfg created es in
  currentlyActiveJobCount st = Z.of_nat (length (handling st)) /\
  0 <= currentlyActiveJobCount st.
Proof.
  simpl. assert (C : counted (run cfg created es)) by now apply counted_run.
  split; [ exact C | ]. rewrite C. lia.
Qed.

Lemma withinCapacity_bound cfg st :
  withinCapacity cfg st -> currentlyActiveJobCount st <= maxJobsToActivate cfg.
Proof.
  unfold withinCapacity. destruct (polling st) as [ | asked [ | ]]; [ easy | lia | easy ].
Qed.

Lemma withinCapacity_finally cfg st i job how :
  withinCapacity cfg st -> withinCapacity cfg (finally st i job how).
Proof.
  unfold withinCapacity, finally. simpl.
  destruct (polling st) as [ | asked [ | ]]; [ lia | lia | easy ].
Qed.

(** X2.  Where the server returns no more jobs than an activation asked for and
    no poll fires while an activation awaits its answer, the number of
    active jobs never exceeds [maxJobsToActivate]. *)
Lemma capacity_without_overlap cfg es : forall st,
  withinCapacity cfg st ->
  serverHonoursRequests cfg st es = true ->
  pollsDoNotOverlap cfg st es = true ->
  currentlyActiveJobCount (run cfg st es) <= maxJobsToActivate cfg.
Proof.
  unfold run. induction es as [ | e es IH]; intros st W S O; simpl.
  - now apply withinCapacity_bound.
  - simpl in S, O. apply andb_prop in S as [S1 S2]. apply andb_prop in O as [O1 O2].
    apply IH; [ | exact S2 | exact O2 ]. clear IH S2 O2.
    destruct e as [ | i jobs | i error | i how | i how ]; simpl.
    + unfold poll. simpl. unfold withinCapacity in *.
      destruct (polling st) as [ | ] eqn:P; [ | discriminate O1 ].
      destruct (maxJobsToActivate cfg <=? currentlyActiveJobCount st) eqn:E; simpl.
      * now rewrite P.
      * apply Z.leb_gt in E. lia.
    + unfold activated. unfold withinCapacity in *.
      destruct (polling st) as [ | asked [ | ]] eqn:P; try easy.
      * rewrite lookup_nil. now rewrite P.
      * destruct i as [ | i]; simpl; [ | now rewrite P ].
        simpl in S1. apply Z.leb_le in S1. lia.
    + unfold activationFailed. unfold withinCapacity in *.
      destruct (polling st) as [ | asked [ | ]] eqn:P; try easy.
      * rewrite lookup_nil. now rewrite P.
      * destruct i as [ | i]; simpl; [ lia | now rewrite P ].
    + unfold handlerSettles.
      destruct (handling st !! i) as [[job [ | ]] | ]; try exact W.
      destruct how as [error | ]; [ | now apply withinCapacity_finally ].
      destruct (failRequest job error); [ exact W | now apply withinCapacity_finally ].
    + unfold failSettles.
      destruct (handling st !! i) as [[job [ | ]] | ]; try exact W.
      now apply withinCapacity_finally.
Qed.

(** A handler failure that can be turned into text fails the job once, with
    one retry less. *)
Lemma handler_failure_fails_the_job st i job error text :
  handling st !! i = Some (job, AtHandler) ->
  toString error = Ok text ->
  let st' := handlerSettles st i (Some error) in
  failed st' = failed st ++ [(job, {| errorMessage := text; newRetries := retries job - 1 |})] /\
  handling st' = <[i := (job, AtFail)]> (handling st) /\
  currentlyActiveJobCount st' = currentlyActiveJobCount st.
Proof.
  intros L T. unfold handlerSettles, failRequest. rewrite L, T. simpl. now repeat split.
Qed.

(** Whatever ends a [handleJob] invocation takes one off the counter. *)
Lemma settlement_decrements_once st i job how :
  handling st !! i = Some (job, AtFail) ->
  let st' := failSettles st i how in
  currentlyActiveJobCount st' = currentlyActiveJobCount st - 1 /\
  handling st' = delete i (handling st) /\
  finished st' = finished st ++ [(job, how)].
Proof. intros L. unfold failSettles. rewrite L. simpl. now repeat split. Qed.

Lemma completion_decrements_once st i job :
  handling st !! i = Some (job, AtHandler) ->
  let st' := handlerSettles st i None in
  currentlyActiveJobCount st' = currentlyActiveJobCount st - 1 /\
  handling st' = delete i (handling st) /\ failed st' = failed st.
Proof. intros L. unfold handlerSettles. rewrite L. simpl. now repeat split. Qed.

(** C2 (the code at the failing input).  Capacity 1; two poll ticks fire
    before the first activation answers, so each asks for one job; the
    server returns one job to each, never more than asked.  The counter
    reaches 2, above [maxJobsToActivate], with both handlers running. *)
Theorem overlapping_polls_exceed_capacity :
  let st := run oneAtATime created overlappingPolls in
  serverHonoursRequests oneAtATime created overlappingPolls = true /\
  maxJobsToActivate oneAtATime = 1 /\
  currentlyActiveJobCount st = 2 /\
  handling st = [(firstJob, AtHandler); (secondJob, AtHandler)].
Proof. vm_compute. repeat split; reflexivity. Qed.

(** C8 (the code at the failing input).  The handler of an activated job
    rejects with [undefined]: reading [toString] off the error raises a
    [TypeError] inside the [catch] block, so [job.fail] is never called; the
    [finally] block still takes the job off the counter, and the [handleJob]
    promise rejects with the [TypeError]. *)
Theorem rejection_without_reason_abandons_job :
  let st := run oneAtATime created rejectedWithoutReason in
  failed st = [] /\
  finished st =
    [(firstJob,
      Some (ATypeError "Cannot read properties of undefined (reading 'toString')"))] /\
  currentlyActiveJobCount st = 0 /\ handling st = [].
Proof. vm_compute. repeat split; reflexivity. Qed.

End WorkerFacts.

Module CodecFacts.
Import Codec.
Local Open Scope list_scope.

Lemma each_map {A B} (f : A -> result error B) (g : A -> B) l :
  Forall (fun a => f a = Ok (g a)) l -> each f l = Ok (map g l).
Proof.
  induction 1 as [ | a l Ha _ IH]; simpl; [ reflexivity | ].
  now rewrite Ha, IH.
Qed.

(** A loop that meets a failing element fails, with the error of the first
    such element. *)
Lemma each_fails {A B} (f : A -> result error B) l :
  Exists (fun a => isOk (f a) = false) l ->
  exists a e, In a l /\ f a = Err e /\ each f l = Err e.
Proof.
  induction l as [ | a l IH]; intros E; [ inversion E | ].
  simpl. destruct (f a) as [b | e] eqn:Fa.
  - inversion E as [? ? Ha | ? ? Hl]; subst; [ rewrite Fa in Ha; discriminate Ha | ].
    destruct (IH Hl) as (a' & e & Hin & Fa' & ->).
    exists a', e. split; [ now right | split; [ exact Fa' | reflexivity ] ].
  - exists a, e. split; [ now left | split; [ exact Fa | reflexivity ] ].
Qed.

Lemma eachIndexed_map {A B} (f : nat -> A -> result error B) (g : A -> B) l : forall n,
  (forall i a, l !! i = Some a -> f (n + i)%nat a = Ok (g a)) ->
  eachIndexed f n l = Ok (map g l).
Proof.
  induction l as [ | a l IH]; intros n Hf; simpl; [ reflexivity | ].
  rewrite <- (Nat.add_0_r n) at 1. rewrite (Hf 0%nat a eq_refl). simpl.
  rewrite (IH (S n)); [ reflexivity | ].
  intros i b Hi. rewrite Nat.add_succ_l, <- Nat.add_succ_r. now apply Hf.
Qed.

Lemma eachIndexed_fails {A B} (f : nat -> A -> result error B) l : forall n,
  (exists i a, l !! i = Some a /\ isOk (f (n + i)%nat a) = false) ->
  exists i a e, l !! i = Some a /\ f (n + i)%nat a = Err e /\ eachIndexed f n l = Err e.
Proof.
  induction l as [ | a l IH]; intros n (i & b & Hi & Hb); [ discriminate Hi | ].
  simpl. destruct (f n a) as [c | e] eqn:Fa.
  - destruct i as [ | i].
    + simpl in Hi. injection Hi as <-. rewrite Nat.add_0_r, Fa in Hb. discriminate Hb.
    + simpl in Hi. destruct (IH (S n)) as (j & a' & e & Hj & Fj & ->).
      { exists i, b. split; [ exact Hi | ]. now rewrite Nat.add_succ_l, <- Nat.add_succ_r. }
      exists (S j), a', e. simpl. repeat split; try done.
      now rewrite Nat.add_succ_r, <- Nat.add_succ_l.
  - exists 0%nat, a, e. rewrite Nat.add_0_r. now repeat split.
Qed.

Lemma each_error {A B} (f : A -> result error B) l e :
  each f l = Err e -> exists a, In a l /\ f a = Err e.
Proof.
  induction l as [ | a l IH]; simpl; [ discriminate | ].
  destruct (f a) as [b | e'] eqn:Fa; simpl.
  - destruct (each f l) as [l' | e'']; simpl; [ discriminate | ].
    intros [= <-]. destruct (IH eq_refl) as (a' & Hin & Fa'). exists a'. now split; [ right | ].
  - intros [= <-]. exists a. now split; [ left | ].
Qed.

Lemma eachIndexed_error {A B} (f : nat -> A -> result error B) l e : forall n,
  eachIndexed f n l = Err e -> exists i a, l !! i = Some a /\ f (n + i)%nat a = Err e.
Proof.
  induction l as [ | a l IH]; intros n; simpl; [ discriminate | ].
  destruct (f n a) as [b | e'] eqn:Fa; simpl.
  - destruct (eachIndexed f (S n) l) as [l' | e''] eqn:El; simpl; [ discriminate | ].
    intros [= <-]. destruct (IH (S n) El) as (i & a' & Hi & Fi).
    exists (S i), a'. split; [ exact Hi | ].
    now rewrite Nat.add_succ_r, <- Nat.add_succ_l.
  - intros [= <-]. exists 0%nat, a. rewrite Nat.add_0_r. now split.
Qed.

Section Numbers.

Context `{LosslessJson}.

#[local] Abbreviation convert := convertLosslessNumbersToNumberOrThrow.

Lemma allSafe_field c fields key v :
  allSafe (VObject c fields) -> In (key, v) fields -> allSafe v.
Proof.
  intros S Hin path literal O. apply (S (key :: path)).
  eapply occurs_field; eassumption.
Qed.

Lemma allSafe_item items i v :
  allSafe (VArray items) -> items !! i = Some v -> allSafe v.
Proof.
  intros S Hi path literal O. apply (S (index i :: path)).
  eapply occurs_item; eassumption.
Qed.

Lemma convert_object c fields :
  convert (VObject c fields) =
  bind (each (fun property =>
                bind (rethrow (fst property) (convertProperty convert (snd property)))
                     (fun v' => Ok (fst property, v')))
             fields)
       (fun fields' => Ok (VObject c fields')).
Proof. reflexivity. Qed.

Lemma convert_array items :
  convert (VArray items) =
  bind (eachIndexed (fun i v => rethrow (index i) (convertProperty convert v)) 0%nat items)
       (fun items' => Ok (VArray items')).
Proof. reflexivity. Qed.

(** With every number safe, the conversion is the coercion. *)
Lemma convert_safe v :
  allSafe v -> convert v = Ok (coerce v) /\ convertProperty convert v = Ok (coerce v).
Proof.
  induction v as [ | | b | n | n | s | literal | iso | | | items IH | c fields IH ]
    using Value_induction; intros S;
    try (split; simpl; first [ reflexivity | now destruct b | now destruct (negb _) ]).
  - (* LosslessNumber *)
    assert (isSafeNumber literal = true) as E by (apply (S []); constructor).
    simpl. unfold toSafeNumberOrThrow. now rewrite E.
  - (* array *)
    assert (Hitems : Forall (fun item => convert item = Ok (coerce item)
                          /\ convertProperty convert item = Ok (coerce item)) items).
    { apply Forall_forall. intros item Hin.
      destruct (proj1 (list_elem_of_lookup _ _) Hin) as [i Hi].
      apply (proj1 (Forall_forall _ _) IH item Hin). now apply (allSafe_item items i). }
    split.
    + rewrite convert_array.
      rewrite (eachIndexed_map _ coerce); [ reflexivity | ].
      intros i a Hi. apply list_elem_of_lookup_2 in Hi.
      now rewrite (proj2 (proj1 (Forall_forall _ _) Hitems a Hi)).
    + simpl. rewrite (each_map _ coerce); [ reflexivity | ].
      eapply Forall_impl; [ exact Hitems | ]. now intros a [-> _].
  - (* object *)
    assert (E : convert (VObject c fields) = Ok (coerce (VObject c fields))).
    { rewrite convert_object.
      rewrite (each_map _ (fun property => (fst property, coerce (snd property))));
        [ reflexivity | ].
      apply Forall_forall. intros [key v] Hin. simpl.
      apply list_elem_of_In in Hin.
      assert (Hv := proj1 (Forall_forall _ _) IH (key, v) (proj2 (list_elem_of_In _ _) Hin)).
      simpl in Hv. destruct (Hv (allSafe_field _ _ _ _ S Hin)) as [_ ->]. reflexivity. }
    split; [ exact E | ]. exact E.
Qed.

Lemma rethrow_error {A} key (r : result error A) e :
  rethrow key r = Err e -> exists cause, r = Err cause /\ e = UnsafeNumber key cause.
Proof. destruct r as [a | cause]; simpl; [ discriminate | ]. intros [= <-]. now exists cause. Qed.

Lemma toSafeNumberOrThrow_error literal e :
  toSafeNumberOrThrow literal = Err e ->
  isSafeNumber literal = false /\ e = CannotSafelyConvert literal.
Proof.
  unfold toSafeNumberOrThrow. destruct (isSafeNumber literal); [ discriminate | ].
  now intros [= <-].
Qed.

Lemma names_under_key c fields key v e :
  In (key, v) fields -> namesUnsafeNumber v e ->
  namesUnsafeNumber (VObject c fields) (UnsafeNumber key e).
Proof.
  intros Hin (path & literal & O & U & L & K).
  exists (key :: path), literal. repeat split; try done.
  - eapply occurs_field; eassumption.
  - simpl. now apply sublist_skip.
Qed.

Lemma names_in_item items i v e :
  items !! i = Some v -> namesUnsafeNumber v e -> namesUnsafeNumber (VArray items) e.
Proof.
  intros Hi (path & literal & O & U & L & K).
  exists (index i :: path), literal. repeat split; try done.
  - eapply occurs_item; eassumption.
  - now apply sublist_cons.
Qed.

Lemma names_at_position items i v e :
  items !! i = Some v -> namesUnsafeNumber v e ->
  namesUnsafeNumber (VArray items) (UnsafeNumber (index i) e).
Proof.
  intros Hi (path & literal & O & U & L & K).
  exists (index i :: path), literal. repeat split; try done.
  - eapply occurs_item; eassumption.
  - simpl. now apply sublist_skip.
Qed.

(** Whatever the conversion throws names an unsafe number of the value. *)
Lemma convert_error_names v :
  (forall e, convert v = Err e -> namesUnsafeNumber v e) /\
  (forall e, convertProperty convert v = Err e -> namesUnsafeNumber v e).
Proof.
  induction v as [ | | b | n | n | s | literal | iso | | | items IH | c fields IH ]
    using Value_induction;
    try (split; intros e; simpl;
         first [ discriminate | now destruct b | now destruct (negb _) ]).
  - assert (forall e, toSafeNumberOrThrow literal = Err e ->
                      namesUnsafeNumber (VLossless literal) e) as E.
    { intros e T. apply toSafeNumberOrThrow_error in T as [U ->].
      exists [], literal. repeat split; try done. constructor. }
    split; exact E.
  - split; intros e.
    + rewrite convert_array.
      destruct (eachIndexed _ 0%nat items) as [items' | e'] eqn:L; [ discriminate | ].
      intros [= <-]. apply eachIndexed_error in L as (i & a & Hi & Fi). simpl in Fi.
      apply rethrow_error in Fi as (cause & Fi & ->).
      apply (names_at_position items i a); [ exact Hi | ].
      apply list_elem_of_lookup_2 in Hi.
      exact (proj2 (proj1 (Forall_forall _ _) IH a Hi) _ Fi).
    + simpl. destruct (each convert items) as [items' | e'] eqn:L; [ discriminate | ].
      intros [= <-]. apply each_error in L as (a & Hin & Fa).
      apply list_elem_of_In in Hin.
      destruct (proj1 (list_elem_of_lookup _ _) Hin) as [i Hi].
      apply (names_in_item items i a); [ exact Hi | ].
      exact (proj1 (proj1 (Forall_forall _ _) IH a Hin) _ Fa).
  - assert (forall e, convert (VObject c fields) = Err e ->
                      namesUnsafeNumber (VObject c fields) e) as E.
    { intros e. rewrite convert_object.
      destruct (each _ fields) as [fields' | e'] eqn:L; [ discriminate | ].
      intros [= <-]. apply each_error in L as ([key v] & Hin & Fa). simpl in Fa.
      destruct (rethrow key (convertProperty convert v)) as [v' | e''] eqn:R;
        [ discriminate Fa | ].
      injection Fa as <-. apply rethrow_error in R as (cause & R & ->).
      apply (names_under_key c fields key v); [ exact Hin | ].
      apply list_elem_of_In in Hin.
      exact (proj2 (proj1 (Forall_forall _ _) IH (key, v) Hin) _ R). }
    split; exact E.
Qed.

(** A value holding an unsafe number is not converted. *)
Lemma convert_unsafe_fails v :
  someUnsafe v ->
  isOk (convert v) = false /\ isOk (convertProperty convert v) = false.
Proof.
  induction v as [ | | b | n | n | s | literal | iso | | | items IH | c fields IH ]
    using Value_induction;
    intros (path & lit & O & U); try (now inversion O).
  - inversion O; subst. simpl. unfold toSafeNumberOrThrow. now rewrite U.
  - inversion O as [ | | ? i v path' ? Hi Ov ]; subst.
    assert (Hv : someUnsafe v) by now exists path', lit.
    apply list_elem_of_lookup_2 in Hi as Hin.
    destruct (proj1 (Forall_forall _ _) IH v Hin Hv) as [Cv Pv].
    split.
    + rewrite convert_array.
      destruct (eachIndexed_fails
                  (fun i v => rethrow (index i) (convertProperty convert v)) items 0%nat)
        as (j & a & e & _ & _ & ->); [ | reflexivity ].
      exists i, v. split; [ exact Hi | ]. simpl.
      now destruct (convertProperty convert v).
    + simpl. destruct (each_fails convert items) as (a & e & _ & _ & ->); [ | reflexivity ].
      apply Exists_exists. exists v. now split.
  - inversion O as [ | ? ? key v path' ? Hin Ov | ]; subst.
    assert (Hv : someUnsafe v) by now exists path', lit.
    apply list_elem_of_In in Hin as Hin'.
    destruct (proj1 (Forall_forall _ _) IH (key, v) Hin' Hv) as [_ Pv]. simpl in Pv.
    assert (E : isOk (convert (VObject c fields)) = false).
    { rewrite convert_object.
      destruct (each_fails
                  (fun property =>
                     bind (rethrow (fst property) (convertProperty convert (snd property)))
                          (fun v' => Ok (fst property, v'))) fields)
        as (a & e & _ & _ & ->); [ | reflexivity ].
      apply Exists_exists. exists (key, v). split; [ exact Hin' | ]. simpl.
      now destruct (convertProperty convert v). }
    split; exact E.
Qed.

Lemma coerce_resolved v : resolved (coerce v) = true.
Proof.
  induction v as [ | | b | n | n | s | literal | iso | | | items IH | c fields IH ]
    using Value_induction; try reflexivity; simpl.
  - apply forallb_forall. intros x Hx. apply in_map_iff in Hx as (y & <- & Hy).
    apply list_elem_of_In in Hy. now apply (proj1 (Forall_forall _ _) IH y).
  - apply forallb_forall. intros x Hx. apply in_map_iff in Hx as (y & <- & Hy).
    apply list_elem_of_In in Hy. now apply (proj1 (Forall_forall _ _) IH y).
Qed.


End Numbers.


(** Parsing and printing a JSON text gives the text back. *)
Lemma stringify_parse j : stringify (parse j) = Some j.
Proof.
  revert j. fix IH 1. intros [ | b | literal | s | items | members ]; try reflexivity.
  - simpl. f_equal. f_equal. induction items as [ | x items IHitems]; [ reflexivity | ].
    simpl. now rewrite IH, IHitems.
  - simpl. f_equal. f_equal. induction members as [ | [k m] members IHm]; [ reflexivity | ].
    simpl. rewrite IH. f_equal. exact IHm.
Qed.

Lemma assoc_parse key members :
  assoc key
    ((fix each (l : list (string * json)) : list (string * Value) :=
        match l with
        | [] => []
        | (k, m) :: rest => (k, parse m) :: each rest
        end) members)
  = parse <$> assoc key members.
Proof.
  induction members as [ | [k m] members IH]; [ reflexivity | ].
  simpl. now destruct (String.eqb k key).
Qed.

(** What [losslessParse] does with a key on an object envelope. *)
Lemma array_key_extraction `{LosslessJson} fuel rt members dto key :
  key <> "" ->
  losslessParse (S fuel) rt (JObject members) dto (Some key) =
  match assoc key members with
  | Some located =>
      if truthy (parse located)
      then losslessParse fuel rt located dto None
      else Err (KeyNotFound key (Some (JObject members)))
  | None => Err (KeyNotFound key (Some (JObject members)))
  end.
Proof.
  intros Hkey. change (losslessParse (S fuel) rt (JObject members) dto (Some key)) with
    (let again := fun j d => losslessParse fuel rt j d None in
     let parsedLossless := parse (JObject members) in
     if truthyString (Some key) then
       bind (get parsedLossless key)
         (fun located =>
            if truthy located then reparse again located dto
            else Err (KeyNotFound key (stringify parsedLossless)))
     else if isArray parsedLossless then
       parseArrayWithAnnotations again (JObject members) (default LosslessDto dto)
     else
       match dto with
       | None => convertLosslessNumbersToNumberOrThrow parsedLossless
       | Some dto =>
           bind (parseWithAnnotations again rt parsedLossless dto)
             convertLosslessNumbersToNumberOrThrow
       end).
  cbv zeta. rewrite (stringify_parse (JObject members)).
  assert (truthyString (Some key) = true) as ->.
  { simpl. destruct (String.eqb key "") eqn:E; [ | reflexivity ].
    apply String.eqb_eq in E. contradiction. }
  unfold get. simpl entries. unfold bind at 2. unfold bind at 1.
  rewrite assoc_parse. destruct (assoc key members) as [located | ]; simpl.
  - destruct (truthy (parse located)); [ | reflexivity ].
    unfold reparse. now rewrite stringify_parse.
  - reflexivity.
Qed.

(** The two examples of the spec for the key extraction. *)
Lemma array_key_examples :
  losslessParse (H:=integers) 3 sdk
    (JObject [("jobs", JArray [JObject [("key", JNumber "1")]])]) None (Some "jobs")
    = Ok (VArray [VObject (Some LosslessDto) [("key", VNumber "1")]]) /\
  losslessParse (H:=integers) 3 sdk (JObject [("other", JArray [])]) None (Some "jobs")
    = Err (KeyNotFound "jobs" (Some (JObject [("other", JArray [])]))).
Proof. split; reflexivity. Qed.

(** C6 (the code at the failing input).  The envelope has the key [jobs],
    holding [null]: [losslessParse] does not recurse into the value, it
    throws the error it throws for an absent key. *)
Theorem present_key_reported_absent :
  assoc "jobs" [("jobs", JNull)] = Some JNull /\
  losslessParse (H:=integers) 3 sdk (JObject [("jobs", JNull)]) None (Some "jobs")
    = Err (KeyNotFound "jobs" (Some (JObject [("jobs", JNull)]))).
Proof. split; reflexivity. Qed.

(** A field decorated [Int64String] or [BigIntValue] leaves as a bare
    number. *)
Lemma int64_fields_emitted_bare rt c fields key s n :
  (hasType (getMetadata rt c key) INT64_STRING = true -> isNumber s = true ->
   stringifyProperty (newObj rt) rt (VObject c fields) key (VString s) = Ok (VLossless s)) /\
  (hasType (getMetadata rt c key) INT64_STRING = false ->
   hasType (getMetadata rt c key) INT64_BIGINT = true ->
   isNumber (pretty n) = true ->
   stringifyProperty (newObj rt) rt (VObject c fields) key (VBigInt n)
     = Ok (VLossless (pretty n))) /\
  stringify (VLossless s) = Some (JNumber s).
Proof.
  unfold stringifyProperty, newLosslessNumber. simpl. repeat split.
  - now intros -> ->.
  - now intros -> -> ->.
Qed.

(** An instance with a field under each of the other directives comes back
    from the wire as it left, and its [Int64String] and [BigIntValue] fields
    travel as bare numbers. *)
Lemma other_directives_round_trip :
  losslessStringify examples anInstance
    = Ok (JObject
            [("int64NumberField", JNumber max64);
             ("bigintField", JNumber max64);
             ("bigintArrayField", JArray [JNumber "9223372036854775806"; JNumber "-5"]);
             ("childDtoField", JObject [("someField", JString "a")]);
             ("childDtoArrayField",
              JArray [JObject [("someField", JString "b")];
                      JObject [("someField", JString "c")]]);
             ("normalField", JString "text");
             ("normalNumberField", JNumber "42")]) /\
  bind (losslessStringify examples anInstance)
    (fun text => losslessParse (H:=integers) 3 examples text (Some MyDtoRef) None)
    = Ok anInstance.
Proof. split; reflexivity. Qed.

(** C1 (the code at the failing input).  An instance whose field [sendTo]
    is decorated [Int64StringArray]: [losslessStringify] prints its elements
    as quoted strings, and [losslessParse] of that text into the same class
    throws instead of returning the instance. *)
Theorem int64_string_array_not_round_tripped :
  getMetadata messaging (Some DtoRef) "sendTo"
    = {| type := Some INT64_STRING_ARRAY; class := None |} /\
  losslessStringify messaging aMessage
    = Ok (JObject
            [("message", JString "hello"); ("userId", JNumber "7");
             ("sendTo", JArray [JString "2251799813737371"; JString "2251799813737372"])]) /\
  bind (losslessStringify messaging aMessage)
    (fun text => losslessParse (H:=integers) 3 messaging text (Some DtoRef) None)
    = Err (UnexpectedType "string" "Int64String" "sendTo" "number").
Proof. repeat split; reflexivity. Qed.

(** C3 (the code on every input).  The cache key does not depend on the
    shapes: a class constructor is left out of [JSON.stringify]'s output.
    So the second call of the job-class factory returns the class of the
    first call and changes nothing, for the same shapes and for any other
    shapes alike. *)
Theorem factory_ignores_shapes pg inputVariableDto customHeadersDto otherVariables otherHeaders :
  let first := createSpecializedRestApiJobClass pg inputVariableDto customHeadersDto in
  let second := createSpecializedRestApiJobClass (snd first) otherVariables otherHeaders in
  fst second = fst first /\ snd second = snd first /\
  JSON_stringify [("inputVariableDto", AClass inputVariableDto);
                  ("customHeadersDto", AClass customHeadersDto)]
  = JSON_stringify [("inputVariableDto", AClass otherVariables);
                    ("customHeadersDto", AClass otherHeaders)].
Proof.
  cbv zeta. unfold createSpecializedRestApiJobClass.
  change (JSON_stringify [("inputVariableDto", AClass inputVariableDto);
                          ("customHeadersDto", AClass customHeadersDto)]) with "{}".
  change (JSON_stringify [("inputVariableDto", AClass otherVariables);
                          ("customHeadersDto", AClass otherHeaders)]) with "{}".
  destruct (jobClasses pg !! "{}") as [cached | ] eqn:L; simpl.
  - rewrite L. now repeat split.
  - rewrite lookup_insert_eq. now repeat split.
Qed.


(** C4 (the code at the failing input, the repository's test
    parse-jobs.ts).  The factory records the two shapes through
    [Reflect.defineMetadata]; [getMetadata], which the codec consults, finds
    no entry for [variables] or [customHeaders] on the returned class (only
    what [RestApiJob] itself decorates, such as [key]).  Parsing the test's
    response with the class leaves [variables.bigValue] and
    [customHeaders.bigHeader] as native numbers, where the shapes declare
    [Int64String]. *)
Theorem factory_metadata_unseen_by_codec :
  let made := createSpecializedRestApiJobClass parseJobsTest VariablesRef CustomHeadersRef in
  let myJob := fst made in
  let rt := runtime (snd made) in
  let response := losslessParse (H:=integers) 4 rt jsonString (Some myJob) (Some "jobs") in
  reflected rt = [("child:class", VariablesRef, myJob, "variables");
                  ("child:class", CustomHeadersRef, myJob, "customHeaders")] /\
  getMetadata rt (Some myJob) "variables" = noMetadata /\
  getMetadata rt (Some myJob) "customHeaders" = noMetadata /\
  getMetadata rt (Some myJob) "key" = {| type := Some INT64_STRING; class := None |} /\
  getMetadata rt (Some VariablesRef) "bigValue" = {| type := Some INT64_STRING; class := None |} /\
  at0 response "variables" "bigValue" = Some (VNumber "3") /\
  at0 response "customHeaders" "bigHeader" = Some (VNumber "1") /\
  at0 response "customHeaders" "smallHeader" = Some (VNumber "2").
Proof. vm_compute. repeat split; reflexivity. Qed.

End CodecFacts.

Module DispatchFacts.
Import Worker Lifecycle.
Local Open Scope list_scope.

Lemma failing_delete_fail (h : list (Job * Await)) : forall i job,
  h !! i = Some (job, AtFail) ->
  map fst (List.filter atFail h) ≡ₚ job :: map fst (List.filter atFail (delete i h)).
Proof.
  induction h as [ | [j a] h IH]; intros i job L; [ now rewrite lookup_nil in L | ].
  destruct i as [ | i]; simpl in L.
  - injection L as -> ->. reflexivity.
  - simpl. destruct a; unfold atFail at 1 3; simpl.
    + now apply IH.
    + rewrite (IH i job L). apply Permutation_swap.
Qed.

Lemma failing_delete_handler (h : list (Job * Await)) : forall i job,
  h !! i = Some (job, AtHandler) ->
  List.filter atFail (delete i h) = List.filter atFail h.
Proof.
  induction h as [ | [j a] h IH]; intros i job L; [ now rewrite lookup_nil in L | ].
  destruct i as [ | i]; simpl in L.
  - injection L as -> ->. reflexivity.
  - simpl. now rewrite (IH i job L).
Qed.

Lemma failing_insert (h : list (Job * Await)) : forall i job,
  h !! i = Some (job, AtHandler) ->
  map fst (List.filter atFail (<[i := (job, AtFail)]> h))
    ≡ₚ job :: map fst (List.filter atFail h).
Proof.
  induction h as [ | [j a] h IH]; intros i job L; [ now rewrite lookup_nil in L | ].
  destruct i as [ | i]; simpl in L.
  - injection L as -> ->. reflexivity.
  - simpl. destruct a; unfold atFail at 1 3; simpl.
    + now apply IH.
    + rewrite (IH i job L). apply Permutation_swap.
Qed.

Lemma failing_activated (h : list (Job * Await)) jobs :
  List.filter atFail (h ++ map (fun job => (job, AtHandler)) jobs) = List.filter atFail h.
Proof.
  rewrite List.filter_app.
  assert (E : List.filter atFail (map (fun job => (job, AtHandler)) jobs) = []).
  { induction jobs as [ | j jobs IH]; [ reflexivity | exact IH ]. }
  rewrite E. apply app_nil_r.
Qed.

Lemma jobs_delete (h : list (Job * Await)) i job await :
  h !! i = Some (job, await) -> map fst h ≡ₚ job :: map fst (delete i h).
Proof. intros L. now rewrite (delete_Permutation h i _ L) at 1. Qed.

Lemma failing_sublist (h : list (Job * Await)) :
  map fst (List.filter atFail h) ⊆+ map fst h.
Proof.
  induction h as [ | [j a] h IH]; [ reflexivity | ].
  simpl. destruct a; unfold atFail at 1; simpl.
  - now apply submseteq_cons.
  - now apply submseteq_skip.
Qed.

Lemma conserved_finally st i job await how received :
  handling st !! i = Some (job, await) ->
  conserved st received -> conserved (finally st i job how) received.
Proof.
  intros L [P F]. unfold conserved, failing, finally in *. simpl.
 
  rewrite !map_app. simpl. split.
  - rewrite <- P. rewrite (jobs_delete _ _ _ _ L).
    rewrite (Permutation_app_comm (map fst (finished st)) [job]). simpl.
    now rewrite Permutation_middle.
  - etransitivity; [ exact F | ].
    destruct await.
    + rewrite (failing_delete_handler _ _ _ L).
      apply submseteq_skips_l, submseteq_inserts_r. reflexivity.
    + rewrite (failing_delete_fail _ _ _ L).
      rewrite (Permutation_app_comm (map fst (finished st)) [job]). simpl.
      now rewrite Permutation_middle.
Qed.

Lemma conserved_step cfg st e received :
  conserved st received ->
  conserved (Worker.step cfg st e) (received ++ dispatched cfg st [e]).
Proof.
  intros C. destruct e as [ | i jobs | i error | i how | i how ]; simpl;
    rewrite ?app_nil_r.
  - unfold poll. simpl. now destruct (_ <=? _)%Z.
  - unfold activated. destruct (polling st !! i); [ | now rewrite app_nil_r ].
    destruct C as [P F]. unfold conserved, failing in *. simpl. split.
    + rewrite map_app, map_map. simpl. rewrite map_id. rewrite <- P.
      rewrite <- !app_assoc. apply Permutation_app_head, Permutation_app_comm.
    + now rewrite failing_activated.
  - unfold activationFailed. now destruct (polling st !! i).
  - unfold handlerSettles.
    destruct (handling st !! i) as [[job [ | ]] | ] eqn:L; try exact C.
    destruct how as [error | ]; [ | now apply (conserved_finally _ _ _ AtHandler) ].
    destruct (failRequest job error); [ | now apply (conserved_finally _ _ _ AtHandler) ].
    destruct C as [P F]. unfold conserved, failing in *. simpl. split.
    + rewrite <- P. f_equiv.
      change (map fst) with (fmap (M:=list) (@fst Job Await)).
      rewrite list_fmap_insert. simpl. rewrite list_insert_id; [ reflexivity | ].
      now rewrite list_lookup_fmap, L.
    + rewrite map_app. simpl. rewrite (failing_insert _ _ _ L). simpl.
      rewrite (Permutation_app_comm _ [job]). simpl. now apply submseteq_skip.
  - unfold failSettles.
    destruct (handling st !! i) as [[job [ | ]] | ] eqn:L; try exact C.
    now apply (conserved_finally _ _ _ AtFail).
Qed.

Lemma conserved_run cfg es : forall st received,
  conserved st received ->
  conserved (Worker.run cfg st es) (received ++ dispatched cfg st es).
Proof.
  unfold Worker.run. induction es as [ | e es IH]; intros st received C; simpl.
  - now rewrite app_nil_r.
  - rewrite app_assoc. apply IH.
    assert (S := conserved_step cfg st e received C). simpl in S.
    now rewrite app_nil_r in S.
Qed.

(** X3.  Every job an activation returns is handed to the job handler once: the
    jobs being handled and the jobs whose handling has ended are, counted
    with repetitions, the jobs received.  [job.fail] is called at most once
    per job received, and for no other job. *)
Theorem every_job_is_handled_once cfg es :
  let st := Worker.run cfg created es in
  map fst (handling st) ++ map fst (finished st) ≡ₚ dispatched cfg created es /\
  map fst (failed st) ⊆+ dispatched cfg created es.
Proof.
  simpl. assert (C : conserved created []) by (split; reflexivity).
  apply (conserved_run cfg es) in C. simpl in C. destruct C as [P F].
  split; [ exact P | ]. rewrite <- P. etransitivity; [ exact F | ].
  apply submseteq_skips_r, failing_sublist.
Qed.

(** One job at a time, each poll after the answer to the one before. *)
Lemma capacity_witness :
  (currentlyActiveJobCount
     (Worker.run oneAtATime created
        [Tick; Activated 0 [firstJob]; Tick; HandlerSettles 0 None; Tick;
         Activated 0 [secondJob]])
   <= maxJobsToActivate oneAtATime)%Z.
Proof.
  apply (WorkerFacts.capacity_without_overlap oneAtATime
           [Tick; Activated 0 [firstJob]; Tick; HandlerSettles 0 None; Tick;
            Activated 0 [secondJob]] created); [ | reflexivity | reflexivity ].
  unfold withinCapacity. simpl. lia.
Defined.

End DispatchFacts.

Module LifecycleFacts.
Import Worker Lifecycle.
Local Open Scope list_scope.

Lemma state_step_intervals cfg m e :
  isStart e = false -> isStop e = false ->
  intervals (step cfg m e) = intervals m /\ nextHandle (step cfg m e) = nextHandle m /\
  loopHandle (step cfg m e) = loopHandle m.
Proof.
  destruct e as [ | h | d | k | k | e]; try discriminate; intros _ _; simpl.
  - unfold pollInterval. now destruct (bool_decide _).
  - unfold wait. destruct (deadlineOf m k); [ | easy ]. now destruct (_ =? _)%Z.
  - unfold deadline. now destruct (deadlineOf m k).
  - now destruct e.
Qed.

Lemma stop_intervals m d :
  intervals (stop m d) = clearInterval (loopHandle m) (intervals m) /\
  nextHandle (stop m d) = nextHandle m /\ loopHandle (stop m d) = loopHandle m.
Proof. unfold stop. simpl. now destruct (_ =? _)%Z. Qed.

Lemma length_filter_one (l : list nat) h :
  NoDup l -> length l <= S (length (List.filter (fun h' => negb (Nat.eqb h' h)) l)).
Proof.
  induction 1 as [ | x l N _ IH]; simpl; [ lia | ].
  destruct (Nat.eqb_spec x h) as [-> | D]; simpl; [ | lia ].
  assert (E : List.filter (fun h' => negb (Nat.eqb h' h)) l = l).
  { clear IH. induction l as [ | y l IH]; [ reflexivity | ]. simpl.
    destruct (Nat.eqb_spec y h) as [-> | D]; simpl.
    - exfalso. apply N. now left.
    - f_equal. apply IH. intros I. apply N. now right. }
  rewrite E. lia.
Qed.

Lemma handlesFresh_step cfg m e : handlesFresh m -> handlesFresh (step cfg m e).
Proof.
  intros [N F]. unfold handlesFresh.
  destruct (isStart e) eqn:S1; [ destruct e; try discriminate | ].
  - simpl. split.
    + apply NoDup_app. repeat split; [ exact N | | apply NoDup_singleton ].
      intros h I [<- | []]%list_elem_of_In%in_inv.
      apply (proj1 (Forall_forall _ _) F) in I. lia.
    + apply Forall_app. split.
      * eapply Forall_impl; [ exact F | ]. simpl. lia.
      * apply Forall_singleton. lia.
  - destruct (isStop e) eqn:S2; [ destruct e; try discriminate | ].
    + change (step cfg m (Stop deadlineMs)) with (stop m deadlineMs).
      destruct (stop_intervals m deadlineMs) as (-> & -> & _).
      unfold clearInterval. destruct (loopHandle m); [ | easy ]. split.
      * apply NoDup_ListNoDup, List.NoDup_filter. now apply NoDup_ListNoDup.
      * apply Forall_forall. intros h [I _]%list_elem_of_In%filter_In.
        apply (proj1 (Forall_forall _ _) F). now apply list_elem_of_In.
    + destruct (state_step_intervals cfg m e S1 S2) as (-> & -> & _). now split.
Qed.

Lemma handlesFresh_constructor cfg autoStart : handlesFresh (constructor cfg autoStart).
Proof.
  unfold constructor, handlesFresh. destruct (default true autoStart); simpl.
  - split; [ apply NoDup_singleton | apply Forall_singleton; lia ].
  - split; [ apply NoDup_nil_2 | apply Forall_nil_2 ].
Qed.

Lemma loops_run cfg es : forall m,
  handlesFresh m ->
  length (intervals m) + length (List.filter isStart es)
    <= length (intervals (run cfg m es)) + length (List.filter isStop es).
Proof.
  unfold run. induction es as [ | e es IH]; intros m Fm; simpl; [ lia | ].
  specialize (IH (step cfg m e) (handlesFresh_step cfg m e Fm)).
  destruct (isStart e) eqn:S1; [ destruct e; try discriminate | ].
  - simpl in *. rewrite length_app in IH. simpl in IH. lia.
  - destruct (isStop e) eqn:S2; [ destruct e; try discriminate | ].
    + change (step cfg m (Stop deadlineMs)) with (stop m deadlineMs) in *.
      destruct (stop_intervals m deadlineMs) as (E & _ & _). simpl.
      assert (L : length (intervals m) <= S (length (intervals (stop m deadlineMs)))).
      { rewrite E. unfold clearInterval. destruct (loopHandle m); [ | lia ].
        apply length_filter_one, Fm. }
      lia.
    + destruct (state_step_intervals cfg m e S1 S2) as (E & _ & _).
      rewrite E in IH. lia.
Qed.

(** X4.  Each [start()] sets a poll loop and each [stop()] clears at most one,
    the latest: a worker started more often than it was stopped still has
    poll loops, and each of them goes on polling. *)
Theorem stop_clears_one_poll_loop cfg autoStart es :
  let m := run cfg (constructor cfg autoStart) es in
  starts autoStart es - stopCalls es <= length (intervals m) /\
  forall handle, In handle (intervals m) ->
    emitted (state (step cfg m (PollInterval handle))) =
      emitted (state m) ++
        [Poll (currentlyActiveJobCount (state m)) (maxJobsToActivate cfg) (worker cfg)].
Proof.
  simpl. split.
  - assert (L := loops_run cfg es _ (handlesFresh_constructor cfg autoStart)).
    unfold starts, stopCalls. unfold constructor in L at 1.
    destruct (default true autoStart); simpl in *; lia.
  - intros handle I. simpl. unfold pollInterval.
    rewrite bool_decide_eq_true_2 by now apply list_elem_of_In.
    simpl. unfold poll. simpl. now destruct (_ <=? _)%Z.
Qed.

Lemma oneLoop_run cfg es : forall m,
  forallb (fun e => negb (isStart e)) es = true ->
  oneLoop m -> oneLoop (run cfg m es).
Proof.
  unfold run. induction es as [ | e es IH]; intros m N O; simpl; [ exact O | ].
  simpl in N. apply andb_prop in N as [N1 N2]. apply IH; [ exact N2 | ].
  apply negb_true_iff in N1.
  destruct (isStop e) eqn:S2; [ destruct e; try discriminate | ].
  - change (step cfg m (Stop deadlineMs)) with (stop m deadlineMs).
    destruct (stop_intervals m deadlineMs) as (E1 & _ & E3). unfold oneLoop.
    rewrite E1, E3. destruct O as [-> | (h & -> & ->)].
    + left. unfold clearInterval. now destruct (loopHandle m).
    + left. simpl. now rewrite Nat.eqb_refl.
  - destruct (state_step_intervals cfg m e N1 S2) as (E1 & _ & E3).
    unfold oneLoop. now rewrite E1, E3.
Qed.

Lemma quiet_settle m k how notifications load :
  quiet m notifications load -> quiet (settle m k how) notifications load.
Proof. easy. Qed.

Lemma quiet_step cfg m e notifications load :
  isStart e = false ->
  quiet m notifications load -> quiet (step cfg m e) notifications load.
Proof.
  intros N (I & P & E & C).
  destruct e as [ | h | d | k | k | e]; try discriminate; simpl.
  - unfold pollInterval. rewrite I. now rewrite bool_decide_eq_false_2 by apply not_elem_of_nil.
  - unfold stop. simpl. rewrite I.
    assert (X : clearInterval (loopHandle m) [] = []) by now destruct (loopHandle m).
    rewrite X. now destruct (_ =? _)%Z.
  - unfold wait. destruct (deadlineOf m k); [ | easy ]. now destruct (_ =? _)%Z.
  - unfold deadline. now destruct (deadlineOf m k).
  - destruct e as [ | i jobs | i error | i how | i how ]; [ easy | | | | ];
      unfold quiet; simpl.
    + unfold activated. rewrite P, lookup_nil. now rewrite P.
    + unfold activationFailed. rewrite P, lookup_nil. now rewrite P.
    + unfold handlerSettles.
      destruct (handling (state m) !! i) as [[job [ | ]] | ]; try easy.
      destruct how as [error | ]; [ | simpl; repeat split; try easy; lia ].
      destruct (failRequest job error); simpl; repeat split; try easy; lia.
    + unfold failSettles.
      destruct (handling (state m) !! i) as [[job [ | ]] | ]; try easy.
      simpl; repeat split; try easy; lia.
Qed.

Lemma quiet_run cfg es notifications load : forall m,
  forallb (fun e => negb (isStart e)) es = true ->
  quiet m notifications load -> quiet (run cfg m es) notifications load.
Proof.
  unfold run. induction es as [ | e es IH]; intros m N Q; simpl; [ exact Q | ].
  simpl in N. apply andb_prop in N as [N1 N2]. apply IH; [ exact N2 | ].
  apply quiet_step; [ now apply negb_true_iff | exact Q ].
Qed.

Lemma oneLoop_constructor cfg autoStart : oneLoop (constructor cfg autoStart).
Proof.
  unfold constructor. destruct (default true autoStart); [ right | now left ].
  now exists 0.
Qed.

(** X5.  A worker that was started once (by its constructor, or not at all) and
    has no activation under way when [stop()] is called is stopped for
    good: whatever happens afterwards, short of a new [start()], no poll
    loop runs, no [poll] is emitted, no activation is sent and the number of
    active jobs only goes down. *)
Theorem stop_ends_polling cfg autoStart es deadlineMs after :
  forallb (fun e => negb (isStart e)) es = true ->
  forallb (fun e => negb (isStart e)) after = true ->
  let m := run cfg (constructor cfg autoStart) es in
  polling (state m) = [] ->
  let m' := run cfg (stop m deadlineMs) after in
  intervals m' = [] /\ polling (state m') = [] /\
  emitted (state m') = emitted (state m) /\
  (currentlyActiveJobCount (state m') <= currentlyActiveJobCount (state m))%Z.
Proof.
  intros N1 N2 m P m'. subst m'.
  apply quiet_run; [ exact N2 | ].
  assert (O : oneLoop m) by (apply oneLoop_run; [ exact N1 | apply oneLoop_constructor ]).
  change (stop m deadlineMs) with (step cfg m (Stop deadlineMs)).
  assert (Q : intervals (stop m deadlineMs) = []).
  { destruct (stop_intervals m deadlineMs) as (-> & _ & _).
    destruct O as [-> | (h & -> & ->)]; simpl.
    - now destruct (loopHandle m).
    - now rewrite Nat.eqb_refl. }
  unfold quiet. simpl. rewrite Q. unfold stop. simpl.
  destruct (_ =? _)%Z; simpl; repeat split; try easy; lia.
Qed.

Lemma stop_ends_polling_witness :
  let m := run oneAtATime (constructor oneAtATime None)
             [Settles (Activated 0 [firstJob])] in
  let m' := run oneAtATime (stop m 30000)
              [PollInterval 0; Settles (HandlerSettles 0 None); Wait 0] in
  intervals m' = [] /\ polling (state m') = [] /\
  emitted (state m') = emitted (state m) /\
  (currentlyActiveJobCount (state m') <= currentlyActiveJobCount (state m))%Z.
Proof.
  apply (stop_ends_polling oneAtATime None [Settles (Activated 0 [firstJob])] 30000
           [PollInterval 0; Settles (HandlerSettles 0 None); Wait 0]); reflexivity.
Defined.

Lemma not_pending_kept (d : list (nat * Z)) k :
  ~ In k (map fst d) -> List.filter (fun x => negb (Nat.eqb (fst x) k)) d = d.
Proof.
  induction d as [ | [k' z] d IH]; intros N; [ reflexivity | ]. simpl in *.
  destruct (Nat.eqb_spec k' k) as [-> | D]; [ exfalso; apply N; now left | ].
  simpl. f_equal. apply IH. intros I. apply N. now right.
Qed.

Lemma pending_removed (d : list (nat * Z)) k :
  In k (map fst d) -> NoDup (map fst d) ->
  map fst d ≡ₚ k :: map fst (List.filter (fun x => negb (Nat.eqb (fst x) k)) d).
Proof.
  induction d as [ | [k' z] d IH]; intros I N; [ destruct I | ].
  simpl in *. apply NoDup_cons in N as [N1 N2].
  destruct (Nat.eqb_spec k' k) as [-> | D]; simpl.
  - rewrite not_pending_kept; [ reflexivity | ]. intros I'. now apply N1, list_elem_of_In.
  - destruct I as [-> | I]; [ easy | ]. rewrite (IH I N2) at 1. apply Permutation_swap.
Qed.

Lemma deadlineOf_pending m k deadlineMs :
  deadlineOf m k = Some deadlineMs -> In k (map fst (draining m)).
Proof.
  unfold deadlineOf. destruct (List.find _ _) as [[k' z] | ] eqn:F; [ | discriminate ].
  intros _. apply List.find_some in F as [I E]. apply Nat.eqb_eq in E. simpl in E. subst k'.
  now apply (in_map fst) in I.
Qed.

Lemma accounted_settle m k how :
  In k (map fst (draining m)) -> accounted m -> accounted (settle m k how).
Proof.
  intros I (N & B & E). unfold accounted, settle. simpl.
  assert (P : map fst (draining m) ++ map fst (stops m) ≡ₚ
              map fst (List.filter (fun d => negb (Nat.eqb (fst d) k)) (draining m)) ++
              map fst (stops m ++ [(k, how)])).
  { rewrite (pending_removed _ _ I) at 1 by now apply NoDup_app in N as [N _].
    rewrite map_app. simpl. rewrite (Permutation_app_comm (map fst (stops m)) [k]).
    simpl. now rewrite Permutation_middle. }
  repeat split.
  - now rewrite <- P.
  - intros L. apply B in L. apply list_elem_of_In. rewrite <- P. now apply list_elem_of_In.
  - intros L. apply B. apply list_elem_of_In. rewrite P. now apply list_elem_of_In.
  - rewrite List.filter_app, length_app. simpl. destruct how; simpl; lia.
Qed.

Lemma accounted_step cfg m e : accounted m -> accounted (step cfg m e).
Proof.
  intros A. destruct e as [ | h | d | k | k | e]; simpl.
  - exact A.
  - unfold pollInterval. now destruct (bool_decide _).
  - destruct A as (N & B & E).
    assert (Fresh : ~ In (nextStop m) (map fst (draining m) ++ map fst (stops m))).
    { intros I. apply B in I. lia. }
    unfold stop. simpl. destruct (_ =? _)%Z; unfold accounted, settle; simpl.
    + rewrite not_pending_kept by (intros I; apply Fresh, in_or_app; now left).
      rewrite map_app, List.filter_app, length_app. simpl. rewrite app_assoc. repeat split.
      * apply NoDup_app. repeat split; [ exact N | | apply NoDup_singleton ].
        intros x I [<- | []]%list_elem_of_In%in_inv. now apply Fresh, list_elem_of_In.
      * intros L. apply in_or_app. destruct (Nat.eq_dec k (nextStop m)) as [-> | D];
          [ right; now left | left; apply B; lia ].
      * intros [I | [<- | []]]%in_app_or; [ apply B in I | ]; lia.
      * lia.
    + rewrite map_app. simpl. repeat split.
      * rewrite <- app_assoc. simpl. rewrite <- Permutation_middle.
        apply NoDup_cons. split; [ | exact N ].
        intros I. now apply Fresh, list_elem_of_In.
      * intros L. rewrite <- app_assoc. simpl. apply in_or_app.
        destruct (Nat.eq_dec k (nextStop m)) as [-> | D].
        -- right. now left.
        -- assert (I : In k (map fst (draining m) ++ map fst (stops m))) by (apply B; lia).
           apply in_app_or in I as [I | I]; [ now left | right; now right ].
      * rewrite <- app_assoc. simpl.
        intros [I | [<- | I]]%in_app_or; [ | lia | ].
        -- assert (L : k < nextStop m) by (apply B, in_or_app; now left). lia.
        -- assert (L : k < nextStop m) by (apply B, in_or_app; now right). lia.
      * exact E.
  - unfold wait. destruct (deadlineOf m k) eqn:D; [ | exact A ].
    destruct (_ =? _)%Z; [ | exact A ].
    apply accounted_settle; [ | exact A ]. now apply (deadlineOf_pending _ _ z).
  - unfold deadline. destruct (deadlineOf m k) eqn:D; [ | exact A ].
    apply accounted_settle; [ | exact A ]. now apply (deadlineOf_pending _ _ z).
  - now destruct e.
Qed.

Lemma nextStop_step cfg m e :
  nextStop (step cfg m e) = nextStop m + (if isStop e then 1 else 0).
Proof.
  destruct e as [ | h | d | k | k | e]; simpl; try lia.
  - unfold pollInterval. destruct (bool_decide _); simpl; lia.
  - unfold stop. simpl. destruct (_ =? _)%Z; simpl; lia.
  - unfold wait. destruct (deadlineOf m k); [ | lia ]. destruct (_ =? _)%Z; simpl; lia.
  - unfold deadline. destruct (deadlineOf m k); simpl; lia.
  - destruct e; simpl; lia.
Qed.

(** X6.  The promise of a [stop()] call settles at most once: after any run,
    each of the calls made so far is either still waiting, with its timers
    armed, or has settled, and none is both or is settled twice; [stop] has
    been emitted once for each call that resolved. *)
Theorem stop_settles_once cfg autoStart es :
  let m := run cfg (constructor cfg autoStart) es in
  nextStop m = stopCalls es /\
  NoDup (map fst (draining m) ++ map fst (stops m)) /\
  (forall k, k < stopCalls es <-> In k (map fst (draining m) ++ map fst (stops m))) /\
  stopEmitted m = length (List.filter isDrained (stops m)).
Proof.
  simpl.
  assert (G : forall m n, accounted m -> nextStop m = n ->
            accounted (run cfg m es) /\ nextStop (run cfg m es) = n + stopCalls es).
  { unfold run, stopCalls. induction es as [ | e es IH]; intros m n A E; simpl.
    - split; [ exact A | lia ].
    - destruct (IH (step cfg m e) (n + (if isStop e then 1 else 0))) as [A' E'].
      + now apply accounted_step.
      + rewrite nextStop_step. lia.
      + split; [ exact A' | ]. rewrite E'. destruct (isStop e); simpl; lia. }
  destruct (G (constructor cfg autoStart) 0) as [(N & B & E) S].
  - unfold constructor. destruct (default true autoStart); unfold accounted; simpl;
      (repeat split; [ apply NoDup_nil_2 | lia | easy ]).
  - unfold constructor. now destruct (default true autoStart).
  - simpl in S. repeat split; try easy.
    + intros L. apply B. lia.
    + intros I. apply B in I. lia.
Qed.

Lemma run_snoc cfg m es e : run cfg m (es ++ [e]) = step cfg (run cfg m es) e.
Proof. unfold run. now rewrite fold_left_app. Qed.

Lemma resolved_by_step cfg m e k :
  In (k, Drained) (stops (step cfg m e)) -> ~ In (k, Drained) (stops m) ->
  (e = Wait k \/ exists deadlineMs, e = Stop deadlineMs) /\
  currentlyActiveJobCount (state (step cfg m e)) = 0%Z.
Proof.
  intros I N. destruct e as [ | h | d | k' | k' | e]; simpl in *.
  - easy.
  - unfold pollInterval in I. now destruct (bool_decide _).
  - unfold stop in *. simpl in *. destruct (_ =? _)%Z eqn:Z; simpl in *; [ | easy ].
    split; [ right; now exists d | now apply Z.eqb_eq ].
  - unfold wait in *. destruct (deadlineOf m k'); [ | easy ].
    destruct (_ =? _)%Z eqn:Z; [ | easy ]. simpl in *.
    apply in_app_or in I as [I | [[= <-] | []]]; [ easy | ].
    split; [ now left | now apply Z.eqb_eq ].
  - unfold deadline in *. destruct (deadlineOf m k'); [ | easy ]. simpl in *.
    now apply in_app_or in I as [I | [[=] | []]].
  - now destruct e.
Qed.

(** X7.  The promise of a [stop()] call resolves only at a moment when no job is
    active: the call itself finds the counter at zero, or a later check of
    its [wait] interval does. *)
Theorem stop_resolves_when_drained cfg autoStart es k :
  In (k, Drained) (stops (run cfg (constructor cfg autoStart) es)) ->
  exists before e after,
    es = before ++ e :: after /\
    (e = Wait k \/ exists deadlineMs, e = Stop deadlineMs) /\
    ~ In (k, Drained) (stops (run cfg (constructor cfg autoStart) before)) /\
    let m := run cfg (constructor cfg autoStart) (before ++ [e]) in
    In (k, Drained) (stops m) /\ currentlyActiveJobCount (state m) = 0%Z.
Proof.
  induction es as [ | e es IH] using rev_ind; intros I.
  - exfalso. unfold constructor in I. simpl in I. now destruct (default true autoStart).
  - rewrite run_snoc in I.
    destruct (decide ((k, Drained) ∈ stops (run cfg (constructor cfg autoStart) es)))
      as [Before%list_elem_of_In | New].
    + destruct (IH Before) as (before & e' & after & -> & K & N & R).
      exists before, e', (after ++ [e]).
      split; [ now rewrite <- app_assoc | ]. exact (conj K (conj N R)).
    + assert (New' : ~ In (k, Drained) (stops (run cfg (constructor cfg autoStart) es)))
        by (intros X; now apply New, list_elem_of_In).
      destruct (resolved_by_step cfg _ e k I New') as [K Z].
      exists es, e, []. split; [ reflexivity | ]. split; [ exact K | ].
      split; [ exact New' | ]. simpl. rewrite run_snoc. now split.
Qed.

Lemma stop_resolves_witness :
  exists before e after,
    [Settles (Activated 0 [firstJob]); Stop 30000; Settles (HandlerSettles 0 None); Wait 0]
      = before ++ e :: after /\
    (e = Wait 0 \/ exists deadlineMs, e = Stop deadlineMs) /\
    ~ In (0, Drained) (stops (run oneAtATime (constructor oneAtATime None) before)) /\
    let m := run oneAtATime (constructor oneAtATime None) (before ++ [e]) in
    In (0, Drained) (stops m) /\ currentlyActiveJobCount (state m) = 0%Z.
Proof.
  apply (stop_resolves_when_drained oneAtATime None
           [Settles (Activated 0 [firstJob]); Stop 30000;
            Settles (HandlerSettles 0 None); Wait 0] 0).
  vm_compute. now left.
Defined.

End LifecycleFacts.

Module OAuthSetupFacts.
Import OAuth OAuthSetup.
Local Open Scope list_scope.

Lemma requireConfiguration_ok config key :
  isOk (requireConfiguration config key) = truthyString config.
Proof.
  unfold requireConfiguration, truthyString.
  destruct config as [s | ]; [ | reflexivity ]. now destruct (String.eqb s "").
Qed.

(** X8.  The constructor accepts a configuration exactly when the token endpoint
    is set and one of the two credential pairs is complete. *)
Theorem constructor_accepts config :
  isOk (constructor config) =
    truthyString (CAMUNDA_OAUTH_URL config) &&
    (applicationPair config || consolePair config).
Proof.
  unfold constructor, applicationPair, consolePair.
  rewrite <- (requireConfiguration_ok (CAMUNDA_OAUTH_URL config) "CAMUNDA_OAUTH_URL").
  destruct (requireConfiguration _ _) as [url | e]; [ | reflexivity ]. simpl.
  destruct (truthyString (ZEEBE_CLIENT_ID config)),
           (truthyString (ZEEBE_CLIENT_SECRET config)),
           (truthyString (CAMUNDA_CONSOLE_CLIENT_ID config)),
           (truthyString (CAMUNDA_CONSOLE_CLIENT_SECRET config)); reflexivity.
Qed.

(** X9.  Which credentials an accepted configuration lets [getToken] select: the
    Console pair for the Console and Modeler audiences of the cloud
    endpoint, the application pair otherwise; a call whose pair is
    incomplete is rejected at once.  So a provider accepted with the Console
    pair only, for an endpoint other than the cloud's, rejects every
    call. *)
Theorem accepted_configuration_credentials `{Platform} config cfg a :
  constructor config = Ok cfg ->
  isCamundaSaaS cfg =
    includes (interpolate (CAMUNDA_OAUTH_URL config)) "https://login.cloud.camunda.io/oauth/token" /\
  isOk (selectCredentials cfg a) =
    (if isCamundaSaaS cfg && (audience_eqb a CONSOLE || audience_eqb a MODELER)
     then consolePair config else applicationPair config) /\
  (forall w now,
     isOk (selectCredentials cfg a) = false ->
     exists key, getToken cfg w a now = giveBack w (Rejected (MissingConfiguration key))) /\
  (isCamundaSaaS cfg = false -> applicationPair config = false ->
   forall b, isOk (selectCredentials cfg b) = false).
Proof.
  unfold constructor. 
  destruct (requireConfiguration (CAMUNDA_OAUTH_URL config) _) as [url | e] eqn:U;
    [ | discriminate ].
  assert (Eu : interpolate (CAMUNDA_OAUTH_URL config) = url).
  { unfold requireConfiguration in U. destruct (CAMUNDA_OAUTH_URL config) as [s | ];
      [ | discriminate U ]. destruct (String.eqb s ""); [ discriminate U | ].
    now injection U as ->. }
  destruct (_ && _); [ discriminate | ]. destruct (_ && _); [ discriminate | ].
  destruct (negb _); [ discriminate | ]. intros [= <-].
  assert (S : forall b,
    isOk (selectCredentials
      {| authServerUrl := url; clientId := ZEEBE_CLIENT_ID config;
         clientSecret := ZEEBE_CLIENT_SECRET config;
         consoleClientId := CAMUNDA_CONSOLE_CLIENT_ID config;
         consoleClientSecret := CAMUNDA_CONSOLE_CLIENT_SECRET config;
         scope := CAMUNDA_TOKEN_SCOPE config;
         audienceMap := fun a =>
           match a with
           | OPERATE => CAMUNDA_OPERATE_OAUTH_AUDIENCE config
           | ZEEBE => CAMUNDA_ZEEBE_OAUTH_AUDIENCE config
           | OPTIMIZE => CAMUNDA_OPTIMIZE_OAUTH_AUDIENCE config
           | TASKLIST => CAMUNDA_TASKLIST_OAUTH_AUDIENCE config
           | CONSOLE => CAMUNDA_CONSOLE_OAUTH_AUDIENCE config
           | MODELER => CAMUNDA_MODELER_OAUTH_AUDIENCE config
           end;
         camundaModelerOauthAudience := CAMUNDA_MODELER_OAUTH_AUDIENCE config;
         isCamundaSaaS := includes url "https://login.cloud.camunda.io/oauth/token";
         refreshWindow := CAMUNDA_OAUTH_TOKEN_REFRESH_THRESHOLD_MS config |} b) =
    (if includes url "https://login.cloud.camunda.io/oauth/token"
        && (audience_eqb b CONSOLE || audience_eqb b MODELER)
     then consolePair config else applicationPair config)).
  { intros b. unfold selectCredentials, consolePair, applicationPair,
      requireConfiguration, truthyString. simpl.
    destruct (includes url _ && _);
      repeat match goal with
             | |- context [match ?x with Some _ => _ | None => _ end] => destruct x; simpl
             | |- context [if String.eqb ?x ?y then _ else _] => destruct (String.eqb x y); simpl
             end; reflexivity. }
  simpl. rewrite Eu. split; [ reflexivity | ]. split; [ apply S | ]. split.
  - intros w now F. unfold getToken.
    destruct (selectCredentials _ a) as [[cid sec] | e] eqn:C; [ discriminate F | ].
    unfold selectCredentials, requireConfiguration in C. simpl in C.
    repeat match type of C with
           | context [match ?x with _ => _ end] => destruct x; simpl in C
           | context [if ?x then _ else _] => destruct x; simpl in C
           end; try discriminate C; injection C as <-; now eexists.
  - intros Saas App b. rewrite S, Saas. simpl. exact App.
Qed.

Lemma accepted_configuration_witness :
  exists cfg, constructor consoleOnly = Ok cfg /\
  forall b, isOk (selectCredentials cfg b) = false.
Proof.
  eexists. split; [ reflexivity | ].
  apply (accepted_configuration_credentials (H:=samplePlatform) consoleOnly _ ZEEBE eq_refl);
    reflexivity.
Defined.

End OAuthSetupFacts.

Module OAuthTraceFacts.
Import OAuth OAuthFacts OAuthTrace.
Local Open Scope list_scope.

Lemma append_suffix (s1 s2 t1 t2 : string) :
  s1 +:+ t1 = s2 +:+ t2 -> exists u, t1 = u +:+ t2 \/ t2 = u +:+ t1.
Proof.
  revert s2. induction s1 as [ | c s1 IH]; intros s2 E.
  - exists s2. now left.
  - destruct s2 as [ | c' s2].
    + exists (String c s1). right. now symmetry.
    + injection E as _ E. now apply IH in E.
Qed.

Lemma noDash_split s u v : noDash s = true -> s <> u +:+ "-" +:+ v.
Proof.
  revert s. induction u as [ | c u IH]; intros s N E; subst s.
  - discriminate N.
  - unfold noDash in N. simpl in N. apply andb_prop in N as [_ N]. now apply (IH _ N).
Qed.

Lemma audienceName_noDash a : noDash (audienceName a) = true.
Proof. now destruct a. Qed.

Lemma storeKey_audience id1 id2 a1 a2 :
  id1 +:+ "-" +:+ audienceName a1 = id2 +:+ "-" +:+ audienceName a2 -> a1 = a2.
Proof.
  intros E. apply append_suffix in E as [u [E | E]].
  - destruct u as [ | c u].
    + injection E as E. now apply audienceName_inj.
    + injection E as _ E. now apply noDash_split in E; [ | apply audienceName_noDash ].
  - destruct u as [ | c u].
    + injection E as E. now apply audienceName_inj.
    + injection E as _ E. now apply noDash_split in E; [ | apply audienceName_noDash ].
Qed.

Section Cache.
Context `{Platform}.

Lemma entryGranted_more seen more a t :
  entryGranted seen a t -> entryGranted (seen ++ more) a t.
Proof. intros (A & I & E). repeat split; try done. apply in_or_app. now left. Qed.

Lemma cachesGranted_more cfg p seen more :
  cachesGranted cfg p seen -> cachesGranted cfg p (seen ++ more).
Proof.
  intros [M P]. split.
  - intros key t L. destruct (M key t L) as (a & K & E). exists a.
    split; [ exact K | now apply entryGranted_more ].
  - intros m key t S L. destruct (P m key t S L) as (a & id & K & E). exists a, id.
    split; [ exact K | now apply entryGranted_more ].
Qed.

Lemma cachesGranted_evicted cfg p q seen :
  evicted p q -> cachesGranted cfg p seen -> cachesGranted cfg q seen.
Proof.
  intros [Sm Sp] [M P]. split.
  - intros key t L. apply (M key t). now apply (lookup_weaken _ _ _ _ L Sm).
  - intros m key t S L. destruct (persistentCache p) as [m0 | ] eqn:E0;
      rewrite S in Sp; [ | easy ].
    apply (P m0 key t eq_refl). now apply (lookup_weaken _ _ _ _ L Sp).
Qed.

Lemma getToken_evicts cfg w a now :
  evicted (provider w) (provider (getToken cfg w a now)).
Proof.
  unfold getToken.
  destruct (selectCredentials cfg a) as [[cid sec] | e]; [ | apply evicted_refl ].
  destruct (checkMemoryCache cfg now a (tokenCache (provider w))) as [tok | cache] eqn:Em;
    [ apply evicted_refl | ].
  apply checkMemoryCache_miss in Em as [Sm _].
  destruct (checkPersistentCache cfg now a cid (persistentCache (provider w)))
    as [tok | store'] eqn:Ep.
  - split; [ exact Sm | ]. simpl. now destruct (persistentCache (provider w)).
  - apply checkPersistentCache_miss in Ep.
    destruct (inflightTokenRequest (provider w)); split; simpl; try exact Sm; exact Ep.
Qed.

Lemma cachesGranted_step cfg w e seen :
  cachesGranted cfg (provider w) seen ->
  cachesGranted cfg (provider (step cfg w e)) (seen ++ granted cfg w [e]).
Proof.
  intros C. destruct e as [a now | p | p r]; simpl; rewrite ?app_nil_r.
  - eapply cachesGranted_evicted; [ apply getToken_evicts | exact C ].
  - unfold timerFires. now destruct (List.find _ (timers w)) as [[rq d] | ].
  - unfold responds. destruct (List.find _ (network w)) as [rq | ]; [ | now rewrite app_nil_r ].
    destruct (receive cfg (provider w) rq r) as [[tok q] | err] eqn:R; simpl;
      [ | rewrite app_nil_r; exact C ].
    unfold receive in R. destruct r as [msg | body]; [ discriminate R | ].
    destruct (truthyString (t_error body)); [ discriminate R | ].
    destruct (t_access_token body) as [tok' | ]; [ | discriminate R ].
    destruct (jwtDecode tok') as [exp | ] eqn:J; [ | discriminate R ].
    injection R as <- <-. simpl.
    assert (E : entryGranted (seen ++ [(audienceType rq, tok')]) (audienceType rq)
                  {| access_token := tok'; expiry := default 0%Z exp;
                     audience := audienceType rq |}).
    { repeat split; simpl; [ apply in_or_app; right; now left | now exists exp ]. }
    apply (cachesGranted_more _ _ _ [(audienceType rq, tok')]) in C. destruct C as [M P].
    split; simpl.
    + intros key t L. destruct (decide (key = getCacheKey cfg (audienceType rq))) as [-> | D].
      * rewrite lookup_insert_eq in L. injection L as <-. now exists (audienceType rq).
      * rewrite lookup_insert_ne in L by congruence. now apply M.
    + intros m key t S L. destruct (persistentCache (provider w)) as [m0 | ]; [ | discriminate S ].
      simpl in S. injection S as <-.
      destruct (decide (key = clientIdToUse rq +:+ "-" +:+ audienceName (audienceType rq)))
        as [-> | D].
      * rewrite lookup_insert_eq in L. injection L as <-.
        now exists (audienceType rq), (clientIdToUse rq).
      * rewrite lookup_insert_ne in L by congruence. now apply (P m0).
Qed.

Lemma cachesGranted_run cfg es : forall w seen,
  cachesGranted cfg (provider w) seen ->
  cachesGranted cfg (provider (run cfg w es)) (seen ++ granted cfg w es).
Proof.
  unfold run. induction es as [ | e es IH]; intros w seen C; simpl.
  - now rewrite app_nil_r.
  - rewrite app_assoc. apply IH.
    assert (S := cachesGranted_step cfg w e seen C). simpl in S.
    now rewrite app_nil_r in S.
Qed.

(** X10.  A token [getToken] hands out from a cache was granted by the token
    endpoint, in this run, to a request for the very audience asked for, and
    its expiry, as decoded from the token, lies further ahead than the
    refresh window.  The provider starts without a durable store or with an
    empty one. *)
Theorem cached_token_is_granted_and_fresh cfg (durable : bool) es a now tok :
  let start := newProvider (if durable then Some ∅ else None) in
  let w := run cfg start es in
  returned (getToken cfg w a now) = returned w ++ [Resolved tok] ->
  In (a, tok) (granted cfg start es) /\
  exists exp, jwtDecode tok = Some exp /\
              (now < default 0 exp * 1000 - refreshWindow cfg)%Z.
Proof.
  intros start w R.
  assert (C : cachesGranted cfg (provider w) (granted cfg start es)).
  { apply (cachesGranted_run cfg es start []). split.
    - intros key t L. simpl in L. now rewrite lookup_empty in L.
    - intros m key t S L. unfold start in S. destruct durable; simpl in S; [ | discriminate S ].
      injection S as <-. now rewrite lookup_empty in L. }
  destruct C as [M P].
  assert (Fresh : forall t, entryGranted (granted cfg start es) a t ->
                            isTokenExpired now t (refreshWindow cfg) = false ->
                            In (a, access_token t) (granted cfg start es) /\
                            exists exp, jwtDecode (access_token t) = Some exp /\
                              (now < default 0 exp * 1000 - refreshWindow cfg)%Z).
  { intros t (_ & I & exp & J & X) F. split; [ exact I | ]. exists exp. split; [ exact J | ].
    unfold isTokenExpired in F. rewrite X in F. apply Z.leb_gt in F. lia. }
  unfold getToken in R.
  destruct (selectCredentials cfg a) as [[cid sec] | e];
    [ | apply app_inv_head in R; discriminate R ].
  unfold checkMemoryCache in R.
  destruct (tokenCache (provider w) !! getCacheKey cfg a) as [t | ] eqn:L.
  - destruct (M _ _ L) as (a' & K & E). apply getCacheKey_inj in K. subst a'.
    destruct (isTokenExpired now t (refreshWindow cfg)) eqn:X.
    + unfold checkPersistentCache in R.
      destruct (persistentCache (provider w)) as [m | ] eqn:S.
      * destruct (m !! _) as [t' | ] eqn:L'.
        -- destruct (P _ _ _ eq_refl L') as (a' & id & K & E').
           apply storeKey_audience in K. subst a'.
           destruct (isTokenExpired now t' (refreshWindow cfg)) eqn:X'.
           ++ destruct (inflightTokenRequest (provider w)); simpl in R;
                apply app_inv_head in R; discriminate R.
           ++ simpl in R. apply app_inv_head in R. injection R as <-. now apply Fresh.
        -- destruct (inflightTokenRequest (provider w)); simpl in R;
             apply app_inv_head in R; discriminate R.
      * destruct (inflightTokenRequest (provider w)); simpl in R;
          apply app_inv_head in R; discriminate R.
    + simpl in R. apply app_inv_head in R. injection R as <-. now apply Fresh.
  - unfold checkPersistentCache in R.
    destruct (persistentCache (provider w)) as [m | ] eqn:S.
    + destruct (m !! _) as [t' | ] eqn:L'.
      * destruct (P _ _ _ eq_refl L') as (a' & id & K & E').
        apply storeKey_audience in K. subst a'.
        destruct (isTokenExpired now t' (refreshWindow cfg)) eqn:X'.
        -- destruct (inflightTokenRequest (provider w)); simpl in R;
             apply app_inv_head in R; discriminate R.
        -- simpl in R. apply app_inv_head in R. injection R as <-. now apply Fresh.
      * destruct (inflightTokenRequest (provider w)); simpl in R;
          apply app_inv_head in R; discriminate R.
    + destruct (inflightTokenRequest (provider w)); simpl in R;
        apply app_inv_head in R; discriminate R.
Qed.

Lemma backedOff_step cfg w e n :
  backedOff w n -> backedOff (step cfg w e) (failuresInARow cfg w [e] n).
Proof.
  intros (C & F & T & G). unfold backedOff.
  split; [ | split; [ | split; [ | now apply gate_step ] ] ];
    destruct e as [a now | p | p r]; simpl.
  - unfold getToken. destruct (selectCredentials cfg a) as [[cid sec] | e]; [ | exact C ].
    destruct (checkMemoryCache _ _ _ _); [ exact C | ].
    destruct (checkPersistentCache _ _ _ _ _); [ exact C | ].
    now destruct (inflightTokenRequest (provider w)).
  - unfold timerFires. now destruct (List.find _ (timers w)) as [[rq d] | ].
  - unfold responds. destruct (List.find _ (network w)) as [rq | ]; [ | exact C ].
    destruct (receive cfg (provider w) rq r) as [[tok q] | err]; simpl; [ reflexivity | ].
    now rewrite C.
  - unfold getToken. destruct (selectCredentials cfg a) as [[cid sec] | e]; [ | exact F ].
    destruct (checkMemoryCache _ _ _ _); [ exact F | ].
    destruct (checkPersistentCache _ _ _ _ _); [ exact F | ].
    now destruct (inflightTokenRequest (provider w)).
  - unfold timerFires. now destruct (List.find _ (timers w)) as [[rq d] | ].
  - unfold responds. destruct (List.find _ (network w)) as [rq | ]; [ | exact F ].
    now destruct (receive cfg (provider w) rq r) as [[tok q] | err].
  - unfold getToken. destruct (selectCredentials cfg a) as [[cid sec] | e]; [ | exact T ].
    destruct (checkMemoryCache _ _ _ _); [ exact T | ].
    destruct (checkPersistentCache _ _ _ _ _); [ exact T | ].
    destruct (inflightTokenRequest (provider w)); [ exact T | ]. simpl.
    apply Forall_app. split; [ exact T | ]. apply Forall_singleton. simpl.
    rewrite F, C. destruct n; simpl; [ reflexivity | lia ].
  - unfold timerFires. destruct (List.find _ (timers w)) as [[rq d] | ]; [ | exact T ].
    simpl. apply Forall_forall. intros t [I _]%list_elem_of_In%filter_In.
    apply (proj1 (Forall_forall _ _) T). now apply list_elem_of_In.
  - unfold responds. destruct (List.find _ (network w)) as [rq | ] eqn:L; [ | exact T ].
    assert (E : timers w = []).
    { unfold gateInvariant in G. destruct (inflightTokenRequest (provider w)).
      - destruct G as [(rq0 & d & _ & N & _) | (rq0 & E & _)]; [ | exact E ].
        rewrite N in L. discriminate L.
      - apply G. }
    destruct (receive cfg (provider w) rq r) as [[tok q] | err]; simpl;
      rewrite E; apply Forall_nil_2.
Qed.

(** X11.  After a failed token request the next one is delayed, by one second per
    request that failed since the last one that succeeded; a success clears
    the delay.  The flag [failed] and the counter [failureCount] agree
    throughout. *)
Theorem backoff_follows_failures cfg store es :
  let w := run cfg (newProvider store) es in
  let n := failuresInARow cfg (newProvider store) es 0 in
  failureCount (provider w) = n /\
  failed (provider w) = negb (Nat.eqb n 0) /\
  Forall (fun t => snd t = (1000 * Z.of_nat n)%Z) (timers w).
Proof.
  simpl.
  assert (G : forall w n, backedOff w n ->
            backedOff (run cfg w es) (failuresInARow cfg w es n)).
  { unfold run. induction es as [ | e es IH]; intros w n B; simpl; [ exact B | ].
    apply IH. exact (backedOff_step cfg w e n B). }
  destruct (G (newProvider store) 0%nat) as (C & F & T & _).
  - split; [ reflexivity | split; [ reflexivity | split;
      [ apply Forall_nil_2 | apply gate_newProvider ] ] ].
  - now repeat split.
Qed.

Lemma gate_act cfg w a : gateInvariant w -> gateInvariant (act cfg w a).
Proof. destruct a as [e | | ]; [ apply gate_step | easy | easy ]. Qed.

(** X12.  Flushing the caches leaves the request under way alone: still at most
    one is outstanding, whatever is flushed when.  Once both caches are
    flushed, no call is answered from a cache: a call that passes credential
    selection goes on to the token request. *)
Theorem flush_forces_token_request cfg store actions a now :
  let w := perform cfg (newProvider store) actions in
  let w' := perform cfg w [FlushMemoryCache; FlushFileCache] in
  (length (outstanding w) <= 1)%nat /\
  outstanding w' = outstanding w /\
  inflightTokenRequest (provider w') = inflightTokenRequest (provider w) /\
  needsRequest cfg (provider w') a now = isOk (selectCredentials cfg a).
Proof.
  simpl. split; [ | split; [ reflexivity | split; [ reflexivity | ] ] ].
  - apply outstanding_of_gate. generalize (gate_newProvider store).
    generalize (newProvider store). unfold perform.
    induction actions as [ | x actions IH]; intros w G; simpl; [ exact G | ].
    apply IH. now apply gate_act.
  - unfold needsRequest. destruct (selectCredentials cfg a) as [[cid sec] | e]; [ | reflexivity ].
    unfold checkMemoryCache, checkPersistentCache. simpl. rewrite lookup_empty.
    destruct (persistentCache _); simpl; [ now rewrite lookup_empty | reflexivity ].
Qed.

End Cache.

#[local] Existing Instance samplePlatform.

Lemma cached_token_witness :
  In (ZEEBE, "granted")
     (granted selfManaged (newProvider None)
        [Call ZEEBE 0; TimerFires 0; Responds 0 (sampleGrant "granted")]) /\
  exists exp, jwtDecode "granted" = Some exp /\
              (5000 < default 0 exp * 1000 - refreshWindow selfManaged)%Z.
Proof.
  apply (cached_token_is_granted_and_fresh selfManaged false
           [Call ZEEBE 0; TimerFires 0; Responds 0 (sampleGrant "granted")] ZEEBE 5000 "granted").
  vm_compute. reflexivity.
Defined.

End OAuthTraceFacts.

Module CliFacts.
Import Cli.
Local Open Scope list_scope.
#[local] Arguments startsWith : simpl never.
#[local] Arguments replace : simpl never.

Lemma replace_dashes arg :
  startsWith arg "--" = true ->
  replace arg "--" "" = String.substring 2 (String.length arg - 2) arg.
Proof.
  unfold startsWith. intros P. destruct arg as [ | c arg]; [ discriminate P | ].
  unfold replace. now rewrite P.
Qed.

Lemma scan_options args : forall parsedArgs,
  scan args parsedArgs =
    fold_left (fun o option => set (fst option) (snd option) o) (options args) parsedArgs.
Proof.
  induction args as [args IH] using (induction_ltof1 _ (@length string)).
  unfold ltof in IH. intros parsedArgs.
  destruct args as [ | arg rest]; [ reflexivity | ].
  change (scan (arg :: rest) parsedArgs) with
    (if startsWith arg "--" then
       match rest with
       | nextArg :: after =>
           if startsWith nextArg "--"
           then scan rest (set (replace arg "--" "") Flag parsedArgs)
           else scan after (set (replace arg "--" "") (Text nextArg) parsedArgs)
       | [] => scan rest (set (replace arg "--" "") (Text "") parsedArgs)
       end
     else scan rest parsedArgs).
  change (options (arg :: rest)) with
    ((if startsWith arg "--"
      then [(String.substring 2 (String.length arg - 2) arg, valueOf rest)]
      else []) ++ options rest).
  destruct (startsWith arg "--") eqn:D.
  - rewrite (replace_dashes arg D).
    destruct rest as [ | nextArg after]; [ reflexivity | ].
    unfold valueOf. destruct (startsWith nextArg "--") eqn:D'.
    + rewrite IH by (simpl; lia). reflexivity.
    + rewrite IH by (simpl; lia).
      change (options (nextArg :: after)) with
        ((if startsWith nextArg "--"
          then [(String.substring 2 (String.length nextArg - 2) nextArg, valueOf after)]
          else []) ++ options after).
      now rewrite D'.
  - apply IH. simpl. lia.
Qed.


Lemma own_after_options key opts : forall o : ParsedArguments,
  String.eqb key "__proto__" = false ->
  bool_decide (is_Some
    (fold_left (fun o option => set (fst option) (snd option) o) opts o !! key)) =
  bool_decide (is_Some (o !! key)) || existsb (fun option => String.eqb (fst option) key) opts.
Proof.
  induction opts as [ | [k v] opts IH]; intros o P; simpl; [ now rewrite orb_false_r | ].
  rewrite (IH _ P). unfold set.
  destruct (String.eqb_spec k key) as [-> | D]; simpl.
  - rewrite P. unfold ParsedArguments in *. rewrite lookup_insert_eq.
    rewrite (bool_decide_eq_true_2 _ (mk_is_Some _ _ eq_refl)). now rewrite orb_true_r.
  - destruct (String.eqb k "__proto__"); [ reflexivity | ].
    unfold ParsedArguments in *. now rewrite lookup_insert_ne.
Qed.

Lemma has_parsed key args :
  has key (parseArguments args) = given key args || inheritedProperty key.
Proof.
  unfold has, given. unfold parseArguments. rewrite scan_options.
  destruct (String.eqb key "__proto__") eqn:P.
  - apply String.eqb_eq in P. subst key. now rewrite !orb_true_r.
  - rewrite (own_after_options _ _ _ P). unfold ParsedArguments. rewrite lookup_empty.
    now rewrite (bool_decide_eq_false_2 _ (@is_Some_None ArgValue)).
Qed.

Lemma known_command (cmds : list (string * CliCommand)) command c :
  Codec.assoc command cmds = Some c ->
  existsb (fun known => bool_decide (Some (fst known) = Some command)) cmds = true.
Proof.
  induction cmds as [ | [k c'] cmds IH]; [ discriminate | ]. simpl.
  destruct (String.eqb_spec k command) as [-> | D].
  - intros _. now rewrite bool_decide_eq_true_2.
  - intros A. rewrite (IH A). apply orb_true_r.
Qed.



End CliFacts.

Module RestFacts.
Import Codec Rest.
Local Open Scope list_scope.

Lemma assoc_assign_eq {A} key (a : A) l : assoc key (assign key a l) = Some a.
Proof.
  induction l as [ | [k b] l IH]; simpl.
  - now rewrite String.eqb_refl.
  - destruct (String.eqb k key) eqn:E; simpl; now rewrite E.
Qed.

Lemma assoc_assign_ne {A} key other (a : A) l :
  other <> key -> assoc other (assign key a l) = assoc other l.
Proof.
  intros D. induction l as [ | [k b] l IH]; simpl.
  - assert (String.eqb key other = false) as -> by (apply String.eqb_neq; congruence).
    reflexivity.
  - destruct (String.eqb_spec k key) as [-> | Dk]; simpl.
    + assert (String.eqb key other = false) as -> by (apply String.eqb_neq; congruence).
      reflexivity.
    + now destruct (String.eqb k other).
Qed.

Lemma assign_same {A} key (a : A) l : assoc key l = Some a -> assign key a l = l.
Proof.
  induction l as [ | [k b] l IH]; simpl; [ discriminate | ].
  destruct (String.eqb_spec k key) as [-> | D].
  - now intros [= ->].
  - intros E. now rewrite IH.
Qed.

Lemma fill_lookup key value (headers : gmap string string) header :
  (if bool_decide (is_Some (headers !! key)) then headers else <[key := value]> headers)
    !! header
  = if String.eqb header key then Some (default value (headers !! key)) else headers !! header.
Proof.
  destruct (bool_decide_reflect (is_Some (headers !! key))) as [[present P] | N].
  - rewrite P. simpl. destruct (String.eqb_spec header key) as [-> | D]; [ exact P | reflexivity ].
  - apply eq_None_not_Some in N. rewrite N. simpl.
    destruct (String.eqb_spec header key) as [-> | D];
      [ apply lookup_insert_eq | now apply lookup_insert_ne ].
Qed.

Lemma beforeRequest_lookup userAgent token (headers : Headers) header :
  beforeRequest userAgent token headers !! header =
    if String.eqb header "authorization"
    then Some (default ("Bearer " +:+ token) (headers !! "authorization"))
    else if String.eqb header "user-agent"
    then Some (default userAgent (headers !! "user-agent"))
    else if String.eqb header "content-type"
    then Some (match headers !! "content-type" with
               | Some contentType =>
                   if String.prefix "multipart/form-data" contentType
                   then contentType else "application/json"
               | None => "application/json"
               end)
    else headers !! header.
Proof.
  unfold Headers in *. unfold beforeRequest, getHeaders.
  cbn [fold_left fst snd]. unfold Headers.
  set (one := if bool_decide (is_Some (headers !! "authorization")) then headers
              else <["authorization" := "Bearer " +:+ token]> headers).
  set (two := if bool_decide (is_Some (one !! "user-agent")) then one
              else <["user-agent" := userAgent]> one).
  assert (T : forall h, two !! h =
            if String.eqb h "authorization"
            then Some (default ("Bearer " +:+ token) (headers !! "authorization"))
            else if String.eqb h "user-agent"
            then Some (default userAgent (headers !! "user-agent"))
            else headers !! h).
  { intros h. unfold two. rewrite fill_lookup. unfold one. rewrite !fill_lookup.
    destruct (String.eqb_spec h "user-agent") as [-> | D]; [ reflexivity | ].
    reflexivity. }
  assert (C : two !! "content-type" = headers !! "content-type") by now rewrite T.
  rewrite C.
  destruct (String.eqb_spec header "content-type") as [-> | D].
  - simpl. destruct (headers !! "content-type") as [ct | ] eqn:E.
    + destruct (String.prefix "multipart/form-data" ct); [ now rewrite C | ].
      apply lookup_insert_eq.
    + apply lookup_insert_eq.
  - assert (X : forall m : gmap string string,
              <["content-type" := "application/json"]> m !! header = m !! header)
      by (intros m; now apply lookup_insert_ne).
    destruct (headers !! "content-type") as [ct | ];
      [ destruct (String.prefix "multipart/form-data" ct) | ];
      rewrite ?X, T;
      destruct (String.eqb header "authorization"); try reflexivity;
      now destruct (String.eqb header "user-agent").
Qed.

(** X15.  The request hook of the REST client fills in the authorization and the
    user agent only where the request has none, and forces the content type
    to JSON unless it is a multipart form; no other header changes, and
    running the hook again changes nothing.  The hook of the Operate client
    replaces what the request has. *)
Theorem request_headers_filled_in userAgent token (headers : Headers) :
  let sent := beforeRequest userAgent token headers in
  sent !! "authorization" = Some (default ("Bearer " +:+ token) (headers !! "authorization")) /\
  sent !! "user-agent" = Some (default userAgent (headers !! "user-agent")) /\
  sent !! "content-type" =
    Some (match headers !! "content-type" with
          | Some contentType =>
              if String.prefix "multipart/form-data" contentType
              then contentType else "application/json"
          | None => "application/json"
          end) /\
  (forall header,
     header <> "authorization" -> header <> "user-agent" -> header <> "content-type" ->
     sent !! header = headers !! header) /\
  beforeRequest userAgent token sent = sent /\
  operateBeforeRequest userAgent token headers !! "authorization" = Some ("Bearer " +:+ token).
Proof.
  cbv zeta. split; [ | split; [ | split; [ | split; [ | split ] ] ] ].
  - now rewrite beforeRequest_lookup.
  - now rewrite beforeRequest_lookup.
  - now rewrite beforeRequest_lookup.
  - intros header Na Nu Nc. rewrite beforeRequest_lookup.
    apply String.eqb_neq in Na, Nu, Nc. now rewrite Na, Nu, Nc.
  - apply map_eq. intros header. rewrite beforeRequest_lookup.
    rewrite !(beforeRequest_lookup userAgent token headers). simpl.
    destruct (String.eqb header "authorization"); [ reflexivity | ].
    destruct (String.eqb header "user-agent"); [ reflexivity | ].
    destruct (String.eqb header "content-type"); [ | reflexivity ].
    destruct (headers !! "content-type") as [ct | ]; [ | reflexivity ].
    destruct (String.prefix "multipart/form-data" ct) eqn:P; [ now rewrite P | reflexivity ].
  - unfold operateBeforeRequest, operateHeaders. simpl.
    unfold Headers in *. rewrite !lookup_insert_ne by done. apply lookup_insert_eq.
Qed.

(** X16.  The debug log of the REST client never holds more of a bearer token
    than its first eight characters. *)
Theorem logged_authorization_is_cut token :
  safeAuthHeader (Some ("Bearer " +:+ token)) =
    Some ("Bearer " +:+ String.substring 0 8 token +:+
          (if (1 <? String.length token)%nat then "..." else "")) /\
  forall other,
    String.substring 0 8 other = String.substring 0 8 token ->
    (1 <? String.length other)%nat = (1 <? String.length token)%nat ->
    safeAuthHeader (Some ("Bearer " +:+ other)) = safeAuthHeader (Some ("Bearer " +:+ token)).
Proof.
  assert (E : forall t, safeAuthHeader (Some ("Bearer " +:+ t)) =
    Some ("Bearer " +:+ String.substring 0 8 t +:+
          (if (1 <? String.length t)%nat then "..." else ""))).
  { intros t. unfold safeAuthHeader.
    change ("Bearer " +:+ t) with
      (String "B" (String "e" (String "a" (String "r" (String "e" (String "r" (String " " t))))))).
    reflexivity. }
  split; [ apply E | ]. intros other S L. now rewrite !E, S, L.
Qed.

(** X17.  The REST client sends the tenant id a request names, and its own where
    the request names none (or [null], or [undefined]); every other property
    of the request is sent as given, and defaulting twice is defaulting
    once. *)
Theorem default_tenant_is_added tenantId request :
  let sent := addDefaultTenantId tenantId request in
  assoc "tenantId" sent = Some (tenantOf tenantId request) /\
  (forall key, key <> "tenantId" -> assoc key sent = assoc key request) /\
  addDefaultTenantId tenantId sent = sent.
Proof.
  cbv zeta. unfold addDefaultTenantId.
  split; [ apply assoc_assign_eq | ]. split; [ intros key D; now apply assoc_assign_ne | ].
  assert (E : tenantOf tenantId (assign "tenantId" (tenantOf tenantId request) request)
              = tenantOf tenantId request).
  { unfold tenantOf at 1. rewrite assoc_assign_eq. simpl.
    unfold tenantOf. destruct (default VUndefined (assoc "tenantId" request));
      try reflexivity; now destruct tenantId. }
  rewrite E. apply assign_same, assoc_assign_eq.
Qed.

Lemma tenant_in_filter_kept query fields v tenantId :
  filter query = Some fields -> assoc "tenantId" fields = Some v ->
  addTenantIdToFilter query tenantId = query.
Proof.
  intros F A. unfold addTenantIdToFilter, hasProperty. now rewrite F, A.
Qed.

(** X18.  The Operate client puts its tenant id into the filter of a query only
    where the filter does not name one, be it [undefined]: a tenant id in
    the filter is never replaced, so adding a second one changes nothing.
    Nothing else in the query changes. *)
Theorem tenant_filter_is_set_once query tenantId other :
  let sent := addTenantIdToFilter query tenantId in
  addTenantIdToFilter sent other = sent /\
  others sent = others query /\
  assoc "tenantId" (default [] (filter sent)) =
    Some (default (ofOption tenantId) (filter query ≫= assoc "tenantId")) /\
  (forall key, key <> "tenantId" ->
     assoc key (default [] (filter sent)) = assoc key (default [] (filter query))).
Proof.
  cbv zeta.
  destruct (filter query ≫= assoc "tenantId") as [v | ] eqn:T.
  - destruct (filter query) as [fields | ] eqn:F; [ | discriminate T ]. simpl in T.
    rewrite !(tenant_in_filter_kept query fields v) by assumption.
    rewrite F. simpl. now repeat split.
  - assert (E : addTenantIdToFilter query tenantId =
                {| filter := Some (assign "tenantId" (ofOption tenantId)
                                     (default [] (filter query)));
                   others := others query |}).
    { unfold addTenantIdToFilter, hasProperty.
      destruct (filter query) as [fields | ]; [ | reflexivity ].
      simpl in T. now rewrite T. }
    rewrite E. simpl. split; [ | split; [ reflexivity | split ] ].
    + eapply tenant_in_filter_kept; [ reflexivity | apply assoc_assign_eq ].
    + apply assoc_assign_eq.
    + intros key D. now apply assoc_assign_ne.
Qed.

End RestFacts.

Module CodecUseFacts.
Import Codec CodecFacts CodecUse.
Local Open Scope list_scope.

Lemma isObject_unsupported v : unsupported v -> isObject v = true.
Proof. now destruct 1. Qed.

Lemma newObj_unsupported rt v : unsupported v -> isOk (newObj rt v) = false.
Proof.
  induction 1 as [iso | | | items item I U IH | c fields key v I U IH]; try reflexivity.
  - change (newObj rt (VArray items)) with
      (bind (eachIndexed (fun i v => stringifyProperty (newObj rt) rt (VArray items) (index i) v)
               0%nat items)
            (fun items' => Ok (VArray items'))).
    destruct (proj1 (list_elem_of_lookup _ _) (proj2 (list_elem_of_In _ _) I)) as [i L].
    destruct (eachIndexed_fails
                (fun i v => stringifyProperty (newObj rt) rt (VArray items) (index i) v)
                items 0%nat) as (j & a & e & _ & _ & ->); [ | reflexivity ].
    exists i, item. split; [ exact L | ]. unfold stringifyProperty.
    now rewrite (isObject_unsupported _ U).
  - change (newObj rt (VObject c fields)) with
      (bind (each (fun property =>
                     bind (stringifyProperty (newObj rt) rt (VObject c fields)
                             (fst property) (snd property))
                          (fun v' => Ok (fst property, v')))
                  fields)
            (fun fields' => Ok (VObject None fields'))).
    destruct (each_fails
                (fun property =>
                   bind (stringifyProperty (newObj rt) rt (VObject c fields)
                           (fst property) (snd property))
                        (fun v' => Ok (fst property, v')))
                fields) as (a & e & _ & _ & ->); [ | reflexivity ].
    apply Exists_exists. exists (key, v). split; [ now apply list_elem_of_In | ].
    unfold stringifyProperty. simpl. rewrite (isObject_unsupported _ U).
    now destruct (newObj rt v).
Qed.

(** X21.  [losslessStringify] does not print a value that holds a [Date], a [Map]
    or a [Set], however deep under arrays and objects: it throws. *)
Theorem unsupported_types_are_refused rt v :
  unsupported v -> isOk (losslessStringify rt v) = false.
Proof.
  intros U. unfold losslessStringify.
  assert (N := newObj_unsupported rt v U). now destruct (newObj rt v).
Qed.

Lemma unsupported_witness :
  isOk (losslessStringify sdk
          (VObject None [("variables", VObject None [("due", VArray [VDate "2024-01-01T00:00:00.000Z"])])]))
    = false.
Proof.
  apply unsupported_types_are_refused.
  eapply unsupported_field; [ now left | ].
  eapply unsupported_field; [ now left | ].
  eapply unsupported_item; [ now left | constructor ].
Defined.

End CodecUseFacts.

Module PlainFacts.
Import Codec CodecFacts CodecUse.
Local Open Scope list_scope.

Lemma parse_object members : parse (JObject members) = VObject None (parseMembers members).
Proof.
  simpl. f_equal. induction members as [ | [k m] members IH]; [ reflexivity | ].
  simpl. now rewrite IH.
Qed.

Lemma stringify_object c fields members :
  Forall2 (fun property member =>
             fst member = fst property /\ stringify (snd property) = Some (snd member))
          fields members ->
  stringify (VObject c fields) = Some (JObject members).
Proof.
  intros F. simpl. f_equal. f_equal.
  induction F as [ | [k v] [k' j] fields members [K S] F IH]; [ reflexivity | ].
  simpl in K, S. subst k'. now rewrite S, IH.
Qed.

Lemma stringify_array items texts :
  Forall2 (fun item text => stringify item = Some text) items texts ->
  stringify (VArray items) = Some (JArray texts).
Proof.
  intros F. simpl. f_equal. f_equal.
  induction F as [ | v j items texts S F IH]; [ reflexivity | ].
  simpl. now rewrite S, IH.
Qed.

Lemma newObj_array rt items :
  newObj rt (VArray items) =
    bind (eachIndexed
            (fun i v => stringifyProperty (newObj rt) rt (VArray items) (index i) v)
            0%nat items)
         (fun items' => Ok (VArray items')).
Proof. reflexivity. Qed.

Lemma newObj_object rt c fields :
  newObj rt (VObject c fields) =
    bind (each (fun property =>
                  bind (stringifyProperty (newObj rt) rt (VObject c fields)
                          (fst property) (snd property))
                       (fun v' => Ok (fst property, v')))
               fields)
         (fun fields' => Ok (VObject None fields')).
Proof. reflexivity. Qed.

Section Plain.
Context `{LosslessJson}.

Lemma allSafe_array items :
  Forall allSafe items -> allSafe (VArray items).
Proof.
  intros F path literal O. inversion O as [ | | ? i v path' ? L Ov ]; subst.
  apply list_elem_of_lookup_2 in L.
  exact (proj1 (Forall_forall _ _) F v L path' literal Ov).
Qed.

Lemma allSafe_object c fields :
  Forall (fun property => allSafe (snd property)) fields -> allSafe (VObject c fields).
Proof.
  intros F path literal O. inversion O as [ | ? ? key v path' ? I Ov | ]; subst.
  apply list_elem_of_In in I.
  exact (proj1 (Forall_forall _ _) F (key, v) I path' literal Ov).
Qed.

Lemma plain_printed rt v : plainData v = true -> printed rt v.
Proof.
  induction v as [ | | b | n | n | s | literal | iso | | | items IH | c fields IH ]
    using Value_induction; intros P; try discriminate P.
  - exists JNull. split; [ reflexivity | ]. split; [ intros path literal O; inversion O | ].
    split; [ reflexivity | discriminate ].
  - exists (JBool b). split; [ reflexivity | ]. split; [ intros path literal O; inversion O | ].
    split; [ reflexivity | discriminate ].
  - simpl in P. apply andb_prop in P as [P E]. apply andb_prop in P as [N S].
    apply negb_true_iff in N. apply String.eqb_eq in E.
    exists (JNumber n). simpl. rewrite N.
    split; [ reflexivity | ]. split; [ intros path literal O; inversion O; subst; exact S | ].
    split; [ now rewrite E | discriminate ].
  - exists (JString s). split; [ reflexivity | ].
    split; [ intros path literal O; inversion O | ]. split; [ reflexivity | discriminate ].
  - simpl in P.
    assert (Each : Forall (printed rt) items).
    { apply Forall_forall. intros item I. apply (proj1 (Forall_forall _ _) IH item I).
      apply (proj1 (forallb_forall _ _) P). now apply list_elem_of_In. }
    clear IH P.
    assert (T : exists texts,
              Forall2 (fun item text => stringify item = Some text) items texts /\
              Forall allSafe (map parse texts) /\ map coerce (map parse texts) = items).
    { induction Each as [ | item items (text & S & A & C & _) _ (texts & F & As & Cs)].
      - exists []. now repeat split.
      - exists (text :: texts). simpl. rewrite C, Cs. repeat split; try easy.
        now constructor. now constructor. }
    destruct T as (texts & F & As & Cs).
    exists (JArray texts). split; [ now apply stringify_array | ]. split; [ | split ].
    + now apply allSafe_array.
    + simpl. now rewrite Cs.
    + intros _. rewrite newObj_array.
      rewrite (eachIndexed_map _ (fun v => v)); [ now rewrite map_id | ].
      intros i item L. unfold stringifyProperty. simpl.
      apply list_elem_of_lookup_2 in L.
      destruct (proj1 (Forall_forall _ _) Each item L) as (_ & _ & _ & _ & N).
      destruct (isObject item); [ now apply N | reflexivity ].
  - destruct c as [c | ]; [ discriminate P | ]. simpl in P.
    assert (Each : Forall (fun property => printed rt (snd property)) fields).
    { apply Forall_forall. intros property I.
      apply (proj1 (Forall_forall _ _) IH property I).
      apply list_elem_of_In in I.
      apply (proj1 (forallb_forall _ _) P) in I. now apply andb_prop in I as [_ I]. }
    clear IH P.
    assert (T : exists members,
              Forall2 (fun property member =>
                         fst member = fst property /\
                         stringify (snd property) = Some (snd member)) fields members /\
              Forall (fun property => allSafe (snd property)) (parseMembers members) /\
              map (fun property => (fst property, coerce (snd property)))
                  (parseMembers members) = fields).
    { induction Each as [ | [k v] fields (text & S & A & C & _) _ (members & F & As & Cs)].
      - exists []. now repeat split.
      - exists ((k, text) :: members). simpl in *. rewrite C, Cs. repeat split; try easy.
        now constructor. now constructor. }
    destruct T as (members & F & As & Cs).
    exists (JObject members). split; [ now apply stringify_object | ].
    rewrite parse_object. split; [ | split ].
    + now apply allSafe_object.
    + simpl. now rewrite Cs.
    + intros _. rewrite newObj_object.
      rewrite (each_map _ (fun property => property)); [ now rewrite map_id | ].
      apply Forall_forall. intros [k v] I. unfold stringifyProperty. simpl.
      destruct (proj1 (Forall_forall _ _) Each (k, v) I) as (_ & _ & _ & _ & N).
      simpl in N. destruct (isObject v); [ now rewrite N | reflexivity ].
Qed.

(** X22.  For plain data [losslessStringify] is lossless-json's [stringify]: an
    object or an array without class instances is printed as it stands.
    Read back without a Dto, a plain object is the object that was
    printed. *)
Theorem plain_data_round_trip rt v fuel :
  plainData v = true -> isObject v = true ->
  exists text,
    stringify v = Some text /\
    losslessStringify rt v = Ok text /\
    (isArray v = false -> losslessParse (S fuel) rt text None None = Ok v).
Proof.
  intros P O. destruct (plain_printed rt v P) as (text & S & A & C & N).
  exists text. split; [ exact S | ]. split.
  - unfold losslessStringify. rewrite (N O). simpl. now rewrite S.
  - intros NA. simpl.
    assert (E : isArray (parse text) = false).
    { destruct v; try discriminate; try discriminate O.
      destruct constructor; [ discriminate P | ].
      simpl in S. injection S as <-. reflexivity. }
    rewrite E. destruct (convert_safe (parse text) A) as [-> _]. now rewrite C.
Qed.

End Plain.

Lemma plain_data_witness :
  exists text,
    stringify (VObject None [("errorMessage", VString "Error: boom"); ("retries", VNumber "2")])
      = Some text /\
    losslessStringify sdk
      (VObject None [("errorMessage", VString "Error: boom"); ("retries", VNumber "2")])
      = Ok text /\
    (isArray (VObject None [("errorMessage", VString "Error: boom"); ("retries", VNumber "2")])
       = false ->
     losslessParse (H:=integers) 1 sdk text None None
       = Ok (VObject None [("errorMessage", VString "Error: boom"); ("retries", VNumber "2")])).
Proof.
  apply (plain_data_round_trip (H:=integers) sdk
           (VObject None [("errorMessage", VString "Error: boom"); ("retries", VNumber "2")])
           0); reflexivity.
Defined.

End PlainFacts.

Module MetadataFacts.
Import Codec CodecFacts CodecUse.
Local Open Scope list_scope.

Lemma inherited_fuel rt key :
  wellFormed rt ->
  forall c fuel fuel', (c < fuel)%nat -> (c < fuel')%nat ->
    inherited fuel rt c key = inherited fuel' rt c key.
Proof.
  intros W c. induction c as [c IH] using lt_wf_ind. intros fuel fuel' L L'.
  destruct fuel as [ | fuel]; [ lia | ]. destruct fuel' as [ | fuel']; [ lia | ].
  simpl. unfold classRef in *. destruct (classes rt !! c) as [def | ] eqn:D; [ | reflexivity ].
  destruct (assoc key (metadata def)); [ reflexivity | ].
  destruct (extends def) as [parent | ] eqn:E; [ | reflexivity ].
  assert (parent < c)%nat by exact (W c def parent D E).
  apply IH; lia.
Qed.

Lemma inherited_defined rt def key :
  wellFormed rt ->
  forall fuel old, (old < length (classes rt))%nat ->
    inherited fuel {| classes := classes rt ++ [def]; reflected := reflected rt |} old key
    = inherited fuel rt old key.
Proof.
  intros W fuel. induction fuel as [ | fuel IH]; intros old L; [ reflexivity | ].
  simpl. unfold classRef in *. rewrite lookup_app_l by exact L.
  destruct (classes rt !! old) as [d | ] eqn:D; [ | reflexivity ].
  destruct (assoc key (metadata d)); [ reflexivity | ].
  destruct (extends d) as [parent | ] eqn:E; [ | reflexivity ].
  apply IH. assert (parent < old)%nat by exact (W old d parent D E). lia.
Qed.

Lemma wellFormed_define rt c :
  wellFormed rt ->
  (forall parent, extends c = Some parent -> (parent < length (classes rt))%nat) ->
  wellFormed (snd (define rt c)).
Proof.
  intros W P old def parent L E. simpl in L.
  destruct (decide (old < length (classes rt))%nat) as [Lt | Ge].
  - rewrite lookup_app_l in L by exact Lt. exact (W old def parent L E).
  - rewrite lookup_app_r in L by lia.
    destruct (old - length (classes rt))%nat as [ | n] eqn:X; [ | now destruct n ].
    simpl in L. injection L as <-. apply P in E. lia.
Qed.


Lemma wellFormed_sdk : wellFormed sdk.
Proof.
  intros c def parent L E.
  destruct c as [ | [ | [ | c]]]; simpl in L; try discriminate L;
    injection L as <-; simpl in E; try discriminate E; injection E as <-;
    unfold LosslessDto; lia.
Qed.


End MetadataFacts.

Module ArrayFacts.
Import Codec CodecFacts CodecUse PlainFacts.
Local Open Scope list_scope.

Section Arrays.
Context `{LosslessJson}.

Lemma each_ext {A B} (f g : A -> result error B) l :
  (forall a, f a = g a) -> each f l = each g l.
Proof. intros E. induction l as [ | a l IH]; simpl; [ reflexivity | ]. now rewrite E, IH. Qed.

Lemma each_parsed {B} (f : Value -> result error B) (items : list json) :
  each f (map parse items) = each (fun item => f (parse item)) items.
Proof. induction items as [ | item items IH]; simpl; [ reflexivity | ]. now rewrite IH. Qed.

(** X24.  A JSON array is parsed item by item, each item with the Dto, or with
    [LosslessDto] when none is given; the first item that fails ends the
    parse.  An item that is [null] fails, so an array holding one is not
    parsed. *)
Theorem array_is_parsed_item_by_item fuel rt items dto :
  losslessParse (S fuel) rt (JArray items) dto None =
    bind (each (fun item => losslessParse fuel rt item (Some (default LosslessDto dto)) None)
               items)
         (fun parsed => Ok (VArray parsed)) /\
  (In JNull items -> isOk (losslessParse (S (S fuel)) rt (JArray items) dto None) = false).
Proof.
  assert (E : forall fuel,
    losslessParse (S fuel) rt (JArray items) dto None =
      bind (each (fun item => losslessParse fuel rt item (Some (default LosslessDto dto)) None)
                 items)
           (fun parsed => Ok (VArray parsed))).
  { intros f. simpl. unfold parseArrayWithAnnotations. simpl.
    rewrite each_parsed. f_equal. apply each_ext. intros item. unfold reparse.
    now rewrite stringify_parse. }
  split; [ apply E | ]. intros I. rewrite E.
  destruct (each_fails
              (fun item => losslessParse (S fuel) rt item (Some (default LosslessDto dto)) None)
              items) as (a & e & _ & _ & ->); [ | reflexivity ].
  apply Exists_exists. exists JNull. split; [ now apply list_elem_of_In | reflexivity ].
Qed.

(** X25.  The Operate client parses a search response as a whole, without a Dto,
    before it parses the items with their Dto: a number in the response
    that cannot be read safely makes [parseSearchResults] throw, also where
    the Dto of the items maps the field to a string. *)
Theorem search_results_need_safe_numbers fuel rt text dto :
  isArray (parse text) = false -> someUnsafe (parse text) ->
  isOk (parseSearchResults fuel rt text dto) = false.
Proof.
  intros A U. unfold parseSearchResults.
  destruct fuel as [ | fuel]; [ reflexivity | ].
  simpl. rewrite A. destruct (convert_unsafe_fails _ U) as [C _].
  now destruct (convertLosslessNumbersToNumberOrThrow (parse text)).
Qed.

End Arrays.

Lemma array_witness :
  isOk (losslessParse (H:=integers) 3 sdk (JArray [JObject []; JNull]) None None) = false.
Proof.
  apply (array_is_parsed_item_by_item (H:=integers) 1 sdk [JObject []; JNull] None).
  right. now left.
Defined.

Lemma search_results_witness :
  getMetadata sdk (Some RestApiJob) "key" = {| type := Some INT64_STRING; class := None |} /\
  isOk (parseSearchResults (H:=integers) 3 sdk searchResponse RestApiJob) = false.
Proof.
  split; [ reflexivity | ].
  apply (search_results_need_safe_numbers (H:=integers) 3 sdk searchResponse RestApiJob);
    [ reflexivity | ].
  exists ["items"; index 0; "key"], max64. split; [ | reflexivity ].
  eapply occurs_field; [ now left | ].
  eapply (occurs_item _ 0); [ reflexivity | ].
  eapply occurs_field; [ now left | constructor ].
Defined.

(** X19.  With a key, [losslessParse] parses the value the envelope holds under
    the key as it parses that value's text alone, with the same Dto; where
    the envelope has no such key, or holds a falsy value under it, it throws
    an error that prints the envelope.  The key is not the name of a
    property every object inherits, which the envelope would hold without
    the text naming it. *)
Theorem key_selects_the_value_parsed `{LosslessJson} fuel rt members dto key :
  key <> "" -> Cli.inheritedProperty key = false ->
  losslessParse (S fuel) rt (JObject members) dto (Some key) =
  match assoc key members with
  | Some located =>
      if truthy (parse located)
      then losslessParse fuel rt located dto None
      else Err (KeyNotFound key (Some (JObject members)))
  | None => Err (KeyNotFound key (Some (JObject members)))
  end.
Proof. intros Named _. now apply array_key_extraction. Qed.

Lemma array_key_witness :
  losslessParse (H:=integers) 3 sdk
    (JObject [("jobs", JArray [JObject [("key", JNumber max64)]])])
    (Some RestApiJob) (Some "jobs")
  = losslessParse (H:=integers) 2 sdk (JArray [JObject [("key", JNumber max64)]])
      (Some RestApiJob) None.
Proof.
  apply (key_selects_the_value_parsed (H:=integers) 2 sdk
           [("jobs", JArray [JObject [("key", JNumber max64)]])] (Some RestApiJob) "jobs");
    [ discriminate | reflexivity ].
Defined.

End ArrayFacts.

Module DecimalFacts.
Import Codec CodecUse.
Local Open Scope list_scope.

Lemma pretty_N_char_digit d :
  (d < 10)%N ->
  isDigit (pretty_N_char d) = true /\
  Z.of_nat (nat_of_ascii (pretty_N_char d) - 48) = Z.of_N d /\
  (pretty_N_char d = "0"%char -> d = 0%N).
Proof.
  intros L.
  assert (d = 0 \/ d = 1 \/ d = 2 \/ d = 3 \/ d = 4 \/ d = 5 \/ d = 6 \/ d = 7 \/ d = 8 \/ d = 9)%N
    as [-> | [-> | [-> | [-> | [-> | [-> | [-> | [-> | [-> | ->]]]]]]]]] by lia;
    (split; [ reflexivity | split; [ reflexivity | ] ]); intros E; try reflexivity;
    discriminate E.
Qed.

Lemma digitsValue_go x : forall s,
  exists k : Z,
    forall acc, digitsValue acc (pretty_N_go x s) = digitsValue (acc * k + Z.of_N x)%Z s.
Proof.
  induction (N.lt_wf_0 x) as [x _ IH]. intros s.
  destruct (N.eq_dec x 0%N) as [-> | D].
  - exists 1%Z. intros acc. rewrite pretty_N_go_0. f_equal. lia.
  - assert (P : (0 < x)%N) by lia.
    destruct (IH (x `div` 10)%N (N.div_lt x 10%N P eq_refl)
                 (String (pretty_N_char (x `mod` 10)) s)) as [k E].
    exists (10 * k)%Z. intros acc. rewrite (pretty_N_go_step x s P), E. simpl.
    destruct (pretty_N_char_digit (x `mod` 10)%N) as (Dg & V & _);
      [ apply N.mod_lt; lia | ].
    rewrite Dg, V. f_equal.
    assert (X : x = (10 * (x `div` 10) + x `mod` 10)%N) by (apply N.div_mod; lia).
    lia.
Qed.

Lemma pretty_N_go_digits x : forall s,
  allDigits s = true -> (0 < x)%N ->
  exists c rest,
    pretty_N_go x s = String c rest /\ isDigit c = true /\ c <> "0"%char /\
    allDigits rest = true.
Proof.
  induction (N.lt_wf_0 x) as [x _ IH]. intros s A P.
  rewrite (pretty_N_go_step x s P).
  destruct (pretty_N_char_digit (x `mod` 10)%N) as (Dg & _ & Z0);
    [ apply N.mod_lt; lia | ].
  destruct (N.eq_dec (x `div` 10)%N 0%N) as [E | D].
  - rewrite E, pretty_N_go_0. exists (pretty_N_char (x `mod` 10)), s.
    repeat split; try assumption. intros C. apply Z0 in C.
    assert (X : x = (10 * (x `div` 10) + x `mod` 10)%N) by (apply N.div_mod; lia).
    rewrite E, C in X. lia.
  - apply IH; [ now apply N.div_lt | simpl; now rewrite Dg | ].
    destruct (x `div` 10)%N; [ now destruct D | reflexivity ].
Qed.

Lemma skipDigits_all s : allDigits s = true -> skipDigits s = "".
Proof.
  induction s as [ | c s IH]; [ reflexivity | ]. simpl.
  intros [D A]%andb_prop. rewrite D. now apply IH.
Qed.

Lemma isDigit_not_dash c : isDigit c = true -> c <> "-"%char.
Proof. intros D ->. discriminate D. Qed.

Lemma isNumber_integer s unsigned :
  match s with String "-" rest => rest | _ => s end = unsigned ->
  match unsigned with
  | String "0" rest => Some rest
  | _ => digits1 unsigned
  end = Some "" ->
  isNumber s = true.
Proof. intros U E. unfold isNumber. cbv zeta. rewrite U, E. reflexivity. Qed.

Lemma isNumber_digits c rest :
  isDigit c = true -> c <> "0"%char -> allDigits rest = true ->
  isNumber (String c rest) = true /\ isNumber (String "-" (String c rest)) = true.
Proof.
  intros D N A.
  assert (E : match String c rest with
              | String "0" rest0 => Some rest0
              | _ => digits1 (String c rest)
              end = Some "").
  { transitivity (digits1 (String c rest)).
    - destruct c as [[] [] [] [] [] [] [] []]; try reflexivity. now destruct N.
    - simpl. rewrite D. now rewrite skipDigits_all. }
  split.
  - apply (isNumber_integer _ (String c rest)); [ | exact E ].
    destruct c as [[] [] [] [] [] [] [] []]; try reflexivity. discriminate D.
  - now apply (isNumber_integer _ (String c rest)).
Qed.

(** A decimal integer, as [pretty] prints it, is a JSON number, and [BigInt]
    reads it back. *)
Lemma decimal_integer (n : Z) :
  isNumber (pretty n) = true /\ BigInt (pretty n) = Ok n.
Proof.
  assert (Pos : forall p : positive,
            exists c rest, pretty (N.pos p) = String c rest /\ isDigit c = true /\
              c <> "0"%char /\ allDigits rest = true /\
              digitsValue 0 (String c rest) = Some (Z.pos p)).
  { intros p. unfold pretty, pretty_N. rewrite decide_False by discriminate.
    destruct (pretty_N_go_digits (N.pos p) "" eq_refl) as (c & rest & E & D & N & A);
      [ reflexivity | ].
    exists c, rest. repeat split; try assumption.
    destruct (digitsValue_go (N.pos p) "") as [k V].
    rewrite <- E, (V 0%Z). simpl. reflexivity. }
  destruct n as [ | p | p ].
  - split; reflexivity.
  - destruct (Pos p) as (c & rest & E & D & N & A & V).
    change (pretty (Z.pos p)) with (pretty (N.pos p)). rewrite E.
    split; [ now apply isNumber_digits | ].
    unfold BigInt.
    assert (U : match String c rest with
                | String "-" (String c0 rest0) => Z.opp <$> digitsValue 0 (String c0 rest0)
                | String _ _ => digitsValue 0 (String c rest)
                | EmptyString => None
                end = digitsValue 0 (String c rest)).
    { destruct c as [[] [] [] [] [] [] [] []]; try reflexivity. discriminate D. }
    rewrite U, V. reflexivity.
  - destruct (Pos p) as (c & rest & E & D & N & A & V).
    change (pretty (Z.neg p)) with ("-" +:+ pretty (N.pos p)). rewrite E.
    change ("-" +:+ String c rest) with (String "-" (String c rest)).
    split; [ now apply isNumber_digits | ].
    unfold BigInt. rewrite V. reflexivity.
Qed.

End DecimalFacts.

Module RoundTripFacts.
Import Codec CodecFacts CodecUse PlainFacts DecimalFacts.
Local Open Scope list_scope.

Lemma each_Forall2 {A B} (f : A -> result error B) l l' :
  Forall2 (fun a b => f a = Ok b) l l' -> each f l = Ok l'.
Proof.
  induction 1 as [ | a b l l' Fa _ IH]; simpl; [ reflexivity | ].
  now rewrite Fa, IH.
Qed.

Lemma eachIndexed_Forall2 {A B} (f : nat -> A -> result error B) l l' :
  Forall2 (fun a b => forall i, f i a = Ok b) l l' ->
  forall n, eachIndexed f n l = Ok l'.
Proof.
  induction 1 as [ | a b l l' Fa _ IH]; intros n; simpl; [ reflexivity | ].
  now rewrite Fa, IH.
Qed.

Lemma assign_fresh {A} key (a : A) l :
  key ∉ map fst l -> assign key a l = l ++ [(key, a)].
Proof.
  induction l as [ | [k b] l IH]; intros N; [ reflexivity | ].
  simpl. destruct (String.eqb k key) eqn:E.
  - apply String.eqb_eq in E. subst k. destruct N. now left.
  - rewrite IH; [ reflexivity | ]. intros I. apply N. now right.
Qed.

Section RoundTrip.

Context `{LosslessJson}.

Lemma occurs_unresolved v path literal : occurs v path literal -> resolved v = false.
Proof.
  induction 1 as [ literal | c fields key v path literal I _ IH | items i v path literal L _ IH ].
  - reflexivity.
  - simpl. apply not_true_is_false. intros F.
    apply (proj1 (forallb_forall _ _) F) in I. simpl in I. congruence.
  - simpl. apply not_true_is_false. intros F.
    apply list_elem_of_lookup_2, list_elem_of_In in L.
    apply (proj1 (forallb_forall _ _) F) in L. congruence.
Qed.

Lemma resolved_allSafe v : resolved v = true -> allSafe v.
Proof.
  intros R path literal O. apply occurs_unresolved in O. congruence.
Qed.

Lemma resolved_coerce v : resolved v = true -> coerce v = v.
Proof.
  induction v as [ | | b | n | n | s | literal | iso | | | items IH | c fields IH ]
    using Value_induction; intros R; try reflexivity; try discriminate R.
  - simpl in *. f_equal. induction items as [ | item items IHitems]; [ reflexivity | ].
    simpl in R. apply andb_prop in R as [Ri Rs].
    apply Forall_cons in IH as [Hi Hs]. simpl. now rewrite (Hi Ri), (IHitems Hs Rs).
  - simpl in *. f_equal. induction fields as [ | [k v] fields IHfields]; [ reflexivity | ].
    simpl in R. apply andb_prop in R as [Ri Rs].
    apply Forall_cons in IH as [Hi Hs]. simpl in *. now rewrite (Hi Ri), (IHfields Hs Rs).
Qed.

Lemma plain_resolved v : plainData v = true -> resolved v = true.
Proof.
  induction v as [ | | b | n | n | s | literal | iso | | | items IH | c fields IH ]
    using Value_induction; intros P; try reflexivity; try discriminate P.
  - simpl in *. apply forallb_forall. intros item I.
    apply (proj1 (Forall_forall _ _) IH item (proj2 (list_elem_of_In _ _) I)).
    now apply (proj1 (forallb_forall _ _) P).
  - destruct c as [c | ]; [ discriminate P | ]. simpl in *.
    apply forallb_forall. intros property I.
    apply (proj1 (Forall_forall _ _) IH property (proj2 (list_elem_of_In _ _) I)).
    apply (proj1 (forallb_forall _ _) P) in I. now apply andb_prop in I as [_ I].
Qed.

(** The loop of [parseWithAnnotations] over properties named apart assigns
    them in order. *)
Lemma parseWithAnnotations_object again rt c members ws :
  NoDup (map fst ws) ->
  Forall2 (fun member w =>
             fst w = fst member /\
             parseField again rt c (fst member) (parse (snd member)) = Ok (Some (snd w)))
          members ws ->
  parseWithAnnotations again rt (VObject None (parseMembers members)) c
    = Ok (VObject (Some c) ws).
Proof.
  intros N F. unfold parseWithAnnotations.
  change (entries (VObject None (parseMembers members))) with
    (@Ok error _ (parseMembers members)).
  unfold bind at 1.
  assert (L : forall acc, NoDup (map fst acc ++ map fst ws) ->
            (fix loop (instance : list (string * Value)) (l : list (string * Value))
               : result error (list (string * Value)) :=
               match l with
               | [] => Ok instance
               | (key, value) :: rest =>
                   try assigned <- parseField again rt c key value;
                   match assigned with
                   | Some v => loop (assign key v instance) rest
                   | None => loop instance rest
                   end
               end) acc (parseMembers members) = Ok (acc ++ ws)).
  { clear N. induction F as [ | [k j] [k' w] members ws [K P] F IH]; intros acc N.
    - simpl. now rewrite app_nil_r.
    - simpl in K, P. subst k'. simpl parseMembers. cbv beta iota. rewrite P.
      unfold bind at 1. simpl map in N.
      rewrite assign_fresh.
      + rewrite IH; [ now rewrite <- app_assoc | ].
        rewrite map_app, <- app_assoc. exact N.
      + apply NoDup_app in N as (_ & D & _). intros I. apply (D k I). now left. }
  rewrite (L []); [ reflexivity | exact N ].
Qed.

Lemma instanceOf_object depth rt c v :
  instanceOf depth rt c v -> isObject v = true /\ isArray v = false.
Proof. destruct depth as [ | depth]; [ intros [] | ]. now intros (fields & -> & _). Qed.

Lemma bigints_printed ns :
  stringify (VArray (map VBigInt ns)) = Some (JArray (map (fun n => JNumber (pretty n)) ns)).
Proof.
  simpl. f_equal. f_equal. induction ns as [ | n ns IH]; [ reflexivity | ].
  simpl. now rewrite IH.
Qed.

Lemma bigints_resolved ns : forallb resolved (map VBigInt ns) = true.
Proof. induction ns as [ | n ns IH]; [ reflexivity | exact IH ]. Qed.

(** [parseField] on a property whose directive names no child class. *)
Lemma parseField_without_child again rt c key value :
  childOf (getMetadata rt (Some c) key) = None ->
  parseField again rt c key value
  = (if hasType (getMetadata rt (Some c) key) INT64_STRING_ARRAY then
      match value with
      | VArray items =>
          try items' <-
            each (fun item =>
                    if isLosslessNumber item
                    then Ok (VString (toText item))
                    else Err (UnexpectedType (typeof item) "Int64String" key "number"))
                 items;
          Ok (Some (VArray items'))
      | _ => Err (UnexpectedType (received value) "Int64StringArray" key "Array")
      end
    else if hasType (getMetadata rt (Some c) key) INT64_STRING then
      if truthy value then
        if isLosslessNumber value then Ok (Some (VString (toText value)))
        else if isArray value then
          Err (UnexpectedType "array" "Int64String" key
                 "number. If you are expecting an array, use the @Int64StringArray decorator.")
        else Err (UnexpectedType (received value) "Int64String" key "number")
      else Ok None
    else if hasType (getMetadata rt (Some c) key) INT64_BIGINT_ARRAY then
      match value with
      | VArray items =>
          try items' <-
            each (fun item =>
                    if isLosslessNumber item
                    then try n <- BigInt (toText item); Ok (VBigInt n)
                    else Err (UnexpectedType (typeof item) "BigIntValue in"
                                (key +:+ "[]") "number"))
                 items;
          Ok (Some (VArray items'))
      | _ => Err (UnexpectedType (received value) "BigIntValueArray" key "Array")
      end
    else if hasType (getMetadata rt (Some c) key) INT64_BIGINT then
      if truthy value then
        if isLosslessNumber value
        then try n <- BigInt (toText value); Ok (Some (VBigInt n))
        else if isArray value then
          Err (UnexpectedType "array" "BigIntValue" key
                 "number. If you are expecting an array, use the @BigIntValueArray decorator.")
        else Err (UnexpectedType (typeof value) "BigIntValue" key "number")
      else Ok None
    else Ok (Some value)).
Proof.
  intros Child. unfold parseField. cbv zeta. fold (childOf (getMetadata rt (Some c) key)).
  now rewrite Child.
Qed.

Lemma field_reread depth rt c key v :
  (forall child item, instanceOf depth rt child item -> reread depth rt child item item) ->
  holds (instanceOf depth rt) (getMetadata rt (Some c) key) v ->
  rereadField depth rt (Some c) c key v v.
Proof.
  intros IH Hv. unfold holds in Hv. unfold rereadField.
  set (m := getMetadata rt (Some c) key) in *.
  destruct (childOf m) as [child | ] eqn:Child.
  - destruct Hv as [Inst | (items & -> & Insts)].
    + (* an instance of the child class *)
      destruct (instanceOf_object _ _ _ _ Inst) as [Obj _].
      destruct (IH child v Inst) as (o & text & N & S & NA & R & P).
      exists o, text. split; [ | split; [ exact S | split; [ exact R | ] ] ].
      * intros obj _. unfold stringifyProperty. cbv zeta. now rewrite Obj.
      * intros fuel Le. exists v.
        split; [ | split; [ now apply resolved_allSafe | now apply resolved_coerce ] ].
        unfold parseField. cbv zeta. fold m. fold (childOf m). rewrite Child.
        assert (E : reparse (fun j d => losslessParse fuel rt j d None) (parse text) (Some child)
                    = Ok v).
        { unfold reparse. rewrite stringify_parse. now apply P. }
        rewrite E. now destruct (parse text).
    + (* an array of instances *)
      assert (T : exists os texts,
                Forall2 (fun item o => newObj rt item = Ok o) items os /\
                Forall2 (fun o text => stringify o = Some text) os texts /\
                forallb resolved items = true /\
                forall fuel, (depth <= fuel)%nat ->
                  Forall2 (fun item' item =>
                             reparse (fun j d => losslessParse fuel rt j d None) item' (Some child)
                             = Ok item)
                          (map parse texts) items).
      { induction Insts as [ | item items Inst _ (os & texts & Ns & Ss & Rs & Ps)].
        - exists [], []. repeat split; constructor.
        - destruct (IH child item Inst) as (o & text & N & S & _ & R & P).
          exists (o :: os), (text :: texts).
          split; [ now constructor | ]. split; [ now constructor | ].
          split; [ simpl; now rewrite R, Rs | ].
          intros fuel Le. simpl. constructor; [ | now apply Ps ].
          unfold reparse. rewrite stringify_parse. now apply P. }
      destruct T as (os & texts & Ns & Ss & Rs & Ps).
      exists (VArray os), (JArray texts).
      split; [ | split; [ now apply stringify_array | split; [ exact Rs | ] ] ].
      * intros obj _. unfold stringifyProperty. cbv zeta.
        change (isObject (VArray items)) with true. cbv iota.
        rewrite newObj_array. rewrite (eachIndexed_Forall2 _ items os); [ reflexivity | ].
        clear Ps Rs Ss. induction Ns as [ | item o items os N _ INs]; constructor.
        -- intros i. unfold stringifyProperty. cbv zeta.
           apply Forall_cons in Insts as [Inst Insts].
           destruct (instanceOf_object _ _ _ _ Inst) as [-> _]. exact N.
        -- apply INs. now apply Forall_cons in Insts as [_ Insts].
      * intros fuel Le. exists (VArray items).
        split; [ | split; [ now apply resolved_allSafe | now apply resolved_coerce ] ].
        unfold parseField. cbv zeta. fold m. fold (childOf m). rewrite Child.
        change (parse (JArray texts)) with (VArray (map parse texts)). cbv iota.
        now rewrite (each_Forall2 _ _ items (Ps fuel Le)).
  - assert (Parse := fun (fuel : nat) text =>
              parseField_without_child (fun j d => losslessParse fuel rt j d None) rt c key
                (parse text) Child).
    fold m in Parse.
    assert (Print : forall obj, constructorOf obj = Some c ->
              stringifyProperty (newObj rt) rt obj key v
              = (if isObject v then newObj rt v
                 else if hasType m INT64_STRING then newLosslessNumber v
                 else if hasType m INT64_BIGINT then
                   try text <- toString v; newLosslessNumber (VString text)
                 else Ok v)).
    { intros obj C. unfold stringifyProperty. cbv zeta. rewrite C. reflexivity. }
    destruct (hasType m INT64_STRING_ARRAY) eqn:SA.
    { (* Int64StringArray *)
      subst v. exists (VArray []), (JArray []).
      split; [ intros obj C; now rewrite (Print obj C) | ].
      split; [ reflexivity | split; [ reflexivity | ] ].
      intros fuel _. exists (VArray []). rewrite Parse. simpl.
      split; [ reflexivity | split; [ | reflexivity ] ].
      intros path literal O. inversion O as [ | | ? i ? ? ? L ]. discriminate L. }
    destruct (hasType m INT64_STRING) eqn:S64.
    { (* Int64String *)
      destruct Hv as (s & -> & Num). exists (VLossless s), (JNumber s).
      split; [ | split; [ reflexivity | split; [ reflexivity | ] ] ].
      - intros obj C. rewrite (Print obj C). simpl. unfold newLosslessNumber. simpl.
        now rewrite Num.
      - intros fuel _. exists (VString s). rewrite Parse. simpl.
        split; [ reflexivity | split; [ | reflexivity ] ].
        intros path literal O. inversion O. }
    destruct (hasType m INT64_BIGINT_ARRAY) eqn:BA.
    { (* BigIntValueArray *)
      destruct Hv as (ns & ->). exists (VArray (map VBigInt ns)).
      exists (JArray (map (fun n => JNumber (pretty n)) ns)).
      split; [ | split; [ apply bigints_printed | split; [ apply bigints_resolved | ] ] ].
      - intros obj C. rewrite (Print obj C). change (isObject (VArray (map VBigInt ns))) with true.
        cbv iota. rewrite newObj_array.
        rewrite (eachIndexed_map _ (fun v => v)); [ now rewrite map_id | ].
        intros i item L. apply list_elem_of_lookup_2 in L.
        apply list_elem_of_fmap in L as (n & -> & _). reflexivity.
      - intros fuel _. exists (VArray (map VBigInt ns)). rewrite Parse.
        split; [ | split; [ apply resolved_allSafe, bigints_resolved
                          | apply resolved_coerce, bigints_resolved ] ].
        change (parse (JArray (map (fun n => JNumber (pretty n)) ns))) with
          (VArray (map parse (map (fun n => JNumber (pretty n)) ns))).
        cbv iota. rewrite (each_Forall2 _ _ (map VBigInt ns)); [ reflexivity | ].
        clear. induction ns as [ | n ns INs]; [ constructor | ].
        simpl. constructor; [ | exact INs ].
        change (toText (VLossless (pretty n))) with (pretty n).
        now rewrite (proj2 (decimal_integer n)). }
    destruct (hasType m INT64_BIGINT) eqn:B64.
    { (* BigIntValue *)
      destruct Hv as (n & ->). exists (VLossless (pretty n)), (JNumber (pretty n)).
      split; [ | split; [ reflexivity | split; [ reflexivity | ] ] ].
      - intros obj C. rewrite (Print obj C). simpl. unfold newLosslessNumber. simpl.
        now rewrite (proj1 (decimal_integer n)).
      - intros fuel _. exists (VBigInt n). rewrite Parse. simpl.
        rewrite (proj2 (decimal_integer n)). simpl.
        split; [ reflexivity | split; [ | reflexivity ] ].
        intros path literal O. inversion O. }
    (* no directive *)
    destruct (plain_printed rt v Hv) as (text & S & A & C & N).
    exists v, text.
    split; [ | split; [ exact S | split; [ now apply plain_resolved | ] ] ].
    + intros obj Cn. rewrite (Print obj Cn).
      destruct (isObject v) eqn:O; [ now apply N | reflexivity ].
    + intros fuel _. exists (parse text). rewrite Parse. now repeat split.
Qed.

(** Property by property: an object whose properties are each read back is
    read back as the instance holding what they are read back as. *)
Lemma object_reread depth rt target c fields fields' :
  NoDup (map fst fields) ->
  Forall2 (fun property property' =>
             fst property' = fst property /\
             rereadField depth rt target c (fst property) (snd property) (snd property'))
          fields fields' ->
  reread (S depth) rt c (VObject target fields) (VObject (Some c) fields').
Proof.
  intros Names Fields.
  assert (T : exists printed members,
            Forall2 (fun property property' =>
                       forall obj, constructorOf obj = target ->
                         bind (stringifyProperty (newObj rt) rt obj (fst property) (snd property))
                              (fun v' => Ok (fst property, v')) = Ok property')
                    fields printed /\
            Forall2 (fun property member =>
                       fst member = fst property /\
                       stringify (snd property) = Some (snd member))
                    printed members /\
            forallb (fun property => resolved (snd property)) fields' = true /\
            map fst fields' = map fst fields /\
            forall fuel, (depth <= fuel)%nat ->
              exists ws,
                Forall2 (fun member w =>
                           fst w = fst member /\
                           parseField (fun j d => losslessParse fuel rt j d None) rt c
                             (fst member) (parse (snd member)) = Ok (Some (snd w)))
                        members ws /\
                Forall (fun w => allSafe (snd w)) ws /\
                map (fun w => (fst w, coerce (snd w))) ws = fields').
  { clear Names.
    induction Fields as [ | [key v] [key' v'] fields fields' [K (o & text & P & S & R & Q)] _
                            (printed & members & Ps & Ss & Rs & Ks & Qs)].
    - exists [], []. repeat split; try constructor.
      intros fuel _. exists []. repeat split; constructor.
    - simpl in K, P, S, R, Q. subst key'.
      exists ((key, o) :: printed), ((key, text) :: members).
      split; [ constructor; [ | exact Ps ] | ].
      { intros obj C. simpl. now rewrite (P obj C). }
      split; [ constructor; [ now split | exact Ss ] | ].
      split; [ simpl; now rewrite R, Rs | ].
      split; [ simpl; now rewrite Ks | ].
      intros fuel Le. destruct (Q fuel Le) as (w & Pw & Aw & Cw).
      destruct (Qs fuel Le) as (ws & Pws & Aws & Cws).
      exists ((key, w) :: ws).
      split; [ constructor; [ now split | exact Pws ] | ].
      split; [ constructor; [ exact Aw | exact Aws ] | ].
      simpl. now rewrite Cw, Cws. }
  destruct T as (printed & members & Ps & Ss & Rs & Ks & Qs).
  exists (VObject None printed), (JObject members).
  split; [ | split; [ now apply stringify_object | split; [ reflexivity | split; [ exact Rs | ] ] ] ].
  - rewrite newObj_object. rewrite (each_Forall2 _ fields printed); [ reflexivity | ].
    eapply Forall2_impl; [ exact Ps | ]. intros property property' P. now apply P.
  - intros [ | fuel] Le; [ lia | ].
    destruct (Qs fuel) as (ws & Pws & Aws & Cws); [ lia | ].
    change (losslessParse (S fuel) rt (JObject members) (Some c) None) with
      (bind (parseWithAnnotations (fun j d => losslessParse fuel rt j d None) rt
               (parse (JObject members)) c)
            convertLosslessNumbersToNumberOrThrow).
    rewrite parse_object. rewrite (parseWithAnnotations_object _ _ _ _ ws).
    + unfold bind.
      destruct (convert_safe (VObject (Some c) ws) (allSafe_object _ _ Aws)) as [-> _].
      simpl. now rewrite Cws.
    + assert (E : map fst ws = map fst fields).
      { rewrite <- Ks, <- Cws. rewrite map_map. reflexivity. }
      now rewrite E.
    + exact Pws.
Qed.

Lemma instance_reread depth : forall rt c v,
  instanceOf depth rt c v -> reread depth rt c v v.
Proof.
  induction depth as [ | depth IH]; intros rt c v; [ intros [] | ].
  intros (fields & -> & Names & Each).
  apply object_reread; [ exact Names | ].
  clear Names. induction Each as [ | [key v] fields [_ Hv] _ IHfields]; constructor.
  - split; [ reflexivity | ]. apply field_reread; [ apply IH | exact Hv ].
  - exact IHfields.
Qed.

End RoundTrip.

(** X26.  An instance of a Dto class whose properties hold what their directives
    declare is read back from its printed text as it was: [losslessParse] of
    [losslessStringify]'s output into the class gives the instance, with
    every [Int64String] still a string, every [BigIntValue] a bigint and
    every child an instance of its class. *)
Theorem dto_instance_round_trip `{LosslessJson} depth rt c v fuel :
  instanceOf depth rt c v -> (depth <= fuel)%nat ->
  exists text,
    losslessStringify rt v = Ok text /\
    losslessParse fuel rt text (Some c) None = Ok v.
Proof.
  intros I Le. destruct (instance_reread depth rt c v I) as (o & text & N & S & _ & _ & P).
  exists text. split; [ | now apply P ].
  unfold losslessStringify. rewrite N. simpl. now rewrite S.
Qed.

Lemma dto_instance_witness :
  exists text,
    losslessStringify examples anInstance = Ok text /\
    losslessParse (H:=integers) 2 examples text (Some MyDtoRef) None = Ok anInstance.
Proof.
  apply (dto_instance_round_trip (H:=integers) 2 examples MyDtoRef anInstance 2); [ | lia ].
  exists [("int64NumberField", VString max64);
          ("bigintField", VBigInt 9223372036854775807);
          ("bigintArrayField", VArray [VBigInt 9223372036854775806; VBigInt (-5)]);
          ("childDtoField", VObject (Some MyChildDtoRef) [("someField", VString "a")]);
          ("childDtoArrayField",
           VArray [VObject (Some MyChildDtoRef) [("someField", VString "b")];
                   VObject (Some MyChildDtoRef) [("someField", VString "c")]]);
          ("normalField", VString "text");
          ("normalNumberField", VNumber "42")].
  split; [ reflexivity | ].
  split; [ apply (bool_decide_unpack _); vm_compute; exact I | ].
  assert (Child : forall s,
            instanceOf (H:=integers) 1 examples MyChildDtoRef
              (VObject (Some MyChildDtoRef) [("someField", VString s)])).
  { intros s. exists [("someField", VString s)].
    split; [ reflexivity | ].
    split; [ apply (bool_decide_unpack _); vm_compute; exact I | ].
    constructor; [ | constructor ]. split; reflexivity. }
  repeat (apply Forall_cons; split); try apply Forall_nil; split; try reflexivity.
  - exists max64. split; reflexivity.
  - now exists 9223372036854775807%Z.
  - now exists [9223372036854775806; -5]%Z.
  - left. apply Child.
  - right. eexists. split; [ reflexivity | ]. repeat constructor; apply Child.
Defined.

End RoundTripFacts.

Module WireFacts.
Import Codec CodecFacts CodecUse PlainFacts DecimalFacts RoundTripFacts CodecWire.
Local Open Scope list_scope.

Lemma hasType_one m a b : hasType m a = true -> a <> b -> hasType m b = false.
Proof.
  unfold hasType. destruct (type m) as [t | ]; [ | discriminate ].
  intros ->%String.eqb_eq D. now apply String.eqb_neq.
Qed.

Lemma get_object c fields key :
  get (VObject c fields) key = Ok (default VUndefined (assoc key fields)).
Proof. reflexivity. Qed.

Section Wire.

Context `{LosslessJson}.

Lemma wireField_reread rt dto key v :
  wireField rt dto (key, v) = true ->
  rereadField 0 rt None dto key v (snd (typedField rt dto (key, v))).
Proof.
  unfold wireField, typedField. cbn [fst snd]. set (m := getMetadata rt (Some dto) key).
  intros [[_ P]%andb_prop D]%andb_prop.
  destruct (plain_printed rt v P) as (text & S & A & C & N).
  assert (Print : forall obj, constructorOf obj = None ->
            stringifyProperty (newObj rt) rt obj key v = Ok v).
  { intros obj Cn. unfold stringifyProperty. cbv zeta. rewrite Cn. simpl.
    destruct (isObject v) eqn:O; [ now apply N | reflexivity ]. }
  destruct (hasType m INT64_STRING) eqn:S64.
  - destruct v as [ | | b | n | z | s | l | iso | | | items | c fs ]; try discriminate D.
    assert (Child : childOf m = None).
    { unfold childOf. now rewrite (hasType_one m INT64_STRING CHILD_DTO S64). }
    exists (VNumber n), text. split; [ exact Print | ]. split; [ exact S | ].
    split; [ reflexivity | ]. intros fuel _. exists (VString n).
    split; [ | split; [ intros path literal O; inversion O | reflexivity ] ].
    rewrite (parseField_without_child _ rt dto key (parse text) Child). fold m.
    rewrite (hasType_one m INT64_STRING INT64_STRING_ARRAY S64) by discriminate.
    rewrite S64. simpl in S, P.
    destruct (String.eqb n "NaN" || String.eqb n "Infinity" || String.eqb n "-Infinity");
      [ discriminate P | ].
    injection S as <-. reflexivity.
  - unfold undirected in D. destruct (childOf m) eqn:Child; [ discriminate D | ].
    apply negb_true_iff in D. rewrite S64 in D.
    apply orb_false_elim in D as [D B64]. apply orb_false_elim in D as [D BA].
    apply orb_false_elim in D as [SA _].
    exists v, text. split; [ exact Print | ]. split; [ exact S | ].
    split; [ now apply plain_resolved | ]. intros fuel _. exists (parse text).
    split; [ | now split ].
    rewrite (parseField_without_child _ rt dto key (parse text) Child). fold m.
    now rewrite SA, S64, BA, B64.
Qed.

Lemma wire_reread rt dto v : wire rt dto v -> reread 1 rt dto v (typed rt dto v).
Proof.
  intros (fields & -> & Names & Each). simpl.
  apply object_reread; [ exact Names | ].
  clear Names. induction Each as [ | [key v] fields W _ IH]; constructor.
  - split; [ reflexivity | ]. now apply wireField_reread.
  - exact IH.
Qed.


End Wire.


End WireFacts.

Module DeployFacts.
Import Codec CodecFacts CodecUse PlainFacts RoundTripFacts CodecWire WireFacts Deploy.
Local Open Scope list_scope.

Section Client.

Context `{LosslessJson}.

Lemma reparsed_wire fuel rt v dto :
  wire rt dto v -> reparsed (S fuel) rt v dto = Ok (typed rt dto v).
Proof.
  intros W. destruct (wire_reread rt dto v W) as (o & t & N & St & _ & _ & Q).
  unfold reparsed, losslessStringify. rewrite N. unfold bind at 2. rewrite St.
  unfold bind at 1. apply Q. lia.
Qed.

(** A listed deployment of another kind than a process definition is, for
    the class of its kind, an object of properties without directive. *)
Lemma listed_wire kind value :
  kind <> Process -> plainData value = true ->
  wire dtos (classOf kind) (only (nameOf kind) value).
Proof.
  intros K P. exists [(nameOf kind, value)]. split; [ reflexivity | ].
  split; [ apply NoDup_singleton | ].
  constructor; [ | constructor ]. unfold wireField. cbn [fst snd]. rewrite P.
  destruct kind; [ now destruct K | reflexivity | reflexivity | reflexivity ].
Qed.

Lemma get_only kind value key :
  get (only kind value) key = Ok (if String.eqb kind key then value else VUndefined).
Proof. unfold only. rewrite get_object. simpl. now destruct (String.eqb kind key). Qed.

Lemma examine_listed fuel r deployment :
  body deployment ->
  examine (S fuel) dtos r (listed deployment) =
    Ok {| deploymentKey := deploymentKey r; tenantId := tenantId r;
          deployments := deployments r ++ [only (nameOf (fst deployment)) (made deployment)];
          processDefinitions := processDefinitions r ++ ofKind Process [deployment];
          decisions := decisions r ++ ofKind Decision [deployment];
          decisionRequirements := decisionRequirements r ++ ofKind Requirements [deployment];
          forms := forms r ++ ofKind Form [deployment] |}.
Proof.
  destruct deployment as [kind value]. intros (P & (fields & E) & W).
  cbn [fst snd] in *. subst value. unfold examine, listed. cbn [fst snd].
  assert (R : kind <> Process ->
            reparsed (S fuel) dtos (only (nameOf kind) (VObject None fields)) (classOf kind)
            = Ok (VObject (Some (classOf kind)) [(nameOf kind, VObject None fields)])).
  { intros K. rewrite (reparsed_wire fuel dtos _ _ (listed_wire kind _ K P)).
    destruct kind; [ now destruct K | reflexivity | reflexivity | reflexivity ]. }
  destruct kind.
  - rewrite !get_only. cbn [nameOf]. simpl String.eqb. cbv iota. cbn [bind truthy].
    rewrite (reparsed_wire fuel dtos _ _ (W eq_refl)). cbn [bind].
    destruct r. unfold ofKind, made. simpl. now rewrite !app_nil_r.
  - rewrite !get_only. cbn [nameOf]. simpl String.eqb. cbv iota. cbn [bind truthy].
    change (only "decision" (VObject None fields)) with
      (only (nameOf Decision) (VObject None fields)).
    change DecisionDeployment with (classOf Decision).
    rewrite R by discriminate. cbn [bind].
    destruct r. unfold ofKind, made. simpl. now rewrite !app_nil_r.
  - rewrite !get_only. cbn [nameOf]. simpl String.eqb. cbv iota. cbn [bind truthy].
    change (only "decisionRequirements" (VObject None fields)) with
      (only (nameOf Requirements) (VObject None fields)).
    change DecisionRequirementsDeployment with (classOf Requirements).
    rewrite R by discriminate. cbn [bind].
    destruct r. unfold ofKind, made. simpl. now rewrite !app_nil_r.
  - rewrite !get_only. cbn [nameOf]. simpl String.eqb. cbv iota. cbn [bind truthy].
    change (only "form" (VObject None fields)) with
      (only (nameOf Form) (VObject None fields)).
    change FormDeployment with (classOf Form).
    rewrite R by discriminate. cbn [bind].
    destruct r. unfold ofKind, made. simpl. now rewrite !app_nil_r.
Qed.

Lemma ofKind_cons kind deployment l :
  ofKind kind (deployment :: l) = ofKind kind [deployment] ++ ofKind kind l.
Proof. unfold ofKind. simpl. now destruct (isKind kind deployment). Qed.

Lemma loop_listed fuel l : forall r,
  Forall body l ->
  (fix loop (r : DeployResourceResponse) (l : list Value)
     : result error DeployResourceResponse :=
     match l with
     | [] => Ok r
     | deployment :: rest =>
         try r <- examine (S fuel) dtos r deployment;
         loop r rest
     end) r (map listed l) =
  Ok {| deploymentKey := deploymentKey r; tenantId := tenantId r;
        deployments :=
          deployments r ++ map (fun d => only (nameOf (fst d)) (made d)) l;
        processDefinitions := processDefinitions r ++ ofKind Process l;
        decisions := decisions r ++ ofKind Decision l;
        decisionRequirements := decisionRequirements r ++ ofKind Requirements l;
        forms := forms r ++ ofKind Form l |}.
Proof.
  induction l as [ | d l IH]; intros r B.
  - destruct r. simpl. unfold ofKind. simpl. now rewrite !app_nil_r.
  - apply Forall_cons in B as [Bd Bl]. cbn [map].
    rewrite (examine_listed fuel r d Bd). cbn [bind]. rewrite (IH _ Bl).
    cbn [deploymentKey tenantId deployments processDefinitions decisions
         decisionRequirements forms].
    rewrite !(ofKind_cons _ d l), <- !app_assoc. reflexivity.
Qed.


End Client.


End DeployFacts.
